(** * Reservoir simulation and draft genetic optimiser: a shallow embedding

    The development follows the notebooks of the repository:

    - the reservoir simulator [res_sim] (the same text in every notebook)
      and the objective functions [reliability] and [SD_func] of the
      notebook "2. Reservoir operation optimisation" (module [Optim]), with
      the exercise at its end (module [Exercise]);
    - the draft genetic algorithm of the exploratory notebook: [MSV_func],
      [SD_func], [fit_func], [dominates], [parents_selection], [crossover]
      and [gen_opt] (module [GA]);
    - the first draft of that algorithm, kept in the checkpoint of the
      notebooks: [non_dominated_sort], [crowding_distance], [crossover] and
      [mutation] with their probabilities, and the loop over the
      generations (module [NSGA]).

    Numbers.  The store model works on exact rationals ([Q]).  It is used
    for what rests on the control flow and on the order of the values the
    code compares: which branch is taken, which array is written, what
    raises, which of two values is kept.  Where a statement rests on an
    identity of sums or differences, rounding decides, and the simulator is
    evaluated on binary64 numbers instead (module [F64], on Rocq's primitive
    floats); lemmas of the exact model that state such an identity say so.
    Arrays hold numbers whatever their numpy dtype (the truncation of a
    float stored into an integer array is not modelled).  A computation that
    would produce [nan] (the mean of an empty array) or raise a Python
    exception (IndexError, ValueError) yields [None].

    Arrays handed to a function are Python objects: they live in a store and
    are passed by reference, so that the in-place writes of [res_sim] to its
    [supply] argument, and the aliasing they can cause, are visible.  Arrays
    a function creates itself (np.zeros) cannot be aliased and are kept as
    plain lists. *)

From Stdlib Require Import QArith Qabs Qround Qminmax Lqa Floats.
From stdpp Require Import gmap list.

#[local] Set Warnings "-inexact-float".

Local Open Scope Q_scope.

(** ** Comparisons of the source, on rationals *)

(** [x <= y] *)
Definition py_le (x y : Q) : bool := Qle_bool x y.
(** [x >= y] *)
Definition py_ge (x y : Q) : bool := Qle_bool y x.
(** [x > y] *)
Definition py_gt (x y : Q) : bool := negb (Qle_bool x y).
(** [x < y] *)
Definition py_lt (x y : Q) : bool := negb (Qle_bool y x).

(** ** The store of array objects *)

Abbreviation loc := positive.
Abbreviation store := (gmap positive (list Q)).

(** A new array object, at an address not in use. *)
Definition alloc (a : list Q) (σ : store) : loc * store :=
  let l := fresh (dom σ) in (l, <[l := a]> σ).

(** ** A state-and-exception monad for the body of [res_sim]

    The state is the store together with the three arrays [res_sim] creates
    with np.zeros. *)

Record frame := Frame {
  heap : store;
  s_arr : list Q;
  spill_arr : list Q;
  env_arr : list Q
}.

Definition Py (A : Type) : Type := frame → option (A * frame).

#[global] Instance Py_ret : MRet Py := λ A x f, Some (x, f).
#[global] Instance Py_bind : MBind Py := λ A B k m f,
  match m f with
  | Some (x, f') => k x f'
  | None => None
  end.

(** [a[t]] for an array of the store; out of range raises IndexError. *)
Definition get_heap (l : loc) (t : nat) : Py Q := λ f,
  a ← heap f !! l; v ← a !! t; Some (v, f).

(** [a[t] = v] for an array of the store. *)
Definition set_heap (l : loc) (t : nat) (v : Q) : Py unit := λ f,
  a ← heap f !! l;
  if decide (t < length a)%nat
  then Some (tt, Frame (<[l := <[t := v]> a]> (heap f)) (s_arr f) (spill_arr f) (env_arr f))
  else None.

Definition get_s (t : nat) : Py Q := λ f, v ← s_arr f !! t; Some (v, f).
Definition get_spill (t : nat) : Py Q := λ f, v ← spill_arr f !! t; Some (v, f).
Definition get_env (t : nat) : Py Q := λ f, v ← env_arr f !! t; Some (v, f).

Definition set_s (t : nat) (v : Q) : Py unit := λ f,
  if decide (t < length (s_arr f))%nat
  then Some (tt, Frame (heap f) (<[t := v]> (s_arr f)) (spill_arr f) (env_arr f))
  else None.

Definition set_spill (t : nat) (v : Q) : Py unit := λ f,
  if decide (t < length (spill_arr f))%nat
  then Some (tt, Frame (heap f) (s_arr f) (<[t := v]> (spill_arr f)) (env_arr f))
  else None.

Definition set_env (t : nat) (v : Q) : Py unit := λ f,
  if decide (t < length (env_arr f))%nat
  then Some (tt, Frame (heap f) (s_arr f) (spill_arr f) (<[t := v]> (env_arr f)))
  else None.

(** [if c: body] without an else branch. *)
Definition when (c : bool) (body : Py unit) : Py unit :=
  if c then body else mret tt.

(** [for x in xs: body] *)
Fixpoint for_each {A} (body : A → Py unit) (xs : list A) : Py unit :=
  match xs with
  | [] => mret tt
  | x :: xs' => body x ;; for_each body xs'
  end.

(** ** The reservoir simulator *)

Record sim_out := SimOut {
  out_s : list Q;
  out_env : list Q;
  out_spill : list Q;
  out_supply : loc
}.

Section res_sim_body.
Variables (inflow evap : loc) (s_max : Q) (supply : loc).

(** [s[t]+inflow[t]-evap[t]] *)
Definition water (t : nat) : Py Q :=
  x ← get_s t; i ← get_heap inflow t; e ← get_heap evap t;
  mret (x + i - e).

(** [s[t]+inflow[t]-evap[t]-env[t]] *)
Definition water_env (t : nat) : Py Q :=
  a ← water t; n ← get_env t; mret (a - n).

(** [s[t]+inflow[t]-evap[t]-env[t]-supply[t]] *)
Definition water_env_supply (t : nat) : Py Q :=
  b ← water_env t; u ← get_heap supply t; mret (b - u).

(** The first two [if]s of the loop body (environmental flow). *)
Definition env_block (t : nat) : Py unit :=
  a ← water t;
  when (py_le a 0) (set_env t 0);;
  n ← get_env t; a ← water t;
  when (py_ge n a) (a' ← water t; set_env t a').

(** The next two [if]s (supply). *)
Definition supply_block (t : nat) : Py unit :=
  b ← water_env t;
  when (py_le b 0) (set_heap supply t 0);;
  u ← get_heap supply t; b ← water_env t;
  when (py_ge u b) (b' ← water_env t; set_heap supply t b').

(** The last [if] (spillage) and the mass balance. *)
Definition spill_block (t : nat) : Py unit :=
  c ← water_env_supply t;
  when (py_gt c s_max) (c' ← water_env_supply t; set_spill t (c' - s_max));;
  b ← water_env t; p ← get_spill t; u ← get_heap supply t;
  set_s (t + 1) (b - p - u).

Definition res_sim_body (t : nat) : Py unit :=
  env_block t;; supply_block t;; spill_block t.

End res_sim_body.

(** [demand] is a parameter of the source function that its body never
    reads. *)
Definition res_sim (inflow evap demand : loc) (s_0 s_max env_min : Q)
    (supply : loc) (σ : store) : option (sim_out * store) :=
  I ← σ !! inflow;
  let T := length I in
  let s := replicate (T + 1) 0 in
  let spill := replicate T 0 in
  let env := (λ z, z + env_min) <$> replicate T 0 in
  let s := <[0%nat := s_0]> s in
  '(_, f) ← for_each (res_sim_body inflow evap s_max supply) (seq 0 T)
              (Frame σ s spill env);
  Some (SimOut (s_arr f) (env_arr f) (spill_arr f) supply, heap f).

(** *** What one iteration writes

    The values iteration [t] stores, as functions of the values it reads:
    [x = s[t]], [i = inflow[t]], [e = evap[t]], the contents [n0] of [env[t]],
    [u0] of [supply[t]] and [p0] of [spill[t]] before the iteration.  They
    follow the chain of [if]s of the source one by one and are used to state
    what a run of [res_sim] computes when [supply] is an array of its own. *)

Definition step_env (x i e n0 : Q) : Q :=
  let a := x + i - e in
  let n1 := if py_le a 0 then 0 else n0 in
  if py_ge n1 a then a else n1.

Definition step_supply (x i e n u0 : Q) : Q :=
  let b := x + i - e - n in
  let u1 := if py_le b 0 then 0 else u0 in
  if py_ge u1 b then b else u1.

Definition step_spill (s_max x i e n u p0 : Q) : Q :=
  let c := x + i - e - n - u in
  if py_gt c s_max then c - s_max else p0.

Definition step_s (x i e n p u : Q) : Q := x + i - e - n - p - u.

(** Iteration [t] relates the arrays [S], [EN], [SP] (storage, environmental
    flow, spillage) and the final contents [U'] of the supply array to the
    inputs [I], [E] and the candidate supply [U]. *)
Definition step_ok (s_max env_min : Q) (I E U S EN SP U' : list Q) (t : nat)
    : Prop :=
  ∃ x i e u0,
    S !! t = Some x ∧ I !! t = Some i ∧ E !! t = Some e ∧ U !! t = Some u0 ∧
    let n := step_env x i e (0 + env_min) in
    let u := step_supply x i e n u0 in
    let p := step_spill s_max x i e n u 0 in
    EN !! t = Some n ∧ U' !! t = Some u ∧ SP !! t = Some p ∧
    S !! (t + 1)%nat = Some (step_s x i e n p u).

(** The loop invariant of [res_sim] before iteration [k], for a supply array
    that is neither the inflow nor the evaporation array. *)
Definition loop_inv (σ : store) (supply : loc) (s_0 s_max env_min : Q)
    (I E U : list Q) (k : nat) (f : frame) : Prop :=
  ∃ Uk,
    heap f = <[supply := Uk]> σ ∧ length Uk = length U ∧
    length (s_arr f) = S (length I) ∧ length (env_arr f) = length I ∧
    length (spill_arr f) = length I ∧
    s_arr f !! 0%nat = Some s_0 ∧
    (∀ j, (k ≤ j)%nat → Uk !! j = U !! j) ∧
    (∀ j, (k ≤ j < length I)%nat →
       env_arr f !! j = Some (0 + env_min) ∧ spill_arr f !! j = Some 0) ∧
    (∀ j, (j < k)%nat →
       step_ok s_max env_min I E U (s_arr f) (env_arr f) (spill_arr f) Uk j).

(** ** Array helpers shared by the notebooks *)

Definition Qsum (x : list Q) : Q := foldr Qplus 0 x.

(** [np.mean(x)]; the mean of an empty array is nan. *)
Definition np_mean (x : list Q) : option Q :=
  match x with
  | [] => None
  | _ => Some (Qsum x / inject_Z (Z.of_nat (length x)))
  end.

(** A [for] loop over [xs] that updates local state and can raise. *)
Fixpoint for_opt {A S} (body : A → S → option S) (xs : list A) (st : S)
    : option S :=
  match xs with
  | [] => Some st
  | x :: xs' => st' ← body x st; for_opt body xs' st'
  end.

(** An elementwise binary operation on 1-D arrays, with numpy's
    broadcasting of an array of length 1; other shape mismatches raise. *)
Definition np_binop (op : Q → Q → Q) (a b : list Q) : option (list Q) :=
  if decide (length a = length b) then Some (zip_with op a b)
  else match a, b with
       | [x], _ => Some (op x <$> b)
       | _, [y] => Some ((λ x, op x y) <$> a)
       | _, _ => None
       end.

(** [np.maximum(x, y)] on scalars. *)
Definition np_maximum (x y : Q) : Q := if py_ge x y then x else y.

(** ** Notebook "2. Reservoir operation optimisation" *)

Module Optim.

(** [np.max(a, axis)] applied to a scalar [a]: the second positional
    argument of np.max is the axis of the reduction, not a second operand.
    A scalar is a 0-d array, for which numpy accepts axis 0 and reduces over
    its single element: the result is [a] itself. *)
Definition np_max (a : Q) (axis : nat) : Q := a.

Definition reliability (supply demand : list Q) : option Q :=
  let T := length supply in
  let x := replicate T 0 in
  x ← for_opt (λ t x,
         u ← supply !! t; d ← demand !! t;
         if py_ge u d then Some (<[t := 0]> x) else Some (<[t := 1]> x))
       (seq 0 T) x;
  np_mean x.

Definition SD_func (supply demand : list Q) : option Q :=
  let T := length demand in
  let sd := replicate T 0 in
  sd ← for_opt (λ t sd,
          d ← demand !! t; u ← supply !! t;
          Some (<[t := np_max (d - u) 0 ^ 2]> sd))
        (seq 0 T) sd;
  np_mean sd.

Section globals.
(** The global variables of the notebook that [auto_optim] reads. *)
Variables (inflow evap demand : loc) (s_0 s_max env_min : Q).

(** [vars] is the list object the optimiser hands over; [supply = vars]
    binds a second name to that object. *)
Definition auto_optim (vars : loc) (σ : store) : option ((Q * Q) * store) :=
  let supply := vars in
  '(o, σ) ← res_sim inflow evap demand s_0 s_max env_min supply σ;
  let supply := out_supply o in
  u ← σ !! supply; d ← σ !! demand;
  REL ← reliability u d;
  SD ← SD_func u d;
  Some ((REL, SD), σ).
End globals.

End Optim.

(** ** The exploratory notebook with the draft genetic algorithm *)

Module GA.

Definition MSV_func (s : list Q) (s_min : Q) : option Q :=
  let msv := (λ x, Qabs (np_maximum (s_min - x) 0)) <$> s in
  np_mean msv.

Definition SD_func (supply demand : list Q) : option Q :=
  diff ← np_binop Qminus demand supply;
  let sd := (λ x, np_maximum x 0 ^ 2) <$> diff in
  np_mean sd.

(** [np.all(obj1 <= obj2) and np.any(obj1 < obj2)] on two rows of an
    objectives array, which have one length.  (On rows of different lengths
    numpy broadcasts a row of length 1 and raises otherwise; [zip] drops the
    surplus entries instead, and no statement below is about such rows.) *)
Definition dominates (obj1 obj2 : list Q) : bool :=
  forallb (λ p, py_le p.1 p.2) (zip obj1 obj2)
  && existsb (λ p, py_lt p.1 p.2) (zip obj1 obj2).

(** [np.where(a == v)[0]]: the indices that hold [v], in increasing
    order. *)
Definition np_where (v : nat) (a : list nat) : list nat :=
  filter (λ i, a !! i = Some v) (seq 0 (length a)).

(** The body of the inner loop of [parents_selection], for the pair
    [(i, j)]. *)
Definition domination_pair (objectives : list (list Q)) (i j : nat)
    (st : list nat * list (list nat)) : option (list nat * list (list nat)) :=
  let '(domination_count, dominated_solutions) := st in
  oi ← objectives !! i; oj ← objectives !! j;
  if dominates oi oj then
    Some (alter S j domination_count,
          alter (λ l, l ++ [j]) i dominated_solutions)
  else if dominates oj oi then
    Some (alter S i domination_count,
          alter (λ l, l ++ [i]) j dominated_solutions)
  else Some (domination_count, dominated_solutions).

(** The two nested loops of [parents_selection]. *)
Definition domination (objectives : list (list Q))
    : option (list nat * list (list nat)) :=
  let n := length objectives in
  let domination_count := replicate n 0%nat in
  let dominated_solutions := replicate n [] in
  for_opt (λ i st,
    for_opt (domination_pair objectives i) (seq (i + 1) (n - (i + 1))) st)
  (seq 0 n) (domination_count, dominated_solutions).

(** [population[np.where(domination_count == v)[0][0]]] *)
Definition pick (v : nat) (domination_count : list nat)
    (population : list (list Q)) : option (list Q) :=
  i ← np_where v domination_count !! 0%nat; population !! i.

Definition parents_selection (objectives population : list (list Q))
    : option (list Q * list Q) :=
  '(domination_count, dominated_solutions) ← domination objectives;
  parent_1 ← pick 0 domination_count population;
  parent_2 ← pick 1 domination_count population;
  Some (parent_1, parent_2).

(** [np.arange(0.25,1,0.25)] *)
Definition crossover_ratios : list Q := [1 # 4; 2 # 4; 3 # 4].

(** [np.row_stack] needs rows of one length. *)
Definition crossover (parent_1 parent_2 : list Q) : option (list (list Q)) :=
  let num_genes := length parent_1 in
  if decide (length parent_1 = length parent_2) then
    let new_population := [parent_1; parent_2] in
    Some (foldl (λ new_population crossover_ratio,
            let crossover_point :=
              Z.to_nat (Qfloor (inject_Z (Z.of_nat num_genes) * crossover_ratio)) in
            let child_1 := take crossover_point parent_1 ++ drop crossover_point parent_2 in
            let child_2 := take crossover_point parent_2 ++ drop crossover_point parent_1 in
            new_population ++ [child_1; child_2])
          new_population crossover_ratios)
  else None.

Section globals.
(** The global variables of the notebook. *)
Variables (inflow evap demand : loc) (s_0 s_max s_min env_min : Q).
Variable pop_size : nat.

(** One iteration of the loop of [fit_func]; [i] ranges over
    [range(pop_size)], so both writes to [objectives] are in range. *)
Definition fit_func_body (population : list (list Q)) (i : nat)
    (st : list (list Q) * store) : option (list (list Q) * store) :=
  let '(objectives, σ) := st in
  row ← population !! i; d ← σ !! demand;
  supply ← np_binop Qmult row d;
  let '(supply, σ) := alloc supply σ in
  '(o, σ) ← res_sim inflow evap demand s_0 s_max env_min supply σ;
  let s := out_s o in
  let supply := out_supply o in
  msv ← MSV_func (take (length s - 1) s) s_min;
  let objectives := alter (λ r, <[0%nat := msv]> r) i objectives in
  u ← σ !! supply; d ← σ !! demand;
  sd ← SD_func u d;
  let objectives := alter (λ r, <[1%nat := sd]> r) i objectives in
  Some (objectives, σ).

Definition fit_func (pop_size : nat) (population : list (list Q))
    (σ : store) : option (list (list Q) * store) :=
  let objectives := replicate pop_size [0; 0] in
  for_opt (fit_func_body population) (seq 0 pop_size) (objectives, σ).

(** One generation of [gen_opt]. *)
Definition gen_opt_body (st : list (list Q) * option (list (list Q)) * store)
    : option (list (list Q) * option (list (list Q)) * store) :=
  let '(population, _, σ) := st in
  '(objectives, σ) ← fit_func pop_size population σ;
  '(parent_1, parent_2) ← parents_selection objectives population;
  population ← crossover parent_1 parent_2;
  Some (population, Some objectives, σ).

(** [population0] stands for the draw
    [np.random.uniform(0, 1, (pop_size, num_weeks))].  [objectives] is
    unbound until the first generation has run. *)
Definition gen_opt (max_generations : nat) (population0 : list (list Q))
    (σ : store) : option (list (list Q) * list (list Q) * store) :=
  '(population, objectives, σ) ←
    for_opt (λ _ st, gen_opt_body st) (seq 0 max_generations)
            (population0, None, σ);
  objectives ← objectives;
  Some (population, objectives, σ).
End globals.

End GA.

(** ** The invariant of the domination loops

    The counts have one entry per candidate, and the entry of a candidate
    that no candidate dominates is still 0. *)
Definition count_inv (objectives : list (list Q))
    (st : list nat * list (list nat)) : Prop :=
  length st.1 = length objectives ∧
  ∀ k ok,
    objectives !! k = Some ok →
    (∀ i oi, objectives !! i = Some oi → GA.dominates oi ok = false) →
    st.1 !! k = Some 0%nat.

(** ** The Squared Deficit in the words of the specification

    "Mean over time steps of max(demand[t] - supply[t], 0)^2": written
    from the specification, to be compared with the two [SD_func] of the
    notebooks. *)
Definition squared_deficit_spec (supply demand : list Q) : Q :=
  Qsum (zip_with (λ u d, Qmax (d - u) 0 ^ 2) supply demand)
  / inject_Z (Z.of_nat (length demand)).

(** ** The 8-week scenario of the notebooks *)

Definition week_inflow : list Q := [15; 17; 19; 11; 9; 4; 3; 8].
Definition week_evap : list Q := [1; 1; 2; 2; 2; 2; 2; 3].
Definition week_demand : list Q := [13; 13; 17; 18; 20; 22; 25; 26].

(** The arrays of the notebooks: [inflow] at address 1, [evap] at 2 and
    [demand] at 3. *)
Definition notebook_store : store :=
  <[3%positive := week_demand]>
    (<[2%positive := week_evap]> (<[1%positive := week_inflow]> ∅)).

(** A session with, besides, an array of candidate releases at 4. *)
Definition session (candidate : list Q) : store :=
  <[4%positive := candidate]> notebook_store.

(** A draw of four candidates for [gen_opt]; the genes are fractions of the
    weekly demand. *)
Definition draw4 : list (list Q) :=
  [ replicate 8 (1 # 2);
    replicate 7 (1 # 2) ++ [0];
    replicate 8 0;
    replicate 3 (1 # 2) ++ replicate 5 0 ].

(** A one-week session with nothing in the reservoir, no inflow and an
    evaporation of 1. *)
Definition dry_session : store :=
  <[4%positive := [5]]>
    (<[3%positive := [5]]> (<[2%positive := [1]]> (<[1%positive := [0]]> ∅))).

(** ** Which arrays a computation writes *)

(** Between [f] and [f'] only the array at [l] has changed in the store. *)
Definition heap_frame (l : loc) (f f' : frame) : Prop :=
  ∀ l', l' ≠ l → heap f' !! l' = heap f !! l'.

Definition writes_only {A} (l : loc) (m : Py A) : Prop :=
  ∀ f x f', m f = Some (x, f') → heap_frame l f f'.

(** ** The exercise of the optimisation notebook: quantity and quality *)

(** [np.max(l)] of a non-empty 1-D sequence; an empty one raises. *)
Definition np_amax (l : list Q) : option Q :=
  match l with
  | [] => None
  | x :: l' => Some (foldl np_maximum x l')
  end.

Module Exercise.

Definition MSV_func (s : list Q) (s_min : Q) : option Q :=
  let T := length s in
  let msv := replicate T 0 in
  msv ← for_opt (λ t msv,
           x ← s !! t;
           m ← np_amax [s_min - x; 0];
           Some (<[t := Qabs m]> msv))
         (seq 0 T) msv;
  np_mean msv.

Section globals.
(** The global variables of the notebook that this [auto_optim] reads. *)
Variables (inflow evap demand : loc) (s_0 s_max s_min env_min : Q).

(** The second [auto_optim] of the notebook: it scores the whole storage
    sequence [s] (T + 1 entries) and the realised supply. *)
Definition auto_optim (vars : loc) (σ : store) : option ((Q * Q) * store) :=
  let supply := vars in
  '(o, σ) ← res_sim inflow evap demand s_0 s_max env_min supply σ;
  let s := out_s o in
  let supply := out_supply o in
  MSV ← MSV_func s s_min;
  u ← σ !! supply; d ← σ !! demand;
  SD ← Optim.SD_func u d;
  Some ((MSV, SD), σ).
End globals.

End Exercise.

(** ** Array lengths across a computation *)

(** Every array of the store of [f] is still there in [f'], with its
    length. *)
Definition same_lengths (f f' : frame) : Prop :=
  ∀ l a, heap f !! l = Some a →
         ∃ a', heap f' !! l = Some a' ∧ length a' = length a.

Definition keeps_lengths {A} (m : Py A) : Prop :=
  ∀ f x f', m f = Some (x, f') → same_lengths f f'.

(** ** The pairs visited by the loops of [parents_selection] *)

(** [(i, j)] for [i] in [range(n)] and [j] in [range(i + 1, n)], in the
    order of the loops. *)
Definition visited_pairs (n : nat) : list (nat * nat) :=
  i ← seq 0 n; (λ j, (i, j)) <$> seq (i + 1) (n - (i + 1)).

(** Whether processing the pair [p] increments the count of [k]. *)
Definition counts_for (objectives : list (list Q)) (k : nat)
    (p : nat * nat) : bool :=
  match objectives !! p.1, objectives !! p.2 with
  | Some oi, Some oj =>
      if GA.dominates oi oj then bool_decide (p.2 = k)
      else if GA.dominates oj oi then bool_decide (p.1 = k)
      else false
  | _, _ => false
  end.

(** Whether candidate [i] dominates candidate [k]. *)
Definition dominated_by (objectives : list (list Q)) (k i : nat) : bool :=
  match objectives !! i, objectives !! k with
  | Some oi, Some ok => GA.dominates oi ok
  | _, _ => false
  end.

(** The number of elements of [l] on which [f] holds. *)
Fixpoint count_true {A} (f : A → bool) (l : list A) : nat :=
  match l with
  | [] => 0
  | x :: l' => (if f x then 1 else 0) + count_true f l'
  end.

(** The number of candidates that dominate candidate [k]. *)
Definition dominators (objectives : list (list Q)) (k : nat) : nat :=
  count_true (dominated_by objectives k) (seq 0 (length objectives)).

(** ** What [fit_func] stores for one candidate

    The objectives [msv] and [sd] of the candidate [row], for the series
    [I], [E] and [D]: the arrays [St] (storage) and [U'] (realised supply)
    obey the step equations of [res_sim] from [s_0] on the supply
    [row * D], [U'] keeps the length of that supply and its entries from
    index [len(inflow)] on, [msv] is the violation of [St[:-1]] and [sd] the
    deficit of [U'] against [D].  The relation is functional
    ([scored_functional]); it links the runs of [res_sim] on different
    stores in the proofs about [fit_func]. *)
Definition scored (s_0 s_max s_min env_min : Q) (I E D row : list Q)
    (msv sd : Q) : Prop :=
  ∃ St EN SP U',
    St !! 0%nat = Some s_0 ∧ length St = S (length I) ∧
    (∀ t, (t < length I)%nat →
       step_ok s_max env_min I E (zip_with Qmult row D) St EN SP U' t) ∧
    length U' = length (zip_with Qmult row D) ∧
    (∀ j, (length I ≤ j)%nat → U' !! j = zip_with Qmult row D !! j) ∧
    GA.MSV_func (take (length I) St) s_min = Some msv ∧
    GA.SD_func U' D = Some sd.

(** ** The simulator on binary64 numbers

    [res_sim] once more, statement by statement, on IEEE 754 binary64
    numbers (Rocq's primitive floats, the float64 of numpy): every array
    holds float64 values, a comparison with nan is false, and every sum and
    difference is rounded, in the order in which the source writes them.  A
    decimal literal stands for the nearest binary64 value, as in Python.
    The arrays are separate objects here; what sharing does is the subject
    of the store model above. *)

Module F64.

Record sim_out := SimOut {
  out_s : list float;
  out_env : list float;
  out_spill : list float;
  out_supply : list float
}.

(** [a[t] = v]; out of range raises IndexError. *)
Definition set_item (a : list float) (t : nat) (v : float)
    : option (list float) :=
  if decide (t < length a)%nat then Some (<[t := v]> a) else None.

(** One iteration of the loop of [res_sim], on the arrays
    [(s, env, spill, supply)]. *)
Definition res_sim_body (inflow evap : list float) (s_max : float) (t : nat)
    (st : list float * list float * list float * list float)
    : option (list float * list float * list float * list float) :=
  let '(s, env, spill, supply) := st in
  s_t ← s !! t; i ← inflow !! t; e ← evap !! t;
  (* Environmental flow *)
  env ← (if (s_t + i - e <=? 0)%float then set_item env t 0%float
         else Some env);
  n ← env !! t;
  env ← (if (s_t + i - e <=? n)%float then set_item env t (s_t + i - e)%float
         else Some env);
  n ← env !! t;
  (* Supply *)
  supply ← (if (s_t + i - e - n <=? 0)%float then set_item supply t 0%float
            else Some supply);
  u ← supply !! t;
  supply ← (if (s_t + i - e - n <=? u)%float
            then set_item supply t (s_t + i - e - n)%float
            else Some supply);
  u ← supply !! t;
  (* Spillage *)
  spill ← (if (s_max <? s_t + i - e - n - u)%float
           then set_item spill t (s_t + i - e - n - u - s_max)%float
           else Some spill);
  p ← spill !! t;
  s ← set_item s (t + 1) (s_t + i - e - n - p - u)%float;
  Some (s, env, spill, supply).

Definition res_sim (inflow evap demand : list float) (s_0 s_max env_min : float)
    (supply : list float) : option sim_out :=
  let T := length inflow in
  let s := replicate (T + 1) 0%float in
  let spill := replicate T 0%float in
  let env := (λ z, z + env_min)%float <$> replicate T 0%float in
  s ← set_item s 0 s_0;
  '(s, env, spill, supply) ←
    for_opt (res_sim_body inflow evap s_max) (seq 0 T) (s, env, spill, supply);
  Some (SimOut s env spill supply).

End F64.

(** ** Book-keeping of the domination loops and of the peeling of fronts *)

(** What processing the pair [p] appends to [dominated_solutions[k]]. *)
Definition dominated_target (objectives : list (list Q)) (k : nat)
    (p : nat * nat) : option nat :=
  match objectives !! p.1, objectives !! p.2 with
  | Some oi, Some oj =>
      if GA.dominates oi oj then (if decide (p.1 = k) then Some p.2 else None)
      else if GA.dominates oj oi then
             (if decide (p.2 = k) then Some p.1 else None)
           else None
  | _, _ => None
  end.

(** The number of candidates outside [P] that dominate candidate [j]. *)
Definition remaining (objectives : list (list Q)) (P : list nat) (j : nat)
    : nat :=
  count_true (λ i, dominated_by objectives j i && negb (bool_decide (i ∈ P)))
             (seq 0 (length objectives)).

(** The counts of [non_dominated_sort] once the candidates of [P] have been
    peeled off. *)
Definition counts_track (objectives : list (list Q)) (P : list nat)
    (count : list Z) : Prop :=
  length count = length objectives ∧
  ∀ j, (j < length objectives)%nat →
       count !! j = Some (Z.of_nat (remaining objectives P j)).

(** [dominated_solutions] holds, for each candidate, once each, the
    candidates it dominates. *)
Definition lists_dominated (objectives : list (list Q))
    (ds : list (list nat)) : Prop :=
  ∀ k, (k < length objectives)%nat →
    ∃ l, ds !! k = Some l ∧ NoDup l ∧
         ∀ j, j ∈ l ↔ (j < length objectives)%nat ∧
                      dominated_by objectives j k = true.

(** ** The first draft of the genetic algorithm

    The notebook kept under [.ipynb_checkpoints] holds, after the
    optimisation notebook, an earlier draft of the genetic algorithm:
    [non_dominated_sort], [crowding_distance], [crossover(population,
    crossover_prob)], [mutation(population, mutation_prob)] and the body of
    [multiobjective_optimization].  [res_sim], [MSV_func], [SD_func] and
    [dominates] are the functions of module [GA], word for word; the
    evaluation loop of the body is the loop of [GA.fit_func] and the two
    nested loops of [non_dominated_sort] are those of
    [GA.parents_selection]. *)

(** A float64 value of [crowding_distance]: a number, [np.inf], [-np.inf]
    or nan. *)
Inductive dist := Fin (q : Q) | PInf | NInf | NaN.

(** [a + b] *)
Definition dist_add (a b : dist) : dist :=
  match a, b with
  | NaN, _ | _, NaN => NaN
  | PInf, NInf | NInf, PInf => NaN
  | PInf, _ | _, PInf => PInf
  | NInf, _ | _, NInf => NInf
  | Fin x, Fin y => Fin (x + y)
  end.

(** [n / m] on float64 scalars: a division by 0 gives an infinity or nan
    (with a RuntimeWarning), not an exception. *)
Definition dist_div (n m : Q) : dist :=
  if Qeq_bool m 0 then
    if Qeq_bool n 0 then NaN else if py_lt 0 n then PInf else NInf
  else Fin (n / m).

(** [-a] *)
Definition dist_neg (a : dist) : dist :=
  match a with
  | Fin x => Fin (- x)
  | PInf => NInf
  | NInf => PInf
  | NaN => NaN
  end.

(** The order in which numpy sorts float64 values: nan comes last. *)
Definition dist_leb (a b : dist) : bool :=
  match a, b with
  | _, NaN => true
  | NaN, _ => false
  | NInf, _ => true
  | _, NInf => false
  | _, PInf => true
  | PInf, _ => false
  | Fin x, Fin y => py_le x y
  end.

(** [np.argsort(keys)]: the indices of [keys] in the order of their keys, by
    insertion.  numpy leaves the order of equal keys open; here they keep
    the order of their indices. *)
Fixpoint insert_by {A} (leb : A → A → bool) (x : nat * A)
    (l : list (nat * A)) : list (nat * A) :=
  match l with
  | [] => [x]
  | y :: l' => if leb y.2 x.2 then y :: insert_by leb x l' else x :: y :: l'
  end.

Definition argsort {A} (leb : A → A → bool) (keys : list A) : list nat :=
  fst <$> foldl (λ acc x, insert_by leb x acc) []
                (zip (seq 0 (length keys)) keys).

(** [a[idx]] for a list or array [idx] of indices. *)
Definition take_idx {A} (a : list A) (idx : list nat) : option (list A) :=
  mapM (λ i, a !! i) idx.

(** [a[i]] for an integer [i] that may be negative. *)
Definition py_index {A} (a : list A) (i : Z) : option A :=
  if decide (0 ≤ i)%Z then a !! Z.to_nat i
  else if decide (- Z.of_nat (length a) ≤ i)%Z
       then a !! Z.to_nat (Z.of_nat (length a) + i)
       else None.

(** [a[:n]] for an integer [n] that may be negative. *)
Definition py_slice_to {A} (a : list A) (n : Z) : list A :=
  if decide (0 ≤ n)%Z then take (Z.to_nat n) a
  else take (Z.to_nat (Z.of_nat (length a) + n)) a.

(** [np.argmin(a)]: the first index of the least entry; an empty array
    raises ValueError. *)
Definition argmin (a : list Q) : option nat :=
  match a with
  | [] => None
  | x :: a' =>
      Some (fst (foldl (λ '(best, v, i) y,
                          if py_lt y v then (i, y, S i) else (best, v, S i))
                       (0%nat, x, 1%nat) a')).1
  end.

Module NSGA.

(** The body of the innermost loop of [non_dominated_sort], for the
    dominated candidate [j]. *)
Definition peel_target (j : nat) (st : list Z * list nat)
    : option (list Z * list nat) :=
  let '(domination_count, next_front) := st in
  c ← domination_count !! j;
  let domination_count := <[j := (c - 1)%Z]> domination_count in
  if decide (c - 1 = 0)%Z
  then Some (domination_count, next_front ++ [j])
  else Some (domination_count, next_front).

(** The loop over [dominated_solutions[i]], for the member [i] of the
    current front. *)
Definition peel_member (dominated_solutions : list (list nat)) (i : nat)
    (st : list Z * list nat) : option (list Z * list nat) :=
  ds_i ← dominated_solutions !! i;
  for_opt peel_target ds_i st.

(** The [while] loop of [non_dominated_sort]; [None] when the fuel runs
    out. *)
Fixpoint peel (fuel : nat) (dominated_solutions : list (list nat))
    (domination_count : list Z) (current_front : list nat)
    (fronts : list (list nat)) : option (list (list nat)) :=
  match fuel with
  | O => None
  | S fuel =>
      if decide (0 < length current_front)%nat then
        let fronts := fronts ++ [current_front] in
        '(domination_count, next_front) ←
          for_opt (peel_member dominated_solutions) current_front
                  (domination_count, []);
        peel fuel dominated_solutions domination_count next_front fronts
      else Some fronts
  end.

(** The counts can go below 0 in Python, so they are integers here.  The
    loop runs at most [len(objectives) + 1] times
    ([non_dominated_sort_fronts]). *)
Definition non_dominated_sort (objectives : list (list Q))
    : option (list (list nat)) :=
  '(domination_count, dominated_solutions) ← GA.domination objectives;
  let current_front := GA.np_where 0 domination_count in
  peel (S (length objectives)) dominated_solutions
       (Z.of_nat <$> domination_count) current_front [].

(** [a[i] = v] on the distances. *)
Definition set_dist (a : list dist) (i : nat) (v : dist)
    : option (list dist) :=
  if decide (i < length a)%nat then Some (<[i := v]> a) else None.

(** One iteration of the loop over the objectives of
    [crowding_distance]. *)
Definition crowding_column (objectives : list (list Q)) (num_solutions : nat)
    (obj_index : nat) (st : list dist * list nat)
    : option (list dist * list nat) :=
  let '(crowding_distances, sorted_indices) := st in
  let obj (i : nat) : option Q := r ← objectives !! i; r !! obj_index in
  keys ← mapM obj sorted_indices;
  sorted_indices ← take_idx sorted_indices (argsort py_le keys);
  first ← sorted_indices !! 0%nat;
  final ← py_index sorted_indices (-1);
  crowding_distances ← set_dist crowding_distances first PInf;
  crowding_distances ← set_dist crowding_distances final PInf;
  crowding_distances ←
    for_opt (λ i crowding_distances,
               s_i ← sorted_indices !! i;
               old ← crowding_distances !! s_i;
               s_next ← sorted_indices !! (i + 1)%nat; a ← obj s_next;
               s_prev ← sorted_indices !! (i - 1)%nat; b ← obj s_prev;
               c ← obj final; d ← obj first;
               set_dist crowding_distances s_i
                 (dist_add old (dist_div (a - b) (c - d))))
            (seq 1 (num_solutions - 1 - 1)) crowding_distances;
  Some (crowding_distances, sorted_indices).

Definition crowding_distance (objectives : list (list Q))
    : option (list dist * list nat) :=
  let num_solutions := length objectives in
  row ← objectives !! 0%nat;
  let num_objectives := length row in
  let crowding_distances := replicate num_solutions (Fin 0) in
  let sorted_indices := seq 0 num_solutions in
  for_opt (crowding_column objectives num_solutions) (seq 0 num_objectives)
          (crowding_distances, sorted_indices).

(** The [while] loop that takes whole fronts while they fit; the argument
    [fronts] holds the fronts from [front_index] on. *)
Fixpoint select_fronts (fronts : list (list nat)) (pop_size : nat)
    (selected_parents : list nat) (front_index : nat) : list nat * nat :=
  match fronts with
  | [] => (selected_parents, front_index)
  | front :: fronts' =>
      if decide (length selected_parents + length front ≤ pop_size)%nat
      then select_fronts fronts' pop_size (selected_parents ++ front)
                         (S front_index)
      else (selected_parents, front_index)
  end.

Section random.
(** The values that the successive calls of [np.random.rand()] return, each
    in [[0, 1)]; a position in this sequence is threaded through the
    functions that draw. *)
Variable rnd : nat → Q.

(** [np.random.uniform(low, high)] *)
Definition np_random_uniform (low high : Q) (k : nat) : Q :=
  low + (high - low) * rnd k.

(** [np.random.uniform(0, 1, (pop_size, num_weeks))], drawn row by row from
    position 0. *)
Definition initial_population (pop_size num_weeks : nat) : list (list Q) :=
  (λ i, (λ j, np_random_uniform 0 1 (i * num_weeks + j)) <$> seq 0 num_weeks)
    <$> seq 0 pop_size.

(** [a[i, j], a[i + 1, j] = a[i + 1, j], a[i, j]] *)
Definition swap_gene (i j : nat) (a : list (list Q))
    : option (list (list Q)) :=
  r2 ← a !! (i + 1)%nat; y ← r2 !! j;
  r1 ← a !! i; x ← r1 !! j;
  let a := <[i := <[j := y]> r1]> a in
  r2 ← a !! (i + 1)%nat;
  Some (<[(i + 1)%nat := <[j := x]> r2]> a).

Definition crossover (population : list (list Q)) (crossover_prob : Q)
    (k : nat) : option (list (list Q) * nat) :=
  let new_population := population in
  for_opt (λ i '(new_population, k),
             if py_lt (rnd k) crossover_prob then
               row ← population !! i;
               for_opt (λ j '(new_population, k),
                          if py_lt (rnd k) (1 # 2) then
                            new_population ← swap_gene i j new_population;
                            Some (new_population, S k)
                          else Some (new_population, S k))
                       (seq 0 (length row)) (new_population, S k)
             else Some (new_population, S k))
          ((λ h, 2 * h)%nat <$> seq 0 ((length population + 1) / 2))
          (new_population, k).

Definition mutation (s_max : Q) (population : list (list Q))
    (mutation_prob : Q) (k : nat) : option (list (list Q) * nat) :=
  let new_population := population in
  for_opt (λ i '(new_population, k),
             row ← population !! i;
             for_opt (λ j '(new_population, k),
                        if py_lt (rnd k) mutation_prob then
                          r ← new_population !! i;
                          if decide (j < length r)%nat then
                            Some (<[i := <[j := np_random_uniform 0 s_max (S k)]> r]>
                                    new_population, S (S k))
                          else None
                        else Some (new_population, S k))
                     (seq 0 (length row)) (new_population, k))
          (seq 0 (length population)) (new_population, k).

Section globals.
Variables (inflow evap demand : loc) (s_0 s_max s_min env_min : Q).
Variable pop_size : nat.

(** The body of the loop over the generations.  The notebook calls
    [crossover(new_population)] and [mutation(new_population)], that is with
    the default probabilities 0.9 and 0.1; they are arguments here.  The
    state is [(population, best_solutions, best_objectives)], the position
    in the random sequence and the store. *)
Definition generation (crossover_prob mutation_prob : Q)
    (st : list (list Q) * list (list Q) * list (list Q) * nat * store)
    : option (list (list Q) * list (list Q) * list (list Q) * nat * store) :=
  let '(population, best_solutions, best_objectives, k, σ) := st in
  (* Evaluate population *)
  '(objectives, σ) ←
    GA.fit_func inflow evap demand s_0 s_max s_min env_min pop_size
                population σ;
  (* Non-dominated sorting *)
  fronts ← non_dominated_sort objectives;
  (* Select parents for next generation *)
  let '(selected_parents, front_index) := select_fronts fronts pop_size [] 0 in
  (* Fill remaining spaces using crowding distance *)
  last_front ← py_index fronts (Z.of_nat front_index - 1);
  front_objectives ← take_idx objectives last_front;
  '(crowding_distances, sorted_indices) ← crowding_distance front_objectives;
  sorted_indices ←
    take_idx sorted_indices
             (argsort dist_leb (dist_neg <$> crowding_distances));
  let room := (Z.of_nat pop_size - Z.of_nat (length selected_parents))%Z in
  filling ← mapM (λ idx, last_front !! idx) (py_slice_to sorted_indices room);
  let selected_parents := selected_parents ++ filling in
  (* Create next generation *)
  new_population ← take_idx population selected_parents;
  '(new_population, k) ← crossover new_population crossover_prob k;
  '(new_population, k) ← mutation s_max new_population mutation_prob k;
  let population := new_population in
  (* Store best solutions of current generation *)
  sums ← mapM (λ r, a ← r !! 0%nat; b ← r !! 1%nat; Some (a + b)) objectives;
  best_index ← argmin sums;
  best ← population !! best_index;
  best_objective ← objectives !! best_index;
  Some (population, best_solutions ++ [best],
        best_objectives ++ [best_objective], k, σ).

(** The loop over the generations, from the initial draw. *)
Definition generations (crossover_prob mutation_prob : Q)
    (max_generations : nat) (σ : store)
    : option (list (list Q) * list (list Q) * list (list Q) * nat * store) :=
  I ← σ !! inflow;
  let num_weeks := length I in
  let population := initial_population pop_size num_weeks in
  for_opt (λ _ st, generation crossover_prob mutation_prob st)
          (seq 0 max_generations)
          (population, [], [], (pop_size * num_weeks)%nat, σ).

(** [multiobjective_optimization(inflow, evap, demand, s_0, s_max, s_min,
    env_min, pop_size, max_generations)]: the saved cell holds the body, the
    call in the last cell gives the name and the parameters. *)
Definition multiobjective_optimization (max_generations : nat) (σ : store)
    : option (list (list Q) * list (list Q) * store) :=
  '(_, best_solutions, best_objectives, _, σ) ←
    generations (9 # 10) (1 # 10) max_generations σ;
  Some (best_solutions, best_objectives, σ).
End globals.
End random.

End NSGA.

(** A sequence of draws for the examples: 0, 1/8, ..., 6/8, 0, ... *)
Definition draws (k : nat) : Q := Z.of_nat (k mod 7) # 8.

(** * Properties *)

(** ** Comparisons *)

Lemma py_le_true x y : py_le x y = true ↔ x <= y.
Proof. apply Qle_bool_iff. Qed.

Lemma py_le_false x y : py_le x y = false ↔ y < x.
Proof.
  unfold py_le. split; intros H.
  - apply Qnot_le_lt. intros Hle. apply Qle_bool_iff in Hle. congruence.
  - destruct (Qle_bool x y) eqn:E; [|done].
    apply Qle_bool_iff in E. lra.
Qed.

Lemma py_ge_true x y : py_ge x y = true ↔ y <= x.
Proof. apply py_le_true. Qed.

Lemma py_ge_false x y : py_ge x y = false ↔ x < y.
Proof. apply py_le_false. Qed.

Lemma py_gt_true x y : py_gt x y = true ↔ y < x.
Proof. unfold py_gt. rewrite negb_true_iff. apply py_le_false. Qed.

Lemma py_gt_false x y : py_gt x y = false ↔ x <= y.
Proof. unfold py_gt. rewrite negb_false_iff. apply py_le_true. Qed.

Lemma py_lt_true x y : py_lt x y = true ↔ x < y.
Proof. unfold py_lt. rewrite negb_true_iff. apply py_le_false. Qed.

Lemma py_lt_false x y : py_lt x y = false ↔ y <= x.
Proof. unfold py_lt. rewrite negb_false_iff. apply py_le_true. Qed.

(** ** Running the monadic operations *)

Lemma Py_bind_run {A B} (m : Py A) (k : A → Py B) f x f' r :
  m f = Some (x, f') → k x f' = r → (m ≫= k) f = r.
Proof. intros Hm Hk. unfold mbind, Py_bind. by rewrite Hm. Qed.

Lemma get_s_run t f v : s_arr f !! t = Some v → get_s t f = Some (v, f).
Proof. intros H. unfold get_s. by rewrite H. Qed.
Lemma get_env_run t f v : env_arr f !! t = Some v → get_env t f = Some (v, f).
Proof. intros H. unfold get_env. by rewrite H. Qed.
Lemma get_spill_run t f v : spill_arr f !! t = Some v → get_spill t f = Some (v, f).
Proof. intros H. unfold get_spill. by rewrite H. Qed.
Lemma get_heap_run l t f a v :
  heap f !! l = Some a → a !! t = Some v → get_heap l t f = Some (v, f).
Proof. intros Ha Hv. unfold get_heap. rewrite Ha. simpl. by rewrite Hv. Qed.
Lemma set_env_run t f v n0 :
  env_arr f !! t = Some n0 →
  set_env t v f = Some (tt, Frame (heap f) (s_arr f) (spill_arr f) (<[t := v]> (env_arr f))).
Proof. intros H%lookup_lt_Some. unfold set_env. by rewrite decide_True. Qed.
Lemma set_spill_run t f v p0 :
  spill_arr f !! t = Some p0 →
  set_spill t v f = Some (tt, Frame (heap f) (s_arr f) (<[t := v]> (spill_arr f)) (env_arr f)).
Proof. intros H%lookup_lt_Some. unfold set_spill. by rewrite decide_True. Qed.
Lemma set_s_run t f v :
  (t < length (s_arr f))%nat →
  set_s t v f = Some (tt, Frame (heap f) (<[t := v]> (s_arr f)) (spill_arr f) (env_arr f)).
Proof. intros H. unfold set_s. by rewrite decide_True. Qed.
Lemma set_heap_run l t f v a u0 :
  heap f !! l = Some a → a !! t = Some u0 →
  set_heap l t v f = Some (tt, Frame (<[l := <[t := v]> a]> (heap f)) (s_arr f) (spill_arr f) (env_arr f)).
Proof. intros Ha H%lookup_lt_Some. unfold set_heap. rewrite Ha. simpl. by rewrite decide_True. Qed.

Section body_run.
Variables (inflow evap : loc) (s_max : Q) (supply : loc).
Variables (I E : list Q).
Hypothesis (Hsi : supply ≠ inflow) (Hse : supply ≠ evap).

Lemma water_run t f x i e :
  heap f !! inflow = Some I → heap f !! evap = Some E →
  s_arr f !! t = Some x → I !! t = Some i → E !! t = Some e →
  water inflow evap t f = Some (x + i - e, f).
Proof.
  intros HI HE Hx Hi He. unfold water.
  eapply Py_bind_run; [by apply get_s_run|].
  eapply Py_bind_run; [by eapply get_heap_run|].
  eapply Py_bind_run; [by eapply get_heap_run|]. done.
Qed.

Lemma water_env_run t f x i e n :
  heap f !! inflow = Some I → heap f !! evap = Some E →
  s_arr f !! t = Some x → I !! t = Some i → E !! t = Some e →
  env_arr f !! t = Some n →
  water_env inflow evap t f = Some (x + i - e - n, f).
Proof.
  intros HI HE Hx Hi He Hn. unfold water_env.
  eapply Py_bind_run; [by eapply water_run|].
  eapply Py_bind_run; [by apply get_env_run|]. done.
Qed.

Lemma env_block_run t f x i e n0 :
  heap f !! inflow = Some I → heap f !! evap = Some E →
  s_arr f !! t = Some x → I !! t = Some i → E !! t = Some e →
  env_arr f !! t = Some n0 →
  env_block inflow evap t f
  = Some (tt, Frame (heap f) (s_arr f) (spill_arr f)
                (<[t := step_env x i e n0]> (env_arr f))).
Proof.
  intros HI HE Hx Hi He Hn.
  pose proof (lookup_lt_Some _ _ _ Hn) as Hlt.
  unfold env_block, step_env.
  eapply Py_bind_run; [by eapply water_run|].
  destruct (py_le (x + i - e) 0) eqn:Ha; unfold when; cbv iota.
  - eapply Py_bind_run; [by eapply set_env_run|].
    eapply Py_bind_run; [apply get_env_run; simpl; by apply list_lookup_insert_eq|].
    eapply Py_bind_run; [by eapply water_run|].
    destruct (py_ge 0 (x + i - e)) eqn:Hb; unfold when; cbv iota.
    + eapply Py_bind_run; [by eapply water_run|].
      erewrite set_env_run; [|simpl; by apply list_lookup_insert_eq].
      simpl. by rewrite list_insert_insert_eq.
    + done.
  - eapply Py_bind_run; [done|].
    eapply Py_bind_run; [by apply get_env_run|].
    eapply Py_bind_run; [by eapply water_run|].
    destruct (py_ge n0 (x + i - e)) eqn:Hb; unfold when; cbv iota.
    + eapply Py_bind_run; [by eapply water_run|].
      by erewrite set_env_run.
    + unfold mret, Py_ret. rewrite list_insert_id by done. by destruct f.
Qed.

Lemma supply_block_run t f U x i e n u0 :
  heap f !! inflow = Some I → heap f !! evap = Some E →
  heap f !! supply = Some U →
  s_arr f !! t = Some x → I !! t = Some i → E !! t = Some e →
  env_arr f !! t = Some n → U !! t = Some u0 →
  supply_block inflow evap supply t f
  = Some (tt, Frame (<[supply := <[t := step_supply x i e n u0]> U]> (heap f))
                (s_arr f) (spill_arr f) (env_arr f)).
Proof.
  intros HI HE HU Hx Hi He Hn Hu.
  pose proof (lookup_lt_Some _ _ _ Hu) as Hlt.
  unfold supply_block, step_supply.
  eapply Py_bind_run; [by eapply water_env_run|].
  destruct (py_le (x + i - e - n) 0) eqn:Ha; unfold when; cbv iota.
  - eapply Py_bind_run; [by eapply set_heap_run|].
    eapply Py_bind_run.
    { eapply get_heap_run; simpl; [apply lookup_insert_eq|by apply list_lookup_insert_eq]. }
    eapply Py_bind_run.
    { eapply water_env_run; simpl; rewrite ?lookup_insert_ne; done. }
    destruct (py_ge 0 (x + i - e - n)) eqn:Hb; unfold when; cbv iota.
    + eapply Py_bind_run.
      { eapply water_env_run; simpl; rewrite ?lookup_insert_ne; done. }
      erewrite set_heap_run; simpl;
        [|apply lookup_insert_eq|by apply list_lookup_insert_eq].
      by rewrite insert_insert_eq, list_insert_insert_eq.
    + done.
  - eapply Py_bind_run; [done|].
    eapply Py_bind_run; [by eapply get_heap_run|].
    eapply Py_bind_run; [by eapply water_env_run|].
    destruct (py_ge u0 (x + i - e - n)) eqn:Hb; unfold when; cbv iota.
    + eapply Py_bind_run; [by eapply water_env_run|].
      by erewrite set_heap_run.
    + unfold mret, Py_ret. rewrite list_insert_id by done.
      rewrite insert_id by done. by destruct f.
Qed.

Lemma spill_block_run t f U x i e n u p0 :
  heap f !! inflow = Some I → heap f !! evap = Some E →
  heap f !! supply = Some U →
  s_arr f !! t = Some x → I !! t = Some i → E !! t = Some e →
  env_arr f !! t = Some n → U !! t = Some u →
  spill_arr f !! t = Some p0 → (t + 1 < length (s_arr f))%nat →
  spill_block inflow evap s_max supply t f
  = Some (tt, Frame (heap f)
                (<[(t + 1)%nat :=
                     step_s x i e n (step_spill s_max x i e n u p0) u]> (s_arr f))
                (<[t := step_spill s_max x i e n u p0]> (spill_arr f))
                (env_arr f)).
Proof.
  intros HI HE HU Hx Hi He Hn Hu Hp Hlen.
  assert (Hwes : ∀ g, heap g = heap f → s_arr g = s_arr f → env_arr g = env_arr f →
    water_env_supply inflow evap supply t g = Some (x + i - e - n - u, g)).
  { intros g Hh Hs Hv. unfold water_env_supply.
    eapply Py_bind_run; [eapply water_env_run; by rewrite ?Hh, ?Hs, ?Hv|].
    eapply Py_bind_run; [eapply get_heap_run; by rewrite ?Hh|]. done. }
  unfold spill_block, step_spill, step_s.
  eapply Py_bind_run; [by apply Hwes|].
  destruct (py_gt (x + i - e - n - u) s_max) eqn:Hc; unfold when; cbv iota.
  - eapply Py_bind_run.
    { eapply Py_bind_run; [by apply Hwes|]. by eapply set_spill_run. }
    eapply Py_bind_run; [by eapply water_env_run|].
    eapply Py_bind_run.
    { apply get_spill_run. simpl. apply list_lookup_insert_eq. by eapply lookup_lt_Some. }
    eapply Py_bind_run; [by eapply get_heap_run|].
    by rewrite set_s_run.
  - eapply Py_bind_run; [done|].
    eapply Py_bind_run; [by eapply water_env_run|].
    eapply Py_bind_run; [by apply get_spill_run|].
    eapply Py_bind_run; [by eapply get_heap_run|].
    rewrite set_s_run by done. by rewrite (list_insert_id (spill_arr f)).
Qed.

Lemma res_sim_body_run t f U x i e n0 u0 p0 :
  heap f !! inflow = Some I → heap f !! evap = Some E →
  heap f !! supply = Some U →
  s_arr f !! t = Some x → I !! t = Some i → E !! t = Some e →
  env_arr f !! t = Some n0 → U !! t = Some u0 →
  spill_arr f !! t = Some p0 → (t + 1 < length (s_arr f))%nat →
  let n := step_env x i e n0 in
  let u := step_supply x i e n u0 in
  let p := step_spill s_max x i e n u p0 in
  res_sim_body inflow evap s_max supply t f
  = Some (tt, Frame (<[supply := <[t := u]> U]> (heap f))
                (<[(t + 1)%nat := step_s x i e n p u]> (s_arr f))
                (<[t := p]> (spill_arr f))
                (<[t := n]> (env_arr f))).
Proof.
  intros HI HE HU Hx Hi He Hn Hu Hp Hlen n u p.
  pose proof (lookup_lt_Some _ _ _ Hn) as Hlt.
  pose proof (lookup_lt_Some _ _ _ Hu) as Hlu.
  unfold res_sim_body.
  eapply Py_bind_run; [by eapply env_block_run|].
  eapply Py_bind_run.
  { eapply supply_block_run; simpl; try done. by apply list_lookup_insert_eq. }
  erewrite spill_block_run; simpl; try done.
  - by rewrite lookup_insert_ne.
  - by rewrite lookup_insert_ne.
  - apply lookup_insert_eq.
  - by apply list_lookup_insert_eq.
  - by apply list_lookup_insert_eq.
Qed.
End body_run.

(** ** The loop of [res_sim] *)

Section loop.
Variables (inflow evap : loc) (s_0 s_max env_min : Q) (supply : loc).
Variables (σ : store) (I E U : list Q).
Hypothesis (HI : σ !! inflow = Some I) (HE : σ !! evap = Some E).
Hypothesis (HU : σ !! supply = Some U).
Hypothesis (HlenE : (length I ≤ length E)%nat).
Hypothesis (HlenU : (length I ≤ length U)%nat).
Hypothesis (Hsi : supply ≠ inflow) (Hse : supply ≠ evap).

Lemma loop_inv_init :
  loop_inv σ supply s_0 s_max env_min I E U 0
    (Frame σ (<[0%nat := s_0]> (replicate (length I + 1) 0))
       (replicate (length I) 0)
       ((λ z, z + env_min) <$> replicate (length I) 0)).
Proof.
  exists U. simpl. repeat split.
  - by rewrite insert_id.
  - rewrite length_insert, length_replicate. lia.
  - by rewrite length_fmap, length_replicate.
  - by rewrite length_replicate.
  - by rewrite Nat.add_1_r.
  - rewrite list_lookup_fmap, lookup_replicate_2 by lia. done.
  - by rewrite lookup_replicate_2 by lia.
  - lia.
Qed.

Lemma loop_inv_step k f :
  (k < length I)%nat →
  loop_inv σ supply s_0 s_max env_min I E U k f →
  ∃ f', res_sim_body inflow evap s_max supply k f = Some (tt, f') ∧
        loop_inv σ supply s_0 s_max env_min I E U (S k) f'.
Proof.
  intros Hk (Uk & Hheap & HlUk & Hls & Hle & Hlp & Hs0 & Hrest & Hinit & Hdone).
  destruct (lookup_lt_is_Some_2 (s_arr f) k) as [x Hx]; [lia|].
  destruct (lookup_lt_is_Some_2 I k) as [i Hi]; [lia|].
  destruct (lookup_lt_is_Some_2 E k) as [e He]; [lia|].
  destruct (lookup_lt_is_Some_2 U k) as [u0 Hu0]; [lia|].
  destruct (Hinit k) as [Hn0 Hp0]; [lia|].
  assert (HUk : Uk !! k = Some u0) by (by rewrite Hrest).
  eexists. split.
  { eapply (res_sim_body_run inflow evap s_max supply I E); try done.
    - by rewrite Hheap, lookup_insert_ne.
    - by rewrite Hheap, lookup_insert_ne.
    - by rewrite Hheap, lookup_insert_eq.
    - lia. }
  set (n := step_env x i e (0 + env_min)).
  set (u := step_supply x i e n u0).
  set (p := step_spill s_max x i e n u 0).
  exists (<[k := u]> Uk). simpl. repeat split.
  - by rewrite Hheap, insert_insert_eq.
  - by rewrite length_insert.
  - by rewrite length_insert.
  - by rewrite length_insert.
  - by rewrite length_insert.
  - rewrite list_lookup_insert_ne by lia. done.
  - intros j Hj. rewrite list_lookup_insert_ne by lia. apply Hrest. lia.
  - rewrite list_lookup_insert_ne by lia. apply Hinit. lia.
  - rewrite list_lookup_insert_ne by lia. apply Hinit. lia.
  - intros j Hj. destruct (decide (j = k)) as [->|Hne].
    + exists x, i, e, u0. cbv zeta. fold n u p.
      rewrite list_lookup_insert_ne by lia.
      rewrite !list_lookup_insert_eq by lia. done.
    + destruct (Hdone j) as (x' & i' & e' & u' & ? & ? & ? & ? & ? & ? & ? & ?);
        [lia|].
      exists x', i', e', u'. cbv zeta.
      rewrite !list_lookup_insert_ne by lia. done.
Qed.

Lemma loop_inv_run n k f :
  (k + n = length I)%nat →
  loop_inv σ supply s_0 s_max env_min I E U k f →
  ∃ f', for_each (res_sim_body inflow evap s_max supply) (seq k n) f
        = Some (tt, f') ∧
        loop_inv σ supply s_0 s_max env_min I E U (length I) f'.
Proof.
  revert k f. induction n as [|n IH]; intros k f Hkn Hinv.
  - exists f. split; [done|]. by replace (length I) with k by lia.
  - destruct (loop_inv_step k f) as (f1 & Hrun & Hinv1); [lia|done|].
    destruct (IH (S k) f1) as (f2 & Hrun2 & Hinv2); [lia|done|].
    exists f2. split; [|done]. simpl.
    eapply Py_bind_run; [exact Hrun|]. exact Hrun2.
Qed.

(** A run of [res_sim] on separate arrays returns, and every iteration
    obeys the step equations. *)
Lemma res_sim_run demand :
  ∃ o U',
    res_sim inflow evap demand s_0 s_max env_min supply σ
    = Some (o, <[supply := U']> σ) ∧
    out_supply o = supply ∧
    length U' = length U ∧
    length (out_s o) = S (length I) ∧
    length (out_env o) = length I ∧
    length (out_spill o) = length I ∧
    out_s o !! 0%nat = Some s_0 ∧
    (∀ j, (length I ≤ j)%nat → U' !! j = U !! j) ∧
    (∀ t, (t < length I)%nat →
       step_ok s_max env_min I E U (out_s o) (out_env o) (out_spill o) U' t).
Proof.
  destruct (loop_inv_run (length I) 0 _ eq_refl loop_inv_init)
    as (f & Hrun & Uk & Hheap & ? & ? & ? & ? & ? & ? & ? & ?).
  exists (SimOut (s_arr f) (env_arr f) (spill_arr f) supply), Uk.
  split; [|done].
  unfold res_sim. rewrite HI. simpl. rewrite Hrun. simpl. by rewrite Hheap.
Qed.
End loop.

(** ** Arithmetic of one iteration *)

Lemma step_env_cases x i e n0 :
  (x + i - e <= 0 ∧ step_env x i e n0 = x + i - e) ∨
  (0 < x + i - e ∧ x + i - e <= n0 ∧ step_env x i e n0 = x + i - e) ∨
  (0 < x + i - e ∧ n0 < x + i - e ∧ step_env x i e n0 = n0).
Proof.
  unfold step_env. cbv zeta.
  destruct (py_le (x + i - e) 0) eqn:H1.
  - apply py_le_true in H1. left.
    destruct (py_ge 0 (x + i - e)) eqn:H2; [done|].
    apply py_ge_false in H2. lra.
  - apply py_le_false in H1. right.
    destruct (py_ge n0 (x + i - e)) eqn:H2.
    + apply py_ge_true in H2. by left.
    + apply py_ge_false in H2. by right.
Qed.

Lemma step_supply_cases x i e n u0 :
  (x + i - e - n <= 0 ∧ step_supply x i e n u0 = x + i - e - n) ∨
  (0 < x + i - e - n ∧ x + i - e - n <= u0 ∧
   step_supply x i e n u0 = x + i - e - n) ∨
  (0 < x + i - e - n ∧ u0 < x + i - e - n ∧ step_supply x i e n u0 = u0).
Proof.
  unfold step_supply. cbv zeta.
  destruct (py_le (x + i - e - n) 0) eqn:H1.
  - apply py_le_true in H1. left.
    destruct (py_ge 0 (x + i - e - n)) eqn:H2; [done|].
    apply py_ge_false in H2. lra.
  - apply py_le_false in H1. right.
    destruct (py_ge u0 (x + i - e - n)) eqn:H2.
    + apply py_ge_true in H2. by left.
    + apply py_ge_false in H2. by right.
Qed.

Lemma step_spill_cases s_max x i e n u p0 :
  (s_max < x + i - e - n - u ∧
   step_spill s_max x i e n u p0 = x + i - e - n - u - s_max) ∨
  (x + i - e - n - u <= s_max ∧ step_spill s_max x i e n u p0 = p0).
Proof.
  unfold step_spill. cbv zeta.
  destruct (py_gt (x + i - e - n - u) s_max) eqn:H1.
  - apply py_gt_true in H1. by left.
  - apply py_gt_false in H1. by right.
Qed.

(** The water left after the environmental release is never negative. *)
Lemma step_env_left x i e n0 : 0 <= x + i - e - step_env x i e n0.
Proof.
  destruct (step_env_cases x i e n0) as [[? ->]|[(? & ? & ->)|(? & ? & ->)]]; lra.
Qed.

(** The realised supply lies between 0 and the candidate value. *)
Lemma step_supply_bounds x i e n0 u0 :
  0 <= u0 →
  0 <= step_supply x i e (step_env x i e n0) u0 ∧
  step_supply x i e (step_env x i e n0) u0 <= u0.
Proof.
  intros Hu0. pose proof (step_env_left x i e n0) as Hb.
  destruct (step_supply_cases x i e (step_env x i e n0) u0)
    as [[? ->]|[(? & ? & ->)|(? & ? & ->)]]; lra.
Qed.

(** The water left after the supply release is never negative either. *)
Lemma step_supply_left x i e n0 u0 :
  0 <= x + i - e - step_env x i e n0
       - step_supply x i e (step_env x i e n0) u0.
Proof.
  pose proof (step_env_left x i e n0) as Hb.
  destruct (step_supply_cases x i e (step_env x i e n0) u0)
    as [[? ->]|[(? & ? & ->)|(? & ? & ->)]]; lra.
Qed.

Lemma step_spill_nonneg s_max x i e n u : 0 <= step_spill s_max x i e n u 0.
Proof.
  destruct (step_spill_cases s_max x i e n u 0) as [[? ->]|[? ->]]; lra.
Qed.

(** The next storage lies in [[0, s_max]], whatever the current storage and
    the inputs of the step are. *)
Lemma step_s_bounds s_max x i e n0 u0 :
  0 <= s_max →
  let n := step_env x i e n0 in
  let u := step_supply x i e n u0 in
  let p := step_spill s_max x i e n u 0 in
  0 <= step_s x i e n p u ∧ step_s x i e n p u <= s_max.
Proof.
  intros Hmax n u p. unfold step_s.
  pose proof (step_supply_left x i e n0 u0) as Hc. fold n u in Hc.
  subst p. destruct (step_spill_cases s_max x i e n u 0) as [[? ->]|[? ->]]; lra.
Qed.

(** With no water available the code stores the (non-positive) balance itself
    as environmental flow, and a supply equal to 0. *)
Lemma step_dry x i e n0 u0 :
  x + i - e <= 0 →
  step_env x i e n0 = x + i - e ∧
  step_supply x i e (step_env x i e n0) u0 == 0.
Proof.
  intros Ha.
  assert (Hn : step_env x i e n0 = x + i - e).
  { destruct (step_env_cases x i e n0) as [[? ->]|[(? & ? & ->)|(? & ? & ->)]];
      try done; lra. }
  split; [done|]. rewrite Hn.
  destruct (step_supply_cases x i e (x + i - e) u0)
    as [[? ->]|[(? & ? & ->)|(? & ? & ->)]]; lra.
Qed.

(** ** The reservoir simulator on arrays of its own *)

(** In exact arithmetic: for inflow, evaporation and candidate supply arrays
    of one length, the supply array being an object of its own, and
    0 <= s_0 <= s_max, the run of [res_sim] returns and every entry of the
    storage sequence [s[0..T]] lies in [[0, s_max]].  No sign condition on
    the three series is needed for this bound.  It rests on
    [s[t+1] = min(c, s_max)], an identity of exact differences that the
    rounded differences of binary64 do not keep: see the runs of
    [F64.res_sim] below. *)
Lemma res_sim_storage_bounds inflow evap demand s_0 s_max env_min supply
    (σ : store) (I E U : list Q) :
  σ !! inflow = Some I → σ !! evap = Some E → σ !! supply = Some U →
  length E = length I → length U = length I →
  supply ≠ inflow → supply ≠ evap →
  0 <= s_0 → s_0 <= s_max →
  ∃ o σ',
    res_sim inflow evap demand s_0 s_max env_min supply σ = Some (o, σ') ∧
    length (out_s o) = S (length I) ∧
    ∀ t x, out_s o !! t = Some x → 0 <= x ∧ x <= s_max.
Proof.
  intros HI HE HU HlE HlU Hsi Hse H0 Hmax.
  destruct (res_sim_run inflow evap s_0 s_max env_min supply σ I E U)
    with (demand := demand)
    as (o & U' & Hrun & _ & _ & Hls & _ & _ & Hs0 & _ & Hstep);
    try done; try lia.
  exists o, (<[supply := U']> σ). split; [done|]. split; [done|].
  intros [|t] x Hx.
  - rewrite Hs0 in Hx. by simplify_eq.
  - assert (Ht : (t < length I)%nat).
    { apply lookup_lt_Some in Hx. lia. }
    destruct (Hstep t Ht) as (x0 & i & e & u0 & _ & _ & _ & _ & _ & _ & _ & Hnext).
    rewrite Nat.add_1_r, Hx in Hnext. simplify_eq.
    apply step_s_bounds. lra.
Qed.

(** C1 (the code departs from the claim): on binary64 numbers the storage
    leaves [[0, s_max]].  With s_0 = 35.7, inflow 326.5, evaporation 1.1, a
    candidate supply of 18.1, s_max = 150 and env_min = 2 the reservoir
    spills; [spill[0]] is the rounded excess 190.99999999999994, and
    [s[1]], computed again from [s[0]] with another order of the
    subtractions, is 150.00000000000003, above [s_max].  With s_max = 0,
    s_0 = 0, inflow 2.0, evaporation 0.9, env_min = 0.3 and a candidate of
    0.1, [s[1]] is -2.7755575615628914e-17, below 0. *)
Theorem res_sim_float_storage_leaves_bounds :
  (F64.res_sim [326.5] [1.1] [18.1] 35.7 150 2 [18.1]
   = Some (F64.SimOut [35.7; 150.00000000000003] [2] [190.99999999999994]
             [18.1]))%float ∧
  (150 <? 150.00000000000003)%float = true ∧
  (F64.res_sim [2.0] [0.9] [0.1] 0 0 0.3 [0.1]
   = Some (F64.SimOut [0; -2.7755575615628914e-17] [0.3] [0.7000000000000001]
             [0.1]))%float ∧
  (-2.7755575615628914e-17 <? 0)%float = true.
Proof. repeat split; vm_compute; reflexivity. Qed.

(** In a run on arrays of its own, a step with no water available
    ([s[t] + inflow[t] - evap[t] <= 0]) stores that balance as environmental
    flow, negative when the balance is, and 0 as supply. *)
Lemma res_sim_dry_step inflow evap demand s_0 s_max env_min supply
    (σ : store) (I E U : list Q) :
  σ !! inflow = Some I → σ !! evap = Some E → σ !! supply = Some U →
  length E = length I → length U = length I →
  supply ≠ inflow → supply ≠ evap →
  ∃ o U',
    res_sim inflow evap demand s_0 s_max env_min supply σ
    = Some (o, <[supply := U']> σ) ∧
    ∀ t x i e,
      out_s o !! t = Some x → I !! t = Some i → E !! t = Some e →
      x + i - e <= 0 →
      out_env o !! t = Some (x + i - e) ∧
      ∃ u, U' !! t = Some u ∧ u == 0.
Proof.
  intros HI HE HU HlE HlU Hsi Hse.
  destruct (res_sim_run inflow evap s_0 s_max env_min supply σ I E U)
    with (demand := demand)
    as (o & U' & Hrun & _ & _ & _ & _ & _ & _ & _ & Hstep);
    try done; try lia.
  exists o, U'. split; [done|]. intros t x i e Hx Hi He Ha.
  destruct (Hstep t) as (x' & i' & e' & u0 & ? & ? & ? & _ & Hn & Hu & _).
  { by eapply lookup_lt_Some. }
  simplify_eq. destruct (step_dry x i e (0 + env_min) u0 Ha) as [Hn' Hu'].
  split; [by rewrite Hn, Hn'|]. eauto.
Qed.

(** C3: for candidate supply values that are not negative (and a supply
    array of its own, of the length of the other series), the run returns
    and, at every step [t], spill[t] >= 0 and
    0 <= realised supply[t] <= candidate supply[t]. *)
Theorem res_sim_release_bounds inflow evap demand s_0 s_max env_min supply
    (σ : store) (I E U : list Q) :
  σ !! inflow = Some I → σ !! evap = Some E → σ !! supply = Some U →
  length E = length I → length U = length I →
  supply ≠ inflow → supply ≠ evap →
  (∀ t u0, U !! t = Some u0 → 0 <= u0) →
  ∃ o σ' U',
    res_sim inflow evap demand s_0 s_max env_min supply σ = Some (o, σ') ∧
    σ' !! out_supply o = Some U' ∧
    length (out_spill o) = length I ∧ length U' = length I ∧
    ∀ t, (t < length I)%nat →
      ∃ p u u0,
        out_spill o !! t = Some p ∧ U' !! t = Some u ∧ U !! t = Some u0 ∧
        0 <= p ∧ 0 <= u ∧ u <= u0.
Proof.
  intros HI HE HU HlE HlU Hsi Hse Hpos.
  destruct (res_sim_run inflow evap s_0 s_max env_min supply σ I E U)
    with (demand := demand)
    as (o & U' & Hrun & Hout & HlU' & _ & _ & Hlp & _ & _ & Hstep);
    try done; try lia.
  exists o, (<[supply := U']> σ), U'. split; [done|].
  split; [by rewrite Hout, lookup_insert_eq|].
  split; [done|]. split; [lia|].
  intros t Ht.
  destruct (Hstep t Ht) as (x & i & e & u0 & _ & _ & _ & Hu0 & _ & Hu & Hp & _).
  eexists _, _, u0. split; [exact Hp|]. split; [exact Hu|]. split; [done|].
  split; [apply step_spill_nonneg|].
  apply step_supply_bounds. by eapply Hpos.
Qed.

(** ** The store after a run: only the supply array is written *)

Lemma Py_bind_inv {A B} (m : Py A) (k : A → Py B) f y f2 :
  (m ≫= k) f = Some (y, f2) →
  ∃ x f1, m f = Some (x, f1) ∧ k x f1 = Some (y, f2).
Proof.
  unfold mbind, Py_bind. destruct (m f) as [[x f1]|]; [|done]. eauto.
Qed.

Lemma heap_frame_refl l f : heap_frame l f f.
Proof. by intros l' _. Qed.

Lemma heap_frame_trans l f1 f2 f3 :
  heap_frame l f1 f2 → heap_frame l f2 f3 → heap_frame l f1 f3.
Proof. intros H12 H23 l' Hne. rewrite H23, H12; done. Qed.

Lemma heap_frame_same_heap l f f' : heap f' = heap f → heap_frame l f f'.
Proof. intros Heq l' _. by rewrite Heq. Qed.

Lemma writes_only_ret {A} l (x : A) : writes_only l (mret x).
Proof. intros f y f' [= _ <-]. apply heap_frame_refl. Qed.

Lemma writes_only_bind {A B} l (m : Py A) (k : A → Py B) :
  writes_only l m → (∀ x, writes_only l (k x)) → writes_only l (m ≫= k).
Proof.
  intros Hm Hk f y f2 (x & f1 & H1 & H2)%Py_bind_inv.
  eapply heap_frame_trans; [by eapply Hm|by eapply Hk].
Qed.

Lemma writes_only_get_s l t : writes_only l (get_s t).
Proof.
  intros f x f'. unfold get_s. destruct (s_arr f !! t); [|done].
  intros [= _ <-]. apply heap_frame_refl.
Qed.

Lemma writes_only_get_env l t : writes_only l (get_env t).
Proof.
  intros f x f'. unfold get_env. destruct (env_arr f !! t); [|done].
  intros [= _ <-]. apply heap_frame_refl.
Qed.

Lemma writes_only_get_spill l t : writes_only l (get_spill t).
Proof.
  intros f x f'. unfold get_spill. destruct (spill_arr f !! t); [|done].
  intros [= _ <-]. apply heap_frame_refl.
Qed.

Lemma writes_only_get_heap l l0 t : writes_only l (get_heap l0 t).
Proof.
  intros f x f'. unfold get_heap. destruct (heap f !! l0) as [a|]; [|done].
  simpl. destruct (a !! t); [|done]. intros [= _ <-]. apply heap_frame_refl.
Qed.

Lemma writes_only_set_s l t v : writes_only l (set_s t v).
Proof.
  intros f x f'. unfold set_s. case_decide; [|done].
  intros [= _ <-]. by apply heap_frame_same_heap.
Qed.

Lemma writes_only_set_env l t v : writes_only l (set_env t v).
Proof.
  intros f x f'. unfold set_env. case_decide; [|done].
  intros [= _ <-]. by apply heap_frame_same_heap.
Qed.

Lemma writes_only_set_spill l t v : writes_only l (set_spill t v).
Proof.
  intros f x f'. unfold set_spill. case_decide; [|done].
  intros [= _ <-]. by apply heap_frame_same_heap.
Qed.

Lemma writes_only_set_heap l t v : writes_only l (set_heap l t v).
Proof.
  intros f x f'. unfold set_heap. destruct (heap f !! l) as [a|]; [|done].
  simpl. case_decide; [|done]. intros [= _ <-] l' Hne. simpl.
  by rewrite lookup_insert_ne.
Qed.

Lemma writes_only_when l c (m : Py unit) :
  writes_only l m → writes_only l (when c m).
Proof. destruct c; [done|]. intros _. apply writes_only_ret. Qed.

Lemma writes_only_for_each {A} l (body : A → Py unit) xs :
  (∀ x, writes_only l (body x)) → writes_only l (for_each body xs).
Proof.
  intros Hbody. induction xs as [|x xs IH]; simpl.
  - apply writes_only_ret.
  - apply writes_only_bind; [apply Hbody|]. intros _. apply IH.
Qed.

Create HintDb writes discriminated.
#[local] Hint Resolve writes_only_ret writes_only_get_s writes_only_get_env
  writes_only_get_spill writes_only_get_heap writes_only_set_s
  writes_only_set_env writes_only_set_spill writes_only_set_heap : writes.

Ltac writes_only_tac :=
  repeat first
    [ apply writes_only_bind; [|intros ?]
    | apply writes_only_when
    | solve [auto with writes] ].

Lemma writes_only_water l inflow evap t : writes_only l (water inflow evap t).
Proof. unfold water. writes_only_tac. Qed.

Lemma writes_only_water_env l inflow evap t :
  writes_only l (water_env inflow evap t).
Proof.
  unfold water_env. pose proof (writes_only_water l inflow evap t).
  writes_only_tac; done.
Qed.

Lemma writes_only_water_env_supply l inflow evap supply t :
  writes_only l (water_env_supply inflow evap supply t).
Proof.
  unfold water_env_supply. pose proof (writes_only_water_env l inflow evap t).
  writes_only_tac; done.
Qed.

Lemma writes_only_res_sim_body inflow evap s_max supply t :
  writes_only supply (res_sim_body inflow evap s_max supply t).
Proof.
  pose proof (writes_only_water supply inflow evap t).
  pose proof (writes_only_water_env supply inflow evap t).
  pose proof (writes_only_water_env_supply supply inflow evap supply t).
  unfold res_sim_body, env_block, supply_block, spill_block.
  writes_only_tac; done.
Qed.

(** Whatever the arguments, a run that returns hands back the very supply
    object it was given and leaves every other array of the store as it
    was. *)
Lemma res_sim_frame inflow evap demand s_0 s_max env_min supply
    (σ σ' : store) o :
  res_sim inflow evap demand s_0 s_max env_min supply σ = Some (o, σ') →
  out_supply o = supply ∧ ∀ l, l ≠ supply → σ' !! l = σ !! l.
Proof.
  unfold res_sim. destruct (σ !! inflow) as [I|]; [|done]. simpl.
  destruct (for_each _ _ _) as [[[] f]|] eqn:Hloop; [|done].
  simpl. intros [= <- <-]. split; [done|].
  intros l Hne.
  eapply (writes_only_for_each supply) in Hloop; [by apply Hloop|].
  intros t. apply writes_only_res_sim_body.
Qed.

Lemma res_sim_release_bounds_witness :
  ∃ o σ' U',
    res_sim 1 2 3 80 150 2 4 (session week_demand) = Some (o, σ') ∧
    σ' !! out_supply o = Some U' ∧
    length (out_spill o) = 8%nat ∧ length U' = 8%nat ∧
    ∀ t, (t < 8)%nat →
      ∃ p u u0,
        out_spill o !! t = Some p ∧ U' !! t = Some u ∧
        week_demand !! t = Some u0 ∧ 0 <= p ∧ 0 <= u ∧ u <= u0.
Proof.
  apply (res_sim_release_bounds 1 2 3 80 150 2 4 (session week_demand)
           week_inflow week_evap week_demand);
    try solve [vm_compute; reflexivity | discriminate].
  intros t u0 Hu0.
  assert (Hall : Forall (λ u, 0 <= u) week_demand)
    by (repeat constructor; discriminate).
  exact (proj1 (Forall_lookup _ _) Hall t u0 Hu0).
Defined.

(** C2 (the code departs from the claim): in [dry_session] the available
    water of the only step is 0 + 0 - 1 = -1 <= 0; the run stores -1, not 0,
    as the environmental flow of that step.  The realised supply is 0 and
    the storage stays at 0. *)
Theorem res_sim_dry_env_negative :
  ∃ σ',
    res_sim 1 2 3 0 150 2 4 dry_session
    = Some (SimOut [0; 0] [-1] [0] 4%positive, σ') ∧
    σ' !! 4%positive = Some [0].
Proof.
  exists (<[4%positive := [0]]> dry_session).
  split; vm_compute; reflexivity.
Qed.

(** C10: [res_sim] writes the realised supply into the array it is given.
    (1) Whatever the arguments, a run that returns hands back the very object
    passed as [supply], and no other array of the store has changed.
    (2) For a supply array of its own, the run returns, the store differs
    from the initial one at [supply] only, and the array there holds, at
    every step, the clamped value computed by the step.
    (3) The candidate vector cannot always be recovered: the candidates
    [week_demand] and [week_demand] with 30 in the last week leave the same
    array behind, which differs from both. *)
Theorem res_sim_overwrites_supply :
  (∀ inflow evap demand s_0 s_max env_min supply (σ σ' : store) o,
     res_sim inflow evap demand s_0 s_max env_min supply σ = Some (o, σ') →
     out_supply o = supply ∧ ∀ l, l ≠ supply → σ' !! l = σ !! l) ∧
  (∀ inflow evap demand s_0 s_max env_min supply (σ : store) I E U,
     σ !! inflow = Some I → σ !! evap = Some E → σ !! supply = Some U →
     length E = length I → length U = length I →
     supply ≠ inflow → supply ≠ evap →
     ∃ o U',
       res_sim inflow evap demand s_0 s_max env_min supply σ
       = Some (o, <[supply := U']> σ) ∧
       out_supply o = supply ∧ length U' = length U ∧
       ∀ t, (t < length I)%nat →
         step_ok s_max env_min I E U (out_s o) (out_env o) (out_spill o) U' t) ∧
  (∃ c1 c2 o1 o2 (σ1 σ2 : store),
     c1 = week_demand ∧ c2 = <[7%nat := 30]> week_demand ∧ c1 ≠ c2 ∧
     res_sim 1 2 3 80 150 2 4 (session c1) = Some (o1, σ1) ∧
     res_sim 1 2 3 80 150 2 4 (session c2) = Some (o2, σ2) ∧
     out_supply o1 = 4%positive ∧ out_supply o2 = 4%positive ∧
     σ1 !! 4%positive = Some (<[7%nat := 7]> week_demand) ∧
     σ2 !! 4%positive = σ1 !! 4%positive).
Proof.
  split; [|split].
  - intros. by eapply res_sim_frame.
  - intros inflow evap demand s_0 s_max env_min supply σ I E U
      HI HE HU HlE HlU Hsi Hse.
    destruct (res_sim_run inflow evap s_0 s_max env_min supply σ I E U)
      with (demand := demand)
      as (o & U' & Hrun & Hout & HlU' & _ & _ & _ & _ & _ & Hstep);
      try done; try lia.
    by exists o, U'.
  - exists week_demand, (<[7%nat := 30]> week_demand).
    destruct (res_sim 1 2 3 80 150 2 4 (session week_demand))
      as [[o1 σ1]|] eqn:H1; [|by vm_compute in H1].
    destruct (res_sim 1 2 3 80 150 2 4 (session (<[7%nat := 30]> week_demand)))
      as [[o2 σ2]|] eqn:H2; [|by vm_compute in H2].
    exists o1, o2, σ1, σ2.
    vm_compute in H1. vm_compute in H2. simplify_eq.
    repeat split; done.
Qed.

Lemma res_sim_overwrites_supply_witness :
  ∃ o U',
    res_sim 1 2 3 80 150 2 4 (session week_demand)
    = Some (o, <[4%positive := U']> (session week_demand)) ∧
    out_supply o = 4%positive ∧ length U' = 8%nat ∧
    ∀ t, (t < 8)%nat →
      step_ok 150 2 week_inflow week_evap week_demand
        (out_s o) (out_env o) (out_spill o) U' t.
Proof.
  apply (proj1 (proj2 res_sim_overwrites_supply) 1%positive 2%positive
           3%positive 80 150 2 4%positive (session week_demand)
           week_inflow week_evap week_demand);
    solve [vm_compute; reflexivity | discriminate].
Defined.

(** ** The 8-week scenario *)

(** C4, as the code has it: with a candidate array of its own that holds the
    demand values, the storage evolves as 80, 79, 80, 78, 67, 52, 30, 4, 0;
    in the last week only 4 + 8 - 3 - 2 = 7 of the 26 requested can be
    released, so the realised supply ends in 7, one week of eight fails
    (Reliability = 1/8) and the Squared Deficit is (26 - 7)^2 / 8 = 361/8,
    with either [SD_func].  The demand array is untouched. *)
Theorem scenario_trajectory :
  ∃ o σ',
    res_sim 1 2 3 80 150 2 4 (session week_demand) = Some (o, σ') ∧
    out_s o = [80; 79; 80; 78; 67; 52; 30; 4; 0] ∧
    out_s o !! 1%nat = Some 79 ∧ out_s o !! 2%nat = Some 80 ∧
    σ' !! 4%positive = Some [13; 13; 17; 18; 20; 22; 25; 7] ∧
    σ' !! 3%positive = Some week_demand ∧
    Optim.auto_optim 1 2 3 80 150 2 4 (session week_demand)
    = Some ((1 # 8, 361 # 8), σ') ∧
    GA.SD_func [13; 13; 17; 18; 20; 22; 25; 7] week_demand = Some (361 # 8).
Proof.
  exists (SimOut [80; 79; 80; 78; 67; 52; 30; 4; 0]
            [2; 2; 2; 2; 2; 2; 2; 2] [0; 0; 0; 0; 0; 0; 0; 0] 4%positive),
    (session [13; 13; 17; 18; 20; 22; 25; 7]).
  repeat split; vm_compute; reflexivity.
Qed.

(** C4, as stated, fails: in the scenario the Reliability and the Squared
    Deficit that [auto_optim] computes are both different from 0. *)
Lemma scenario_objectives_not_zero :
  ∃ rel sd σ',
    Optim.auto_optim 1 2 3 80 150 2 4 (session week_demand)
    = Some ((rel, sd), σ') ∧
    ¬ rel == 0 ∧ ¬ sd == 0.
Proof.
  exists (1 # 8), (361 # 8), (session [13; 13; 17; 18; 20; 22; 25; 7]).
  split; [vm_compute; reflexivity|].
  split; intros H; vm_compute in H; discriminate H.
Qed.

(** When the demand array itself is passed as the candidate (one object
    under two names), [res_sim] overwrites the demand of the last week with
    7, and both objectives, computed against the overwritten demand, are
    0. *)
Lemma scenario_demand_aliased :
  ∃ σ',
    Optim.auto_optim 1 2 3 80 150 2 3 (session week_demand)
    = Some ((0 # 8, 0 # 8), σ') ∧
    σ' !! 3%positive = Some [13; 13; 17; 18; 20; 22; 25; 7].
Proof.
  exists (<[3%positive := [13; 13; 17; 18; 20; 22; 25; 7]]> (session week_demand)).
  split; vm_compute; reflexivity.
Qed.

(** The separation of the supply array from the inflow array matters: when
    one object serves as both, the write to [supply[t]] changes the inflow
    the mass balance reads, and the storage leaves [[0, s_max]]. *)
Lemma res_sim_supply_aliases_inflow :
  ∃ σ',
    res_sim 1 2 3 0 150 2 1
      (<[3%positive := [5]]> (<[2%positive := [0]]> (<[1%positive := [5]]> ∅)))
    = Some (SimOut [0; -2] [2] [0] 1%positive, σ').
Proof.
  exists (<[3%positive := [5]]> (<[2%positive := [0]]> (<[1%positive := [3]]> ∅))).
  vm_compute. reflexivity.
Qed.

(** ** Sums and means *)

Lemma Qsum_cons v x : Qsum (v :: x) = v + Qsum x.
Proof. reflexivity. Qed.

Lemma Qsum_nonneg x : Forall (λ v, 0 <= v) x → 0 <= Qsum x.
Proof.
  induction 1 as [|v x Hv _ IH]; [done|]. rewrite Qsum_cons. lra.
Qed.

Lemma Qsum_zero_iff x :
  Forall (λ v, 0 <= v) x → Qsum x == 0 ↔ Forall (λ v, v == 0) x.
Proof.
  induction 1 as [|v x Hv Hx IH].
  - split; [constructor|reflexivity].
  - rewrite Qsum_cons. pose proof (Qsum_nonneg x Hx) as Hs. split.
    + intros H. constructor; [lra|]. apply IH. lra.
    + intros H. inversion H as [|? ? H1 H2]; subst.
      apply IH in H2. lra.
Qed.

Lemma inject_length_S {A} (v : A) (x : list A) :
  inject_Z (Z.of_nat (length (v :: x))) == 1 + inject_Z (Z.of_nat (length x)).
Proof.
  simpl length. rewrite Nat2Z.inj_succ, <- Z.add_1_l, inject_Z_plus.
  reflexivity.
Qed.

Lemma inject_length_pos {A} (x : list A) :
  x ≠ [] → 0 < inject_Z (Z.of_nat (length x)).
Proof.
  intros Hne. destruct x as [|v x]; [done|].
  change 0 with (inject_Z 0). rewrite <- Zlt_Qlt. simpl. lia.
Qed.

Lemma Qsum_le_length x :
  Forall (λ v, v <= 1) x → Qsum x <= inject_Z (Z.of_nat (length x)).
Proof.
  induction 1 as [|v x Hv _ IH]; [done|].
  rewrite inject_length_S, Qsum_cons. lra.
Qed.

Lemma np_mean_Some x :
  x ≠ [] → np_mean x = Some (Qsum x / inject_Z (Z.of_nat (length x))).
Proof. by destruct x. Qed.

Lemma Qdiv_zero_iff a n : 0 < n → a / n == 0 ↔ a == 0.
Proof.
  intros Hn. split; intros H.
  - rewrite <- (Qmult_div_r a n) by lra. rewrite H. ring.
  - unfold Qdiv. rewrite H. ring.
Qed.

(** The mean of a non-empty array of non-negative numbers. *)
Lemma np_mean_nonneg x :
  x ≠ [] → Forall (λ v, 0 <= v) x →
  ∃ m, np_mean x = Some m ∧
       m == Qsum x / inject_Z (Z.of_nat (length x)) ∧
       0 <= m ∧
       (m == 0 ↔ Forall (λ v, v == 0) x) ∧
       (Forall (λ v, v <= 1) x → m <= 1).
Proof.
  intros Hne Hpos. pose proof (inject_length_pos x Hne) as Hn.
  eexists. split; [by apply np_mean_Some|]. split; [reflexivity|].
  pose proof (Qsum_nonneg x Hpos) as Hs. split; [|split].
  - apply Qle_shift_div_l; [done|]. lra.
  - rewrite Qdiv_zero_iff by done. by apply Qsum_zero_iff.
  - intros Hle. apply Qle_shift_div_r; [done|].
    pose proof (Qsum_le_length x Hle). lra.
Qed.

(** ** Loops that fill an array entry by entry *)

Lemma for_opt_fill (g : nat → option Q) body n :
  (∀ t x, body t x = (v ← g t; Some (<[t := v]> x))) →
  ∀ k (x0 : list Q),
    length x0 = (k + n)%nat →
    (∀ t, (k ≤ t < k + n)%nat → is_Some (g t)) →
    ∃ x, for_opt body (seq k n) x0 = Some x ∧ length x = length x0 ∧
         (∀ t, (t < k)%nat → x !! t = x0 !! t) ∧
         (∀ t, (k ≤ t < k + n)%nat → x !! t = g t).
Proof.
  intros Hbody. induction n as [|n IH]; intros k x0 Hlen Hg.
  - exists x0. simpl. repeat split; try done. intros; lia.
  - destruct (Hg k) as [v Hv]; [lia|].
    destruct (IH (S k) (<[k := v]> x0)) as (x & Hrun & Hl & Hlow & Hhigh).
    { rewrite length_insert. lia. }
    { intros t Ht. apply Hg. lia. }
    exists x. simpl. rewrite Hbody, Hv. simpl. split; [done|].
    split; [by rewrite Hl, length_insert|]. split.
    + intros t Ht. rewrite Hlow by lia. by rewrite list_lookup_insert_ne by lia.
    + intros t Ht. destruct (decide (t = k)) as [->|Hne].
      * rewrite Hlow by lia. rewrite list_lookup_insert_eq by lia. done.
      * apply Hhigh. lia.
Qed.

(** A loop that fills [x[t]] with [h supply[t] demand[t]] computes the
    elementwise combination of the two arrays. *)
Lemma for_opt_zip (h : Q → Q → Q) body (supply demand : list Q) :
  length supply = length demand →
  (∀ t x, body t x
          = (v ← (u ← supply !! t; d ← demand !! t; Some (h u d));
             Some (<[t := v]> x))) →
  for_opt body (seq 0 (length supply)) (replicate (length supply) 0)
  = Some (zip_with h supply demand).
Proof.
  intros Hlen Hbody.
  destruct (for_opt_fill _ body (length supply) Hbody 0
              (replicate (length supply) 0))
    as (x & Hrun & Hl & _ & Hx).
  { by rewrite length_replicate. }
  { intros t Ht.
    destruct (lookup_lt_is_Some_2 supply t) as [u Hu]; [lia|].
    destruct (lookup_lt_is_Some_2 demand t) as [d Hd]; [lia|].
    rewrite Hu, Hd. by eexists. }
  rewrite Hrun. f_equal. rewrite length_replicate in Hl.
  apply list_eq. intros t. rewrite lookup_zip_with.
  destruct (decide (t < length supply)%nat) as [Ht|Ht].
  - rewrite Hx by lia. by destruct (supply !! t), (demand !! t).
  - rewrite (lookup_ge_None_2 x), (lookup_ge_None_2 supply) by lia. done.
Qed.

(** ** The objective functions of the optimisation notebook *)

Lemma Optim_reliability_zip supply demand :
  length supply = length demand →
  Optim.reliability supply demand
  = np_mean (zip_with (λ u d, if py_ge u d then 0 else 1) supply demand).
Proof.
  intros Hlen. unfold Optim.reliability. cbv zeta.
  rewrite (for_opt_zip (λ u d, if py_ge u d then 0 else 1) _ supply demand Hlen);
    [done|].
  intros t x. destruct (supply !! t) as [u|]; [|done]. simpl.
  destruct (demand !! t) as [d|]; [|done]. simpl. by destruct (py_ge u d).
Qed.

Lemma Optim_SD_func_zip supply demand :
  length supply = length demand →
  Optim.SD_func supply demand
  = np_mean (zip_with (λ u d, (d - u) ^ 2) supply demand).
Proof.
  intros Hlen. unfold Optim.SD_func. cbv zeta. rewrite <- Hlen.
  rewrite (for_opt_zip (λ u d, (d - u) ^ 2) _ supply demand Hlen); [done|].
  intros t x. destruct (demand !! t) as [d|], (supply !! t) as [u|]; done.
Qed.

Lemma zip_with_flags supply demand :
  length supply = length demand →
  let x := zip_with (λ u d : Q, if py_ge u d then 0 else 1) supply demand in
  Forall (λ v, 0 <= v) x ∧ Forall (λ v, v <= 1) x ∧
  (Forall (λ v, v == 0) x ↔
   ∀ t u d, supply !! t = Some u → demand !! t = Some d → d <= u).
Proof.
  revert demand. induction supply as [|u supply IH]; intros [|d demand] Hlen;
    try done; cbv zeta.
  - destruct (IH demand) as (IH1 & IH2 & IH3); [by simplify_eq/=|].
    simpl. split; [|split].
    + constructor; [|done]. destruct (py_ge u d); lra.
    + constructor; [|done]. destruct (py_ge u d); lra.
    + split.
      * intros H. inversion H as [|? ? Hv Hrest]; subst.
        intros [|t] u' d' Hu Hd; simplify_eq/=.
        -- destruct (py_ge u' d') eqn:Hge; [by apply py_ge_true|].
           by vm_compute in Hv.
        -- exact (proj1 IH3 Hrest t u' d' Hu Hd).
      * intros H. constructor.
        -- specialize (H 0%nat u d eq_refl eq_refl).
           apply py_ge_true in H. by rewrite H.
        -- apply IH3. intros t u' d' Hu Hd. by apply (H (S t)).
Qed.

(** C6: for a non-empty pair of series of one length, [reliability] returns
    a value in [[0, 1]], equal to 0 exactly when supply[t] >= demand[t] at
    every step. *)
Theorem reliability_range supply demand :
  supply ≠ [] → length supply = length demand →
  ∃ r, Optim.reliability supply demand = Some r ∧
       0 <= r ∧ r <= 1 ∧
       (r == 0 ↔
        ∀ t u d, supply !! t = Some u → demand !! t = Some d → d <= u).
Proof.
  intros Hne Hlen. rewrite Optim_reliability_zip by done.
  destruct (zip_with_flags supply demand Hlen) as (H0 & H1 & Hiff).
  destruct (np_mean_nonneg
              (zip_with (λ u d : Q, if py_ge u d then 0 else 1) supply demand))
    as (m & Hm & _ & Hpos & Hzero & Hone); [|done|].
  { destruct supply, demand; done. }
  exists m. split; [done|]. split; [done|]. split; [by apply Hone|].
  by rewrite Hzero.
Qed.

Lemma reliability_range_witness :
  ∃ r, Optim.reliability [13; 7] [13; 26] = Some r ∧
       0 <= r ∧ r <= 1 ∧
       (r == 0 ↔
        ∀ t u d, [13; 7] !! t = Some u → [13; 26] !! t = Some d → d <= u).
Proof.
  apply (reliability_range [13; 7] [13; 26]); [discriminate|reflexivity].
Defined.

(** ** The two Squared Deficit functions *)

Lemma Qpow2 (x : Q) : x ^ 2 = x * x.
Proof. reflexivity. Qed.

Lemma Qsquare_nonneg (x : Q) : 0 <= x * x.
Proof.
  destruct (Qlt_le_dec x 0) as [Hx|Hx].
  - assert (Heq : x * x == (- x) * (- x)) by ring.
    rewrite Heq. apply Qmult_le_0_compat; lra.
  - by apply Qmult_le_0_compat.
Qed.

Lemma Qsquare_zero (x : Q) : x * x == 0 ↔ x == 0.
Proof.
  split; intros H.
  - by destruct (Qmult_integral _ _ H).
  - rewrite H. ring.
Qed.

Lemma Qsum_Forall2 x y : Forall2 Qeq x y → Qsum x == Qsum y.
Proof.
  induction 1 as [|v w x y Hvw _ IH]; [reflexivity|].
  rewrite !Qsum_cons. by rewrite Hvw, IH.
Qed.

(** One term of [GA.SD_func]: the squared shortfall, as the specification
    words it. *)
Lemma GA_SD_term u d :
  0 <= np_maximum (d - u) 0 ^ 2 ∧
  np_maximum (d - u) 0 ^ 2 == Qmax (d - u) 0 ^ 2 ∧
  (np_maximum (d - u) 0 ^ 2 == 0 ↔ d <= u).
Proof.
  rewrite !Qpow2. unfold np_maximum. destruct (py_ge (d - u) 0) eqn:H.
  - apply py_ge_true in H. split; [apply Qsquare_nonneg|]. split.
    + by rewrite Q.max_l.
    + rewrite Qsquare_zero. split; intros; lra.
  - apply py_ge_false in H. split; [lra|]. split.
    + rewrite Q.max_r by lra. reflexivity.
    + split; intros; lra.
Qed.

(** One term of [Optim.SD_func]: the squared difference, surplus
    included. *)
Lemma Optim_SD_term u d :
  0 <= Optim.np_max (d - u) 0 ^ 2 ∧ (Optim.np_max (d - u) 0 ^ 2 == 0 ↔ u == d).
Proof.
  unfold Optim.np_max. rewrite Qpow2. split; [apply Qsquare_nonneg|].
  rewrite Qsquare_zero. split; intros; lra.
Qed.

Lemma GA_SD_terms supply demand :
  length supply = length demand →
  let sd := (λ x, np_maximum x 0 ^ 2) <$> zip_with Qminus demand supply in
  Forall (λ v, 0 <= v) sd ∧
  Forall2 Qeq sd (zip_with (λ u d, Qmax (d - u) 0 ^ 2) supply demand) ∧
  (Forall (λ v, v == 0) sd ↔
   ∀ t u d, supply !! t = Some u → demand !! t = Some d → d <= u).
Proof.
  revert demand. induction supply as [|u supply IH]; intros [|d demand] Hlen;
    try done; cbv zeta.
  destruct (IH demand) as (IH1 & IH2 & IH3); [by simplify_eq/=|].
  destruct (GA_SD_term u d) as (E1 & E2 & E3).
  cbn [zip_with fmap list_fmap]. split; [|split].
  - by constructor.
  - by constructor.
  - split.
    + intros H. inversion H as [|? ? Hv Hrest]; subst.
      intros [|t] u' d' Hu Hd; simplify_eq/=.
      * by apply E3.
      * exact (proj1 IH3 Hrest t u' d' Hu Hd).
    + intros H. constructor.
      * apply E3. by apply (H 0%nat).
      * apply IH3. intros t u' d' Hu Hd. by apply (H (S t)).
Qed.

Lemma Optim_SD_terms supply demand :
  length supply = length demand →
  let sd := zip_with (λ u d, Optim.np_max (d - u) 0 ^ 2) supply demand in
  Forall (λ v, 0 <= v) sd ∧
  (Forall (λ v, v == 0) sd ↔
   ∀ t u d, supply !! t = Some u → demand !! t = Some d → u == d).
Proof.
  revert demand. induction supply as [|u supply IH]; intros [|d demand] Hlen;
    try done; cbv zeta.
  destruct (IH demand) as (IH1 & IH3); [by simplify_eq/=|].
  destruct (Optim_SD_term u d) as (E1 & E3).
  cbn [zip_with]. split.
  - by constructor.
  - split.
    + intros H. inversion H as [|? ? Hv Hrest]; subst.
      intros [|t] u' d' Hu Hd; simplify_eq/=.
      * by apply E3.
      * exact (proj1 IH3 Hrest t u' d' Hu Hd).
    + intros H. constructor.
      * apply E3. by apply (H 0%nat).
      * apply IH3. intros t u' d' Hu Hd. by apply (H (S t)).
Qed.

(** The [SD_func] of the exploratory notebook computes the Squared Deficit
    of the specification: it is not negative, and 0 exactly when the supply
    covers the demand at every step.  (In exact arithmetic: in binary64 the
    square of a tiny deficit underflows to 0.) *)
Lemma GA_SD_func_spec supply demand :
  supply ≠ [] → length supply = length demand →
  ∃ r, GA.SD_func supply demand = Some r ∧
       r == squared_deficit_spec supply demand ∧
       0 <= r ∧
       (r == 0 ↔
        ∀ t u d, supply !! t = Some u → demand !! t = Some d → d <= u).
Proof.
  intros Hne Hlen. destruct (GA_SD_terms supply demand Hlen) as (H0 & H2 & Hiff).
  unfold GA.SD_func, np_binop. rewrite decide_True by done. simpl.
  destruct (np_mean_nonneg
              ((λ x, np_maximum x 0 ^ 2) <$> zip_with Qminus demand supply))
    as (m & Hm & Hval & Hpos & Hzero & _); [|done|].
  { destruct supply, demand; done. }
  exists m. split; [done|]. split; [|split; [done|by rewrite Hzero]].
  rewrite Hval. unfold squared_deficit_spec.
  rewrite (Qsum_Forall2 _ _ H2).
  by rewrite length_fmap, length_zip_with, <- Hlen, Nat.min_id.
Qed.

(** The [SD_func] of the optimisation notebook computes the mean squared
    difference instead: it is 0 only when supply and demand coincide.  (In
    exact arithmetic: in binary64 the square of a tiny difference underflows
    to 0.) *)
Lemma Optim_SD_func_squared_difference supply demand :
  supply ≠ [] → length supply = length demand →
  ∃ r, Optim.SD_func supply demand = Some r ∧
       0 <= r ∧
       (r == 0 ↔
        ∀ t u d, supply !! t = Some u → demand !! t = Some d → u == d).
Proof.
  intros Hne Hlen. rewrite Optim_SD_func_zip by done.
  destruct (Optim_SD_terms supply demand Hlen) as (H0 & Hiff).
  destruct (np_mean_nonneg
              (zip_with (λ u d, Optim.np_max (d - u) 0 ^ 2) supply demand))
    as (m & Hm & _ & Hpos & Hzero & _); [|done|].
  { destruct supply, demand; done. }
  exists m. split; [done|]. split; [done|]. by rewrite Hzero.
Qed.

(** C5 (the code departs from the claim): for a supply of 5 against a demand
    of 3 there is no shortfall and the Squared Deficit of the specification
    is 0, which is what the [SD_func] of the exploratory notebook returns;
    the [SD_func] of the optimisation notebook returns (3 - 5)^2 = 4. *)
Theorem Optim_SD_func_counts_surplus :
  Optim.SD_func [5] [3] = Some 4 ∧
  squared_deficit_spec [5] [3] == 0 ∧
  GA.SD_func [5] [3] = Some 0.
Proof.
  split; [vm_compute; reflexivity|]. split; vm_compute; reflexivity.
Qed.

(** ** Pareto dominance *)

Lemma dominates_strict_self o :
  existsb (λ p : Q * Q, py_lt p.1 p.2) (zip o o) = false.
Proof.
  induction o as [|x o IH]; [done|]. simpl. rewrite IH, orb_false_r.
  apply py_lt_false. lra.
Qed.

Lemma dominates_weak_swap a b :
  forallb (λ p : Q * Q, py_le p.1 p.2) (zip a b) = true →
  existsb (λ p : Q * Q, py_lt p.1 p.2) (zip b a) = false.
Proof.
  revert b. induction a as [|x a IH]; intros [|y b]; try done. simpl.
  intros [Hxy Hrest]%andb_true_iff. rewrite (IH b Hrest), orb_false_r.
  apply py_le_true in Hxy. by apply py_lt_false.
Qed.

(** C8: [dominates] is irreflexive and asymmetric. *)
Theorem dominates_irreflexive_asymmetric :
  (∀ o, GA.dominates o o = false) ∧
  (∀ a b, GA.dominates a b = true → GA.dominates b a = false).
Proof.
  split.
  - intros o. unfold GA.dominates.
    by rewrite dominates_strict_self, andb_false_r.
  - intros a b [Hle _]%andb_true_iff. unfold GA.dominates.
    by rewrite (dominates_weak_swap a b Hle), andb_false_r.
Qed.

Lemma dominates_irreflexive_asymmetric_witness :
  GA.dominates [2; 3] [1; 3] = false.
Proof.
  apply (proj2 dominates_irreflexive_asymmetric [1; 3] [2; 3]). reflexivity.
Defined.

(** A dominating vector of the same length has a smaller sum. *)
Lemma dominates_Qsum_le a b :
  length a = length b →
  forallb (λ p : Q * Q, py_le p.1 p.2) (zip a b) = true →
  Qsum a <= Qsum b ∧
  (existsb (λ p : Q * Q, py_lt p.1 p.2) (zip a b) = true → Qsum a < Qsum b).
Proof.
  revert b. induction a as [|x a IH]; intros [|y b] Hlen; try done.
  rewrite !Qsum_cons. cbn [zip zip_with forallb existsb fst snd].
  intros [Hxy Hrest]%andb_true_iff. apply py_le_true in Hxy.
  destruct (IH b) as [Hle Hlt]; [by simplify_eq/=|done|].
  split; [lra|].
  intros [Hs|Hs]%orb_true_iff.
  - apply py_lt_true in Hs. lra.
  - specialize (Hlt Hs). lra.
Qed.

Lemma dominates_Qsum a b :
  length a = length b → GA.dominates a b = true → Qsum a < Qsum b.
Proof.
  intros Hlen [Hle Hlt]%andb_true_iff.
  by apply (dominates_Qsum_le a b Hlen Hle).
Qed.

(** A non-empty list of vectors has one of least sum. *)
Lemma exists_min_Qsum (l : list (list Q)) :
  l ≠ [] →
  ∃ k r, l !! k = Some r ∧ ∀ i r', l !! i = Some r' → Qsum r <= Qsum r'.
Proof.
  induction l as [|r l IH]; [done|]. intros _.
  destruct l as [|r1 l].
  - exists 0%nat, r. split; [done|]. intros [|i] r' Hi; simplify_eq/=. lra.
  - destruct IH as (k & r0 & Hk & Hmin); [done|].
    destruct (Qlt_le_dec (Qsum r) (Qsum r0)) as [Hlt|Hle].
    + exists 0%nat, r. split; [done|]. intros [|i] r' Hi.
      * simplify_eq/=. lra.
      * specialize (Hmin i r' Hi). lra.
    + exists (S k), r0. split; [done|]. intros [|i] r' Hi.
      * simplify_eq/=. lra.
      * by apply (Hmin i r').
Qed.

(** Some vector of a non-empty population is dominated by none. *)
Lemma exists_non_dominated (objectives : list (list Q)) m :
  objectives ≠ [] → Forall (λ r, length r = m) objectives →
  ∃ k ok, objectives !! k = Some ok ∧
          ∀ i oi, objectives !! i = Some oi → GA.dominates oi ok = false.
Proof.
  intros Hne Hm. destruct (exists_min_Qsum objectives Hne) as (k & ok & Hk & Hmin).
  exists k, ok. split; [done|]. intros i oi Hi.
  destruct (GA.dominates oi ok) eqn:Hdom; [|done].
  apply dominates_Qsum in Hdom.
  - specialize (Hmin i oi Hi). lra.
  - rewrite Forall_lookup in Hm. by rewrite (Hm i oi Hi), (Hm k ok Hk).
Qed.

(** ** The domination counts of [parents_selection] *)

Lemma for_opt_inv {A S} (P : S → Prop) (body : A → S → option S) xs st :
  (∀ x st, x ∈ xs → P st → ∃ st', body x st = Some st' ∧ P st') →
  P st → ∃ st', for_opt body xs st = Some st' ∧ P st'.
Proof.
  revert st. induction xs as [|x xs IH]; intros st Hbody HP.
  - by exists st.
  - destruct (Hbody x st) as (st1 & Hrun & HP1); [left|done|].
    destruct (IH st1) as (st2 & Hrun2 & HP2); [|done|].
    { intros y st' Hy. apply Hbody. by right. }
    exists st2. simpl. rewrite Hrun. done.
Qed.

Lemma domination_pair_inv objectives i j st :
  (i < length objectives)%nat → (j < length objectives)%nat →
  count_inv objectives st →
  ∃ st', GA.domination_pair objectives i j st = Some st' ∧
         count_inv objectives st'.
Proof.
  intros Hi Hj [Hlen Hzero]. destruct st as [dc ds].
  destruct (lookup_lt_is_Some_2 objectives i Hi) as [oi Hoi].
  destruct (lookup_lt_is_Some_2 objectives j Hj) as [oj Hoj].
  unfold GA.domination_pair. rewrite Hoi, Hoj. simpl.
  destruct (GA.dominates oi oj) eqn:Hij; [|destruct (GA.dominates oj oi) eqn:Hji].
  - eexists. split; [done|]. split; simpl; [by rewrite length_alter|].
    intros k ok Hk Hfree. destruct (decide (k = j)) as [->|Hne].
    + simplify_eq. by rewrite (Hfree i oi Hoi) in Hij.
    + rewrite list_lookup_alter_ne by done. by apply (Hzero k ok).
  - eexists. split; [done|]. split; simpl; [by rewrite length_alter|].
    intros k ok Hk Hfree. destruct (decide (k = i)) as [->|Hne].
    + simplify_eq. by rewrite (Hfree j oj Hoj) in Hji.
    + rewrite list_lookup_alter_ne by done. by apply (Hzero k ok).
  - by eexists.
Qed.

Lemma domination_inv objectives :
  ∃ st, GA.domination objectives = Some st ∧ count_inv objectives st.
Proof.
  unfold GA.domination. cbv zeta. apply for_opt_inv.
  - intros i st Hi%elem_of_seq Hst. apply for_opt_inv; [|done].
    intros j st' Hj%elem_of_seq Hst'. apply domination_pair_inv; [lia..|done].
  - split; simpl; [by rewrite length_replicate|].
    intros k ok Hk%lookup_lt_Some _. by rewrite lookup_replicate_2.
Qed.

Lemma np_where_elem v (a : list nat) i :
  i ∈ GA.np_where v a ↔ a !! i = Some v.
Proof.
  unfold GA.np_where. rewrite list_elem_of_filter, elem_of_seq. split.
  - by intros [? _].
  - intros Hi. split; [done|]. apply lookup_lt_Some in Hi. lia.
Qed.

(** C7: for a non-empty population with its objective vectors (the rows of
    one 2-D array, so of one length [m]), some candidate [k] is dominated by
    none, the loops of [parents_selection] return counts in which its
    domination count is 0, so the first index [i] with count 0 exists and
    [population[i]] is in range: the lookup of [parent_1] succeeds. *)
Theorem parent_1_lookup_in_range (objectives population : list (list Q)) m :
  objectives ≠ [] →
  Forall (λ r, length r = m) objectives →
  length population = length objectives →
  ∃ domination_count dominated_solutions k ok i parent_1,
    GA.domination objectives = Some (domination_count, dominated_solutions) ∧
    length domination_count = length objectives ∧
    objectives !! k = Some ok ∧
    (∀ j oj, objectives !! j = Some oj → GA.dominates oj ok = false) ∧
    domination_count !! k = Some 0%nat ∧
    GA.np_where 0 domination_count !! 0%nat = Some i ∧
    domination_count !! i = Some 0%nat ∧
    population !! i = Some parent_1 ∧
    GA.pick 0 domination_count population = Some parent_1.
Proof.
  intros Hne Hm Hpop.
  destruct (domination_inv objectives) as ([dc ds] & Hrun & Hlen & Hzero).
  destruct (exists_non_dominated objectives m Hne Hm) as (k & ok & Hk & Hfree).
  pose proof (Hzero k ok Hk Hfree) as Hdk. simpl in Hdk, Hlen.
  pose proof (proj2 (np_where_elem 0 dc k) Hdk) as Hin.
  destruct (GA.np_where 0 dc) as [|i rest] eqn:Hwhere.
  { by apply not_elem_of_nil in Hin. }
  assert (Hi : dc !! i = Some 0%nat).
  { apply np_where_elem. rewrite Hwhere. by left. }
  destruct (lookup_lt_is_Some_2 population i) as [parent_1 Hp1].
  { apply lookup_lt_Some in Hi. lia. }
  exists dc, ds, k, ok, i, parent_1. repeat split; try done.
  - by rewrite Hwhere.
  - unfold GA.pick. by rewrite Hwhere.
Qed.

Lemma parent_1_lookup_in_range_witness :
  ∃ domination_count dominated_solutions k ok i parent_1,
    GA.domination [[1; 2]; [2; 1]; [2; 2]; [3; 3]]
    = Some (domination_count, dominated_solutions) ∧
    length domination_count = 4%nat ∧
    [[1; 2]; [2; 1]; [2; 2]; [3; 3]] !! k = Some ok ∧
    (∀ j oj, [[1; 2]; [2; 1]; [2; 2]; [3; 3]] !! j = Some oj →
             GA.dominates oj ok = false) ∧
    domination_count !! k = Some 0%nat ∧
    GA.np_where 0 domination_count !! 0%nat = Some i ∧
    domination_count !! i = Some 0%nat ∧
    draw4 !! i = Some parent_1 ∧
    GA.pick 0 domination_count draw4 = Some parent_1.
Proof.
  apply (parent_1_lookup_in_range [[1; 2]; [2; 1]; [2; 2]; [3; 3]] draw4 2).
  - discriminate.
  - repeat constructor.
  - reflexivity.
Defined.

(** ** One generation of the draft optimiser *)

Lemma pick_elem v domination_count population parent :
  GA.pick v domination_count population = Some parent → parent ∈ population.
Proof.
  unfold GA.pick. destruct (GA.np_where v domination_count !! 0%nat) as [i|];
    [|done]. simpl. apply list_elem_of_lookup_2.
Qed.

Lemma parents_selection_elem objectives population parent_1 parent_2 :
  GA.parents_selection objectives population = Some (parent_1, parent_2) →
  parent_1 ∈ population ∧ parent_2 ∈ population.
Proof.
  unfold GA.parents_selection.
  destruct (GA.domination objectives) as [[dc ds]|]; [|done]. simpl.
  destruct (GA.pick 0 dc population) as [p1|] eqn:H1; [|done]. simpl.
  destruct (GA.pick 1 dc population) as [p2|] eqn:H2; [|done]. simpl.
  intros [= <- <-]. split; by eapply pick_elem.
Qed.

(** Every gene of a splice is the gene of one of the two parents at the
    same position. *)
Lemma splice_gene k (a b : list Q) t g :
  length a = length b →
  (take k a ++ drop k b) !! t = Some g → a !! t = Some g ∨ b !! t = Some g.
Proof.
  intros Hlen [Ha|[Hge Hb]]%lookup_app_Some.
  - left. by apply lookup_take_Some in Ha as [Ha _].
  - right. rewrite lookup_drop in Hb. rewrite length_take in Hge, Hb.
    pose proof (lookup_lt_Some _ _ _ Hb) as Hlt.
    by replace (k + (t - k `min` length a))%nat with t in Hb by lia.
Qed.

Lemma crossover_rows parent_1 parent_2 population :
  GA.crossover parent_1 parent_2 = Some population →
  length population = 8%nat ∧
  population !! 0%nat = Some parent_1 ∧
  population !! 1%nat = Some parent_2 ∧
  ∀ row t g,
    row ∈ population → row !! t = Some g →
    parent_1 !! t = Some g ∨ parent_2 !! t = Some g.
Proof.
  unfold GA.crossover. case_decide as Hlen; [|done]. intros [= <-].
  cbn [GA.crossover_ratios foldl app]. repeat split.
  intros row t g Hrow Hg.
  repeat match goal with
         | H : _ ∈ _ :: _ |- _ => apply elem_of_cons in H as [->|H]
         | H : _ ∈ [] |- _ => by apply not_elem_of_nil in H
         end;
    first [by left | by right
          | by eapply splice_gene
          | apply or_comm; by eapply splice_gene ].
Qed.

(** The later draft [gen_opt] takes no crossover or mutation probability,
    it applies its [crossover] in every generation.  Run for one
    generation on four candidates, it does not return the initial
    population: when it returns, the population is
    [crossover(parent_1, parent_2)], eight rows; the first two are rows of
    the initial population, unchanged (the selected parents), and every gene
    of every row is the gene of one of these two at the same position. *)
Lemma gen_opt_one_generation inflow evap demand s_0 s_max s_min env_min
    (population0 population objectives : list (list Q)) (σ σ' : store) :
  length population0 = 4%nat →
  GA.gen_opt inflow evap demand s_0 s_max s_min env_min 4 1 population0 σ
  = Some (population, objectives, σ') →
  population ≠ population0 ∧
  ∃ parent_1 parent_2,
    parent_1 ∈ population0 ∧ parent_2 ∈ population0 ∧
    GA.crossover parent_1 parent_2 = Some population ∧
    length population = 8%nat ∧
    population !! 0%nat = Some parent_1 ∧
    population !! 1%nat = Some parent_2 ∧
    ∀ row t g,
      row ∈ population → row !! t = Some g →
      parent_1 !! t = Some g ∨ parent_2 !! t = Some g.
Proof.
  intros Hlen0. unfold GA.gen_opt. cbn [seq for_opt].
  unfold GA.gen_opt_body at 1.
  destruct (GA.fit_func _ _ _ _ _ _ _ _ _ _) as [[objs σ1]|]; [|done].
  cbn [mbind option_bind].
  destruct (GA.parents_selection objs population0) as [[p1 p2]|] eqn:Hsel;
    [|done].
  cbn [mbind option_bind].
  destruct (GA.crossover p1 p2) as [pop|] eqn:Hcross; [|done].
  cbn [mbind option_bind]. intros [= <- <- <-].
  destruct (parents_selection_elem _ _ _ _ Hsel) as [Hp1 Hp2].
  destruct (crossover_rows _ _ _ Hcross) as (Hlen & H0 & H1 & Hgenes).
  split.
  - intros ->. lia.
  - by exists p1, p2.
Qed.

Lemma gen_opt_one_generation_witness :
  ∃ population objectives σ',
    GA.gen_opt 1 2 3 80 150 30 2 4 1 draw4 notebook_store
    = Some (population, objectives, σ') ∧
    population ≠ draw4 ∧
    ∃ parent_1 parent_2,
      parent_1 ∈ draw4 ∧ parent_2 ∈ draw4 ∧
      GA.crossover parent_1 parent_2 = Some population ∧
      length population = 8%nat ∧
      population !! 0%nat = Some parent_1 ∧
      population !! 1%nat = Some parent_2 ∧
      ∀ row t g,
        row ∈ population → row !! t = Some g →
        parent_1 !! t = Some g ∨ parent_2 !! t = Some g.
Proof.
  destruct (GA.gen_opt 1 2 3 80 150 30 2 4 1 draw4 notebook_store)
    as [[[population objectives] σ']|] eqn:Hrun.
  - exists population, objectives, σ'. split; [reflexivity|].
    exact (gen_opt_one_generation 1 2 3 80 150 30 2 draw4 population
             objectives notebook_store σ' eq_refl Hrun).
  - vm_compute in Hrun. discriminate Hrun.
Defined.

(** On the draw [draw4], with the arrays of the notebook and a population
    size of 4, one generation of [gen_opt] returns eight rows,
    the first of which is the first initial candidate and the second the
    second one, followed by splices: not the initial population. *)
Lemma gen_opt_changes_population :
  ∃ population objectives σ',
    GA.gen_opt 1 2 3 80 150 30 2 4 1 draw4 notebook_store
    = Some (population, objectives, σ') ∧
    length draw4 = 4%nat ∧ length population = 8%nat ∧
    population ≠ draw4.
Proof.
  destruct (GA.gen_opt 1 2 3 80 150 30 2 4 1 draw4 notebook_store)
    as [[[population objectives] σ']|] eqn:Hrun;
    vm_compute in Hrun; [|discriminate Hrun].
  exists population, objectives, σ'. simplify_eq.
  repeat split. discriminate.
Qed.

(** A second generation of the same run raises: after the first
    [crossover], no candidate has a domination count of exactly 1 and the
    lookup of [parent_2] fails. *)
Lemma gen_opt_second_generation_raises :
  GA.gen_opt 1 2 3 80 150 30 2 4 2 draw4 notebook_store = None.
Proof. vm_compute. reflexivity. Qed.

(** * Further properties of the simulator *)

(** ** A second run changes nothing *)

Lemma py_ge_refl x : py_ge x x = true.
Proof. apply py_ge_true. lra. Qed.

Lemma step_supply_idem x i e n u0 :
  step_supply x i e n (step_supply x i e n u0) = step_supply x i e n u0.
Proof.
  unfold step_supply. cbv zeta.
  destruct (py_le (x + i - e - n) 0) eqn:H1; [done|].
  destruct (py_ge u0 (x + i - e - n)) eqn:H2.
  - by rewrite py_ge_refl.
  - by rewrite H2.
Qed.

(** The arrays of a run whose candidates are the realised supply of a first
    run are the arrays of the first run. *)
Lemma step_ok_again s_0 s_max env_min (I E U S1 EN1 SP1 U1 S2 EN2 SP2 U2 : list Q) :
  S1 !! 0%nat = Some s_0 → S2 !! 0%nat = Some s_0 →
  (∀ t, (t < length I)%nat → step_ok s_max env_min I E U S1 EN1 SP1 U1 t) →
  (∀ t, (t < length I)%nat → step_ok s_max env_min I E U1 S2 EN2 SP2 U2 t) →
  ∀ t, (t < length I)%nat →
    S2 !! t = S1 !! t ∧ S2 !! S t = S1 !! S t ∧ EN2 !! t = EN1 !! t ∧
    SP2 !! t = SP1 !! t ∧ U2 !! t = U1 !! t.
Proof.
  intros H10 H20 Hstep1 Hstep2 t.
  assert (Hs : (t < length I)%nat → S2 !! t = S1 !! t ∧ S2 !! S t = S1 !! S t).
  { induction t as [|t IH]; intros Ht.
    - destruct (Hstep1 0%nat Ht)
        as (x1 & i1 & e1 & u1 & ? & ? & ? & ? & ? & ? & ? & Hn1).
      destruct (Hstep2 0%nat Ht)
        as (x2 & i2 & e2 & u2 & ? & ? & ? & ? & ? & ? & ? & Hn2).
      rewrite Nat.add_1_r in Hn1, Hn2. simplify_eq.
      rewrite !step_supply_idem in Hn2. split; congruence.
    - destruct IH as [_ IH]; [lia|].
      destruct (Hstep1 (S t) Ht)
        as (x1 & i1 & e1 & u1 & Hx1 & ? & ? & ? & ? & ? & ? & Hn1).
      destruct (Hstep2 (S t) Ht)
        as (x2 & i2 & e2 & u2 & Hx2 & ? & ? & ? & ? & ? & ? & Hn2).
      rewrite IH, Hx1 in Hx2. rewrite Nat.add_1_r in Hn1, Hn2. simplify_eq.
      rewrite !step_supply_idem in Hn2. split; congruence. }
  intros Ht. destruct (Hs Ht) as [Hst HsS]. split; [done|]. split; [done|].
  destruct (Hstep1 t Ht)
    as (x1 & i1 & e1 & u1 & Hx1 & ? & ? & ? & Hen1 & Hu1 & Hp1 & _).
  destruct (Hstep2 t Ht)
    as (x2 & i2 & e2 & u2 & Hx2 & ? & ? & ? & Hen2 & Hu2 & Hp2 & _).
  rewrite Hst, Hx1 in Hx2. simplify_eq.
  rewrite !step_supply_idem in Hu2, Hp2. repeat split; congruence.
Qed.

Lemma res_sim_replay inflow evap demand s_0 s_max env_min supply
    (σ : store) (I E U : list Q) :
  σ !! inflow = Some I → σ !! evap = Some E → σ !! supply = Some U →
  length E = length I → length U = length I →
  supply ≠ inflow → supply ≠ evap →
  ∃ o σ',
    res_sim inflow evap demand s_0 s_max env_min supply σ = Some (o, σ') ∧
    res_sim inflow evap demand s_0 s_max env_min supply σ' = Some (o, σ').
Proof.
  intros HI HE HU HlE HlU Hsi Hse.
  destruct (res_sim_run inflow evap s_0 s_max env_min supply σ I E U)
    with (demand := demand)
    as (o & U1 & Hrun & Hout & HlU1 & Hls & Hle & Hlp & Hs0 & _ & Hstep);
    try done; try lia.
  destruct (res_sim_run inflow evap s_0 s_max env_min supply
              (<[supply := U1]> σ) I E U1)
    with (demand := demand)
    as (o2 & U2 & Hrun2 & Hout2 & HlU2 & Hls2 & Hle2 & Hlp2 & Hs02 & _ & Hstep2);
    try done; try lia.
  { by rewrite lookup_insert_ne. }
  { by rewrite lookup_insert_ne. }
  { apply lookup_insert_eq. }
  exists o, (<[supply := U1]> σ). split; [done|]. rewrite Hrun2.
  pose proof (step_ok_again s_0 s_max env_min I E U _ _ _ _ _ _ _ _
                Hs0 Hs02 Hstep Hstep2) as Hsame.
  assert (HU2 : U2 = U1).
  { apply list_eq. intros t. destruct (decide (t < length I)%nat) as [Ht|Ht].
    - by destruct (Hsame t Ht) as (_ & _ & _ & _ & ->).
    - by rewrite !lookup_ge_None_2 by lia. }
  assert (Ho : o2 = o).
  { destruct o as [S1 EN1 SP1 l1], o2 as [S2 EN2 SP2 l2]. simpl in *.
    subst l1 l2. f_equal.
    - apply list_eq. intros [|t].
      + congruence.
      + destruct (decide (t < length I)%nat) as [Ht|Ht].
        * by destruct (Hsame t Ht) as (_ & -> & _).
        * by rewrite !lookup_ge_None_2 by lia.
    - apply list_eq. intros t. destruct (decide (t < length I)%nat) as [Ht|Ht].
      + by destruct (Hsame t Ht) as (_ & _ & -> & _).
      + by rewrite !lookup_ge_None_2 by lia.
    - apply list_eq. intros t. destruct (decide (t < length I)%nat) as [Ht|Ht].
      + by destruct (Hsame t Ht) as (_ & _ & _ & -> & _).
      + by rewrite !lookup_ge_None_2 by lia. }
  by rewrite HU2, Ho, insert_insert_eq.
Qed.

(** X2: [res_sim] is idempotent on the store.  Called again with the same
    arguments on the store a first call left behind (the supply array now
    holds the realised supply), it returns the same storage, environmental
    flow and spillage and leaves the store as it is. *)
Theorem res_sim_idempotent inflow evap demand s_0 s_max env_min supply
    (σ : store) (I E U : list Q) :
  σ !! inflow = Some I → σ !! evap = Some E → σ !! supply = Some U →
  length E = length I → length U = length I →
  supply ≠ inflow → supply ≠ evap →
  ∃ o σ',
    res_sim inflow evap demand s_0 s_max env_min supply σ = Some (o, σ') ∧
    res_sim inflow evap demand s_0 s_max env_min supply σ' = Some (o, σ').
Proof. apply res_sim_replay. Qed.

Lemma res_sim_idempotent_witness :
  ∃ o σ',
    res_sim 1 2 3 80 150 2 4 (session week_demand) = Some (o, σ') ∧
    res_sim 1 2 3 80 150 2 4 σ' = Some (o, σ').
Proof.
  apply (res_sim_idempotent 1 2 3 80 150 2 4 (session week_demand)
           week_inflow week_evap week_demand);
    solve [vm_compute; reflexivity | discriminate].
Defined.

(** ** The releases as minima and maxima *)

Lemma step_clamp s_max env_min x i e u0 :
  0 <= x + i - e → 0 <= env_min → 0 <= u0 →
  let n := step_env x i e (0 + env_min) in
  let u := step_supply x i e n u0 in
  let p := step_spill s_max x i e n u 0 in
  n == Qmin env_min (x + i - e) ∧
  u == Qmin u0 (x + i - e - n) ∧
  p == Qmax (x + i - e - n - u - s_max) 0.
Proof.
  intros Ha Hmin Hu0 n u p. subst p.
  destruct (Q.min_spec env_min (x + i - e)) as [[? ->]|[? ->]];
    destruct (Q.min_spec u0 (x + i - e - n)) as [[? ->]|[? ->]];
    destruct (Q.max_spec (x + i - e - n - u - s_max) 0) as [[? ->]|[? ->]];
    destruct (step_spill_cases s_max x i e n u 0) as [[? ->]|[? ->]];
    subst u;
    destruct (step_supply_cases x i e n u0) as [[? Hu]|[(? & ? & Hu)|(? & ? & Hu)]];
    rewrite Hu in *; subst n;
    destruct (step_env_cases x i e (0 + env_min))
      as [[? Hn]|[(? & ? & Hn)|(? & ? & Hn)]];
    rewrite Hn in *; repeat split; lra.
Qed.

Lemma step_env_sign env_min x i e :
  0 <= env_min →
  step_env x i e (0 + env_min) <= env_min ∧
  (step_env x i e (0 + env_min) < 0 ↔ x + i - e < 0).
Proof.
  intros Hmin.
  destruct (step_env_cases x i e (0 + env_min))
    as [[? ->]|[(? & ? & ->)|(? & ? & ->)]]; split; try split; intros; lra.
Qed.



(** X4: for env_min >= 0 the environmental flow never exceeds env_min, and
    it is negative exactly at the steps whose available water
    [s[t] + inflow[t] - evap[t]] is negative. *)
Theorem res_sim_env_sign inflow evap demand s_0 s_max env_min supply
    (σ : store) (I E U : list Q) :
  σ !! inflow = Some I → σ !! evap = Some E → σ !! supply = Some U →
  length E = length I → length U = length I →
  supply ≠ inflow → supply ≠ evap →
  0 <= env_min →
  ∃ o σ',
    res_sim inflow evap demand s_0 s_max env_min supply σ = Some (o, σ') ∧
    ∀ t x i e n,
      out_s o !! t = Some x → I !! t = Some i → E !! t = Some e →
      out_env o !! t = Some n →
      n <= env_min ∧ (n < 0 ↔ x + i - e < 0).
Proof.
  intros HI HE HU HlE HlU Hsi Hse Hmin.
  destruct (res_sim_run inflow evap s_0 s_max env_min supply σ I E U)
    with (demand := demand)
    as (o & U' & Hrun & _ & _ & _ & _ & _ & _ & _ & Hstep);
    try done; try lia.
  exists o, (<[supply := U']> σ). split; [done|].
  intros t x i e n Hx Hi He Hn.
  destruct (Hstep t) as (x' & i' & e' & u0' & ? & ? & ? & ? & Hn' & _).
  { by eapply lookup_lt_Some. }
  simplify_eq. by apply step_env_sign.
Qed.

Lemma res_sim_env_sign_witness :
  ∃ o σ',
    res_sim 1 2 3 0 150 2 4 dry_session = Some (o, σ') ∧
    ∀ t x i e n,
      out_s o !! t = Some x → [0] !! t = Some i → [1] !! t = Some e →
      out_env o !! t = Some n →
      n <= 2 ∧ (n < 0 ↔ x + i - e < 0).
Proof.
  apply (res_sim_env_sign 1 2 3 0 150 2 4 dry_session [0] [1] [5]);
    solve [vm_compute; reflexivity | discriminate].
Defined.

(** ** Arrays shorter than [inflow] *)

Lemma same_lengths_refl f : same_lengths f f.
Proof. intros l a Ha. by exists a. Qed.

Lemma same_lengths_trans f1 f2 f3 :
  same_lengths f1 f2 → same_lengths f2 f3 → same_lengths f1 f3.
Proof.
  intros H12 H23 l a Ha. destruct (H12 l a Ha) as (a2 & Ha2 & Hl2).
  destruct (H23 l a2 Ha2) as (a3 & Ha3 & Hl3). exists a3. split; [done|]. lia.
Qed.

Lemma same_lengths_same_heap f f' : heap f' = heap f → same_lengths f f'.
Proof. intros Heq l a Ha. exists a. by rewrite Heq. Qed.

Lemma keeps_lengths_ret {A} (x : A) : keeps_lengths (mret x).
Proof. intros f y f' [= _ <-]. apply same_lengths_refl. Qed.

Lemma keeps_lengths_bind {A B} (m : Py A) (k : A → Py B) :
  keeps_lengths m → (∀ x, keeps_lengths (k x)) → keeps_lengths (m ≫= k).
Proof.
  intros Hm Hk f y f2 (x & f1 & H1 & H2)%Py_bind_inv.
  eapply same_lengths_trans; [by eapply Hm|by eapply Hk].
Qed.

Lemma keeps_lengths_get_s t : keeps_lengths (get_s t).
Proof.
  intros f x f'. unfold get_s. destruct (s_arr f !! t); [|done].
  intros [= _ <-]. apply same_lengths_refl.
Qed.

Lemma keeps_lengths_get_env t : keeps_lengths (get_env t).
Proof.
  intros f x f'. unfold get_env. destruct (env_arr f !! t); [|done].
  intros [= _ <-]. apply same_lengths_refl.
Qed.

Lemma keeps_lengths_get_spill t : keeps_lengths (get_spill t).
Proof.
  intros f x f'. unfold get_spill. destruct (spill_arr f !! t); [|done].
  intros [= _ <-]. apply same_lengths_refl.
Qed.

Lemma keeps_lengths_get_heap l t : keeps_lengths (get_heap l t).
Proof.
  intros f x f'. unfold get_heap. destruct (heap f !! l) as [a|]; [|done].
  simpl. destruct (a !! t); [|done]. intros [= _ <-]. apply same_lengths_refl.
Qed.

Lemma keeps_lengths_set_s t v : keeps_lengths (set_s t v).
Proof.
  intros f x f'. unfold set_s. case_decide; [|done].
  intros [= _ <-]. by apply same_lengths_same_heap.
Qed.

Lemma keeps_lengths_set_env t v : keeps_lengths (set_env t v).
Proof.
  intros f x f'. unfold set_env. case_decide; [|done].
  intros [= _ <-]. by apply same_lengths_same_heap.
Qed.

Lemma keeps_lengths_set_spill t v : keeps_lengths (set_spill t v).
Proof.
  intros f x f'. unfold set_spill. case_decide; [|done].
  intros [= _ <-]. by apply same_lengths_same_heap.
Qed.

Lemma keeps_lengths_set_heap l t v : keeps_lengths (set_heap l t v).
Proof.
  intros f x f'. unfold set_heap. destruct (heap f !! l) as [a|] eqn:Hl; [|done].
  simpl. case_decide; [|done]. intros [= _ <-] l' a' Ha'. simpl.
  destruct (decide (l' = l)) as [->|Hne].
  - simplify_eq. eexists. rewrite lookup_insert_eq. split; [done|].
    by rewrite length_insert.
  - exists a'. by rewrite lookup_insert_ne.
Qed.

Lemma keeps_lengths_when c (m : Py unit) :
  keeps_lengths m → keeps_lengths (when c m).
Proof. destruct c; [done|]. intros _. apply keeps_lengths_ret. Qed.

Create HintDb lengths discriminated.
#[local] Hint Resolve keeps_lengths_ret keeps_lengths_get_s
  keeps_lengths_get_env keeps_lengths_get_spill keeps_lengths_get_heap
  keeps_lengths_set_s keeps_lengths_set_env keeps_lengths_set_spill
  keeps_lengths_set_heap : lengths.

Ltac keeps_lengths_tac :=
  repeat first
    [ apply keeps_lengths_bind; [|intros ?]
    | apply keeps_lengths_when
    | solve [auto with lengths] ].

Lemma keeps_lengths_water inflow evap t : keeps_lengths (water inflow evap t).
Proof. unfold water. keeps_lengths_tac. Qed.

Lemma keeps_lengths_water_env inflow evap t :
  keeps_lengths (water_env inflow evap t).
Proof.
  unfold water_env. pose proof (keeps_lengths_water inflow evap t).
  keeps_lengths_tac; done.
Qed.

Lemma keeps_lengths_water_env_supply inflow evap supply t :
  keeps_lengths (water_env_supply inflow evap supply t).
Proof.
  unfold water_env_supply. pose proof (keeps_lengths_water_env inflow evap t).
  keeps_lengths_tac; done.
Qed.

Lemma keeps_lengths_env_block inflow evap t :
  keeps_lengths (env_block inflow evap t).
Proof.
  pose proof (keeps_lengths_water inflow evap t).
  unfold env_block. keeps_lengths_tac; done.
Qed.

Lemma keeps_lengths_res_sim_body inflow evap s_max supply t :
  keeps_lengths (res_sim_body inflow evap s_max supply t).
Proof.
  pose proof (keeps_lengths_water inflow evap t).
  pose proof (keeps_lengths_water_env inflow evap t).
  pose proof (keeps_lengths_water_env_supply inflow evap supply t).
  unfold res_sim_body, env_block, supply_block, spill_block.
  keeps_lengths_tac; done.
Qed.

(** A loop raises as soon as one iteration raises from every state that an
    invariant of the body allows. *)
Lemma for_each_raises {A} (P : frame → Prop) (body : A → Py unit) t xs f :
  (∀ x f y f', body x f = Some (y, f') → P f → P f') →
  (∀ f, P f → body t f = None) →
  t ∈ xs → P f → for_each body xs f = None.
Proof.
  intros Hkeep Hfail. revert f. induction xs as [|x xs IH]; intros f Hin HP.
  - by apply not_elem_of_nil in Hin.
  - simpl. unfold mbind, Py_bind.
    destruct (body x f) as [[y f1]|] eqn:Hx; [|done].
    apply elem_of_cons in Hin as [->|Hin].
    + by rewrite Hfail in Hx.
    + apply IH; [done|]. by eapply Hkeep.
Qed.

Lemma get_heap_out_of_range l t f a :
  heap f !! l = Some a → (length a ≤ t)%nat → get_heap l t f = None.
Proof.
  intros Ha Hlen. unfold get_heap. rewrite Ha. simpl.
  by rewrite lookup_ge_None_2.
Qed.

Lemma set_heap_out_of_range l t v f a :
  heap f !! l = Some a → (length a ≤ t)%nat → set_heap l t v f = None.
Proof.
  intros Ha Hlen. unfold set_heap. rewrite Ha. simpl.
  rewrite decide_False; [done|lia].
Qed.

Lemma Py_bind_None_l {A B} (m : Py A) (k : A → Py B) f :
  m f = None → (m ≫= k) f = None.
Proof. intros H. unfold mbind, Py_bind. by rewrite H. Qed.

Lemma Py_bind_None {A B} (m : Py A) (k : A → Py B) f :
  (∀ x f', m f = Some (x, f') → k x f' = None) → (m ≫= k) f = None.
Proof.
  intros H. unfold mbind, Py_bind. destruct (m f) as [[x f']|] eqn:Hm; [|done].
  by apply H.
Qed.

Lemma water_short_evap inflow evap t f a :
  heap f !! evap = Some a → (length a ≤ t)%nat →
  water inflow evap t f = None.
Proof.
  intros Ha Hlen. unfold water.
  apply Py_bind_None. intros x f1 H1.
  apply Py_bind_None. intros i f2 H2.
  apply Py_bind_None_l.
  destruct (keeps_lengths_get_s t _ _ _ H1 evap a Ha) as (a1 & Ha1 & Hl1).
  destruct (keeps_lengths_get_heap inflow t _ _ _ H2 evap a1 Ha1)
    as (a2 & Ha2 & Hl2).
  eapply get_heap_out_of_range; [done|lia].
Qed.

Lemma res_sim_body_short_evap inflow evap s_max supply t f a :
  heap f !! evap = Some a → (length a ≤ t)%nat →
  res_sim_body inflow evap s_max supply t f = None.
Proof.
  intros Ha Hlen. unfold res_sim_body, env_block.
  do 2 apply Py_bind_None_l. by eapply water_short_evap.
Qed.

Lemma supply_block_short inflow evap supply t f a :
  heap f !! supply = Some a → (length a ≤ t)%nat →
  supply_block inflow evap supply t f = None.
Proof.
  intros Ha Hlen. unfold supply_block.
  apply Py_bind_None. intros b f1 H1.
  destruct (keeps_lengths_water_env inflow evap t _ _ _ H1 supply a Ha)
    as (a1 & Ha1 & Hl1).
  destruct (py_le b 0); unfold when; cbv iota.
  - apply Py_bind_None_l. eapply set_heap_out_of_range; [done|lia].
  - apply Py_bind_None. intros [] f2 [= <-].
    apply Py_bind_None_l. eapply get_heap_out_of_range; [done|lia].
Qed.

Lemma res_sim_body_short_supply inflow evap s_max supply t f a :
  heap f !! supply = Some a → (length a ≤ t)%nat →
  res_sim_body inflow evap s_max supply t f = None.
Proof.
  intros Ha Hlen. unfold res_sim_body.
  apply Py_bind_None. intros [] f1 H1.
  destruct (keeps_lengths_env_block inflow evap t _ _ _ H1 supply a Ha)
    as (a1 & Ha1 & Hl1).
  apply Py_bind_None_l. eapply supply_block_short; [done|lia].
Qed.

(** X5: an evaporation or supply array shorter than [inflow] makes
    [res_sim] raise (IndexError), whatever the values and whether or not
    arrays are shared. *)
Theorem res_sim_short_array_raises inflow evap demand s_0 s_max env_min supply
    (σ : store) (I A : list Q) (l : loc) :
  σ !! inflow = Some I →
  l = evap ∨ l = supply →
  σ !! l = Some A → (length A < length I)%nat →
  res_sim inflow evap demand s_0 s_max env_min supply σ = None.
Proof.
  intros HI Hl HA Hlen. unfold res_sim. rewrite HI. simpl.
  rewrite (for_each_raises
             (λ f, ∃ a, heap f !! l = Some a ∧ length a = length A)
             _ (length A)); [done|..].
  - intros t f y f' Hrun (a & Ha & Hla).
    destruct (keeps_lengths_res_sim_body _ _ _ _ _ _ _ _ Hrun l a Ha)
      as (a' & Ha' & Hla').
    exists a'. split; [done|]. lia.
  - intros f (a & Ha & Hla). destruct Hl as [->| ->].
    + eapply res_sim_body_short_evap; [done|lia].
    + eapply res_sim_body_short_supply; [done|lia].
  - apply elem_of_seq. lia.
  - by exists A.
Qed.

Lemma res_sim_short_array_raises_witness :
  res_sim 1 2 3 80 150 2 4 (session [13; 13; 17]) = None.
Proof.
  apply (res_sim_short_array_raises 1 2 3 80 150 2 4 (session [13; 13; 17])
           week_inflow [13; 13; 17] 4%positive).
  - vm_compute. reflexivity.
  - right. reflexivity.
  - vm_compute. reflexivity.
  - vm_compute. lia.
Defined.

(** X6: the loop runs over [len(inflow)] steps only.  Longer evaporation and
    supply arrays are accepted; the outputs have T + 1, T and T entries, the
    entries of the supply array from index T on are left as they were, and
    no other array of the store changes. *)
Theorem res_sim_longer_arrays inflow evap demand s_0 s_max env_min supply
    (σ : store) (I E U : list Q) :
  σ !! inflow = Some I → σ !! evap = Some E → σ !! supply = Some U →
  (length I ≤ length E)%nat → (length I ≤ length U)%nat →
  supply ≠ inflow → supply ≠ evap →
  ∃ o σ' U',
    res_sim inflow evap demand s_0 s_max env_min supply σ = Some (o, σ') ∧
    length (out_s o) = S (length I) ∧
    length (out_env o) = length I ∧ length (out_spill o) = length I ∧
    out_s o !! 0%nat = Some s_0 ∧
    σ' !! supply = Some U' ∧ length U' = length U ∧
    drop (length I) U' = drop (length I) U ∧
    ∀ l, l ≠ supply → σ' !! l = σ !! l.
Proof.
  intros HI HE HU HlE HlU Hsi Hse.
  destruct (res_sim_run inflow evap s_0 s_max env_min supply σ I E U)
    with (demand := demand)
    as (o & U' & Hrun & _ & HlU' & Hls & Hle & Hlp & Hs0 & Hrest & _);
    try done.
  exists o, (<[supply := U']> σ), U'. repeat split; try done.
  - apply lookup_insert_eq.
  - apply list_eq. intros j. rewrite !lookup_drop. apply Hrest. lia.
  - intros l Hne. by rewrite lookup_insert_ne.
Qed.

Lemma res_sim_longer_arrays_witness :
  ∃ o σ' U',
    res_sim 1 2 3 80 150 2 4 (session (week_demand ++ [99])) = Some (o, σ') ∧
    length (out_s o) = 9%nat ∧
    length (out_env o) = 8%nat ∧ length (out_spill o) = 8%nat ∧
    out_s o !! 0%nat = Some 80 ∧
    σ' !! 4%positive = Some U' ∧ length U' = 9%nat ∧
    drop 8 U' = [99] ∧
    ∀ l, l ≠ 4%positive → σ' !! l = session (week_demand ++ [99]) !! l.
Proof.
  apply (res_sim_longer_arrays 1 2 3 80 150 2 4 (session (week_demand ++ [99]))
           week_inflow week_evap (week_demand ++ [99]));
    solve [vm_compute; reflexivity | discriminate | vm_compute; lia].
Defined.

(** * Further properties of the objective functions *)

Lemma for_opt_raises {A S} (body : A → S → option S) x xs st :
  x ∈ xs → (∀ st, body x st = None) → for_opt body xs st = None.
Proof.
  intros Hin Hfail. revert st. induction xs as [|y xs IH]; intros st.
  - by apply not_elem_of_nil in Hin.
  - simpl. apply elem_of_cons in Hin as [->|Hin].
    + by rewrite Hfail.
    + destruct (body y st) as [st1|]; [|done]. simpl. by apply IH.
Qed.

Lemma for_opt_ext {A S} (body1 body2 : A → S → option S) xs st :
  (∀ x st, x ∈ xs → body1 x st = body2 x st) →
  for_opt body1 xs st = for_opt body2 xs st.
Proof.
  revert st. induction xs as [|x xs IH]; intros st Hext; [done|].
  simpl. rewrite Hext by left. destruct (body2 x st) as [st1|]; [|done].
  simpl. apply IH. intros y st' Hy. apply Hext. by right.
Qed.

(** ** Lengths of the arguments of [reliability] and [SD_func] *)

(** X7: [reliability] runs over [range(len(supply))]: it raises
    (IndexError) when [demand] is shorter than [supply], and ignores the
    entries of a longer [demand]. *)
Theorem reliability_lengths supply demand :
  ((length demand < length supply)%nat →
   Optim.reliability supply demand = None) ∧
  Optim.reliability supply demand
  = Optim.reliability supply (take (length supply) demand).
Proof.
  split.
  - intros Hlen. unfold Optim.reliability. cbv zeta.
    rewrite (for_opt_raises _ (length demand)); [done| |].
    + apply elem_of_seq. lia.
    + intros x. rewrite (lookup_ge_None_2 demand) by lia.
      by destruct (supply !! length demand).
  - unfold Optim.reliability. cbv zeta. f_equal.
    apply for_opt_ext. intros t x Ht%elem_of_seq.
    by rewrite lookup_take_lt by lia.
Qed.

Lemma reliability_lengths_witness :
  Optim.reliability [13; 7] [13] = None.
Proof.
  apply (proj1 (reliability_lengths [13; 7] [13])). vm_compute. lia.
Defined.

(** X8: [SD_func] of the optimisation notebook runs over
    [range(len(demand))] instead: it raises when [supply] is shorter than
    [demand], and ignores the entries of a longer [supply]. *)
Theorem Optim_SD_func_lengths supply demand :
  ((length supply < length demand)%nat →
   Optim.SD_func supply demand = None) ∧
  Optim.SD_func supply demand
  = Optim.SD_func (take (length demand) supply) demand.
Proof.
  split.
  - intros Hlen. unfold Optim.SD_func. cbv zeta.
    rewrite (for_opt_raises _ (length supply)); [done| |].
    + apply elem_of_seq. lia.
    + intros x. rewrite (lookup_ge_None_2 supply) by lia.
      by destruct (demand !! length supply).
  - unfold Optim.SD_func. cbv zeta. f_equal.
    apply for_opt_ext. intros t x Ht%elem_of_seq.
    by rewrite lookup_take_lt by lia.
Qed.

Lemma Optim_SD_func_lengths_witness :
  Optim.SD_func [13] [13; 26] = None.
Proof.
  apply (proj1 (Optim_SD_func_lengths [13] [13; 26])). vm_compute. lia.
Defined.

(** ** Minimum Storage Violation *)

Lemma MSV_term s_min x :
  0 <= Qabs (np_maximum (s_min - x) 0) ∧
  (s_min <= x → Qabs (np_maximum (s_min - x) 0) == 0).
Proof.
  unfold np_maximum. destruct (py_ge (s_min - x) 0) eqn:H.
  - apply py_ge_true in H. rewrite Qabs_pos by done.
    split; intros; lra.
  - apply py_ge_false in H. rewrite Qabs_pos by lra.
    split; intros; lra.
Qed.

Lemma MSV_terms s_min (s : list Q) :
  let msv := (λ x, Qabs (np_maximum (s_min - x) 0)) <$> s in
  Forall (λ v, 0 <= v) msv ∧
  ((∀ t x, s !! t = Some x → s_min <= x) → Forall (λ v, v == 0) msv).
Proof.
  cbv zeta. induction s as [|x s (IH1 & IH2)].
  - split; [constructor|]. intros _. constructor.
  - destruct (MSV_term s_min x) as (E1 & E2).
    cbn [fmap list_fmap]. split; [by constructor|].
    intros H. constructor; [apply E2; by apply (H 0%nat)|].
    apply IH2. intros t x' Hx'. by apply (H (S t)).
Qed.

Lemma MSV_mean_range (s : list Q) s_min :
  s ≠ [] →
  ∃ m, np_mean ((λ x, Qabs (np_maximum (s_min - x) 0)) <$> s) = Some m ∧
       0 <= m ∧
       ((∀ t x, s !! t = Some x → s_min <= x) → m == 0).
Proof.
  intros Hne. destruct (MSV_terms s_min s) as (H0 & Hz).
  destruct (np_mean_nonneg ((λ x, Qabs (np_maximum (s_min - x) 0)) <$> s))
    as (m & Hm & _ & Hpos & Hzero & _); [by destruct s|done|].
  exists m. split; [done|]. split; [done|].
  intros Hge. apply Hzero. by apply Hz.
Qed.

(** X9: the Minimum Storage Violation of a non-empty storage sequence is
    never negative, and it is 0 whenever no entry is below [s_min]. *)
Theorem MSV_func_range (s : list Q) s_min :
  s ≠ [] →
  ∃ m, GA.MSV_func s s_min = Some m ∧
       0 <= m ∧
       ((∀ t x, s !! t = Some x → s_min <= x) → m == 0).
Proof. intros Hne. by apply MSV_mean_range. Qed.

Lemma MSV_func_range_witness :
  ∃ m, GA.MSV_func [80; 40; 30] 30 = Some m ∧
       0 <= m ∧
       ((∀ t x, [80; 40; 30] !! t = Some x → 30 <= x) → m == 0).
Proof. apply (MSV_func_range [80; 40; 30] 30). discriminate. Defined.

Lemma Exercise_MSV_func_fmap (s : list Q) s_min :
  Exercise.MSV_func s s_min
  = np_mean ((λ x, Qabs (np_maximum (s_min - x) 0)) <$> s).
Proof.
  unfold Exercise.MSV_func. cbv zeta.
  destruct (for_opt_fill
              (λ t, x ← s !! t; Some (Qabs (np_maximum (s_min - x) 0)))
              (λ t msv, x ← s !! t; m ← np_amax [s_min - x; 0];
                        Some (<[t := Qabs m]> msv))
              (length s)) with (k := 0%nat) (x0 := replicate (length s) 0)
    as (msv & Hrun & Hl & _ & Hx).
  - intros t x. by destruct (s !! t).
  - by rewrite length_replicate.
  - intros t Ht. destruct (lookup_lt_is_Some_2 s t) as [x Hx']; [lia|].
    rewrite Hx'. by eexists.
  - rewrite Hrun. simpl. f_equal. rewrite length_replicate in Hl.
    apply list_eq. intros t. rewrite list_lookup_fmap.
    destruct (decide (t < length s)%nat) as [Ht|Ht].
    + rewrite Hx by lia. by destruct (s !! t).
    + by rewrite (lookup_ge_None_2 msv), (lookup_ge_None_2 s) by lia.
Qed.

(** X10: the two notebooks compute the same Minimum Storage Violation: the
    loop with [np.abs(np.max([s_min - s[t], 0]))] of the optimisation
    notebook and the vectorised [np.abs(np.maximum(s_min - s, 0))] of the
    exploratory one agree on every input (both give nan on an empty
    sequence). *)
Theorem MSV_func_versions_agree (s : list Q) s_min :
  Exercise.MSV_func s s_min = GA.MSV_func s s_min.
Proof. apply Exercise_MSV_func_fmap. Qed.



(** ** The objective function handed to the optimiser *)

Lemma reliability_Some_range supply demand :
  supply ≠ [] → length supply = length demand →
  ∃ r, Optim.reliability supply demand = Some r ∧ 0 <= r ∧ r <= 1.
Proof.
  intros Hne Hlen. rewrite Optim_reliability_zip by done.
  destruct (zip_with_flags supply demand Hlen) as (H0 & H1 & _).
  destruct (np_mean_nonneg
              (zip_with (λ u d : Q, if py_ge u d then 0 else 1) supply demand))
    as (m & Hm & _ & Hpos & _ & Hone); [|done|].
  { destruct supply, demand; done. }
  exists m. split; [done|]. split; [done|]. by apply Hone.
Qed.

Lemma Optim_SD_func_Some_nonneg supply demand :
  supply ≠ [] → length supply = length demand →
  ∃ r, Optim.SD_func supply demand = Some r ∧ 0 <= r.
Proof.
  intros Hne Hlen. rewrite Optim_SD_func_zip by done.
  destruct (Optim_SD_terms supply demand Hlen) as (H0 & _).
  destruct (np_mean_nonneg
              (zip_with (λ u d, Optim.np_max (d - u) 0 ^ 2) supply demand))
    as (m & Hm & _ & Hpos & _); [|done|].
  { destruct supply, demand; done. }
  by exists m.
Qed.





(** * Further properties of the draft genetic algorithm *)

(** ** Dominance is a strict partial order *)

Lemma dominates_weak_trans a b c :
  length a = length b → length b = length c →
  forallb (λ p : Q * Q, py_le p.1 p.2) (zip a b) = true →
  forallb (λ p : Q * Q, py_le p.1 p.2) (zip b c) = true →
  forallb (λ p : Q * Q, py_le p.1 p.2) (zip a c) = true ∧
  (existsb (λ p : Q * Q, py_lt p.1 p.2) (zip a b) = true ∨
   existsb (λ p : Q * Q, py_lt p.1 p.2) (zip b c) = true →
   existsb (λ p : Q * Q, py_lt p.1 p.2) (zip a c) = true).
Proof.
  revert b c. induction a as [|x a IH]; intros [|y b] [|z c] Hab Hbc;
    try done.
  - intros _ _. split; [done|]. by intros [|].
  - cbn [zip zip_with forallb existsb fst snd].
    intros [Hxy Hr1]%andb_true_iff [Hyz Hr2]%andb_true_iff.
    apply py_le_true in Hxy. apply py_le_true in Hyz.
    destruct (IH b c) as [Hle Hlt]; [by simplify_eq/=..|done|done|].
    split.
    + apply andb_true_iff. split; [|done]. apply py_le_true. lra.
    + intros [[H|H]%orb_true_iff|[H|H]%orb_true_iff]; apply orb_true_iff;
        try (apply py_lt_true in H; left; apply py_lt_true; lra);
        right; apply Hlt; auto.
Qed.

(** X15: on objective vectors of one length [dominates] is transitive; with
    irreflexivity, it is a strict partial order on the rows of an objectives
    array. *)
Theorem dominates_transitive a b c :
  length a = length b → length b = length c →
  GA.dominates a b = true → GA.dominates b c = true →
  GA.dominates a c = true.
Proof.
  intros Hab Hbc [Hle1 Hlt1]%andb_true_iff [Hle2 Hlt2]%andb_true_iff.
  destruct (dominates_weak_trans a b c Hab Hbc Hle1 Hle2) as [Hle Hlt].
  unfold GA.dominates. rewrite Hle, Hlt; auto.
Qed.

Lemma dominates_transitive_witness :
  GA.dominates [1; 1] [3; 2] = true.
Proof.
  apply (dominates_transitive [1; 1] [2; 1] [3; 2]); reflexivity.
Defined.

(** ** The domination counts are the numbers of dominating candidates *)

Lemma for_opt_app {A S} (body : A → S → option S) xs ys st :
  for_opt body (xs ++ ys) st = st' ← for_opt body xs st; for_opt body ys st'.
Proof.
  revert st. induction xs as [|x xs IH]; intros st; [done|].
  simpl. destruct (body x st) as [st1|]; [|done]. simpl. apply IH.
Qed.

Lemma for_opt_fmap {A B S} (g : A → B) (body : B → S → option S) xs st :
  for_opt body (g <$> xs) st = for_opt (λ x, body (g x)) xs st.
Proof.
  revert st. induction xs as [|x xs IH]; intros st; [done|].
  simpl. destruct (body (g x) st) as [st1|]; [|done]. simpl. apply IH.
Qed.

Lemma for_opt_nested {A B S} (body : A → B → S → option S) (g : A → list B)
    xs st :
  for_opt (λ i st, for_opt (body i) (g i) st) xs st
  = for_opt (λ p st, body p.1 p.2 st) (i ← xs; (λ j, (i, j)) <$> g i) st.
Proof.
  revert st. induction xs as [|i xs IH]; intros st; [done|].
  cbn [for_opt mbind list_bind]. rewrite for_opt_app, for_opt_fmap. simpl.
  destruct (for_opt (body i) (g i) st) as [st1|]; [|done]. simpl. apply IH.
Qed.

Lemma domination_flat objectives :
  GA.domination objectives
  = for_opt (λ p st, GA.domination_pair objectives p.1 p.2 st)
      (visited_pairs (length objectives))
      (replicate (length objectives) 0%nat, replicate (length objectives) []).
Proof. unfold GA.domination, visited_pairs. cbv zeta. apply for_opt_nested. Qed.

Lemma visited_pairs_elem n i j :
  (i, j) ∈ visited_pairs n → (i < j < n)%nat.
Proof.
  unfold visited_pairs. intros (i' & Hin & Hi')%list_elem_of_bind.
  apply list_elem_of_fmap in Hin as (j' & [= -> ->] & Hj'%elem_of_seq).
  apply elem_of_seq in Hi'. lia.
Qed.

Lemma count_true_app {A} (f : A → bool) l1 l2 :
  count_true f (l1 ++ l2) = (count_true f l1 + count_true f l2)%nat.
Proof. induction l1 as [|x l1 IH]; simpl; [done|]. rewrite IH. lia. Qed.

Lemma count_true_ext {A} (f g : A → bool) l :
  (∀ x, x ∈ l → f x = g x) → count_true f l = count_true g l.
Proof.
  induction l as [|x l IH]; intros Hext; [done|]. simpl.
  rewrite (Hext x) by left. rewrite IH; [done|].
  intros y Hy. apply Hext. by right.
Qed.

Lemma count_true_fmap {A B} (g : A → B) (f : B → bool) l :
  count_true f (g <$> l) = count_true (λ x, f (g x)) l.
Proof.
  induction l as [|x l IH]; [done|].
  rewrite fmap_cons. cbn [count_true]. by rewrite IH.
Qed.

Lemma count_true_false {A} (f : A → bool) l :
  (∀ x, x ∈ l → f x = false) → count_true f l = 0%nat.
Proof.
  induction l as [|x l IH]; intros Hf; [done|]. simpl.
  rewrite (Hf x) by left. rewrite IH; [done|].
  intros y Hy. apply Hf. by right.
Qed.

(** How many indices of [seq a len] are equal to [k]. *)
Lemma count_true_index (b : bool) k a len :
  count_true (λ i, bool_decide (i = k) && b) (seq a len)
  = if decide (a ≤ k < a + len)%nat then (if b then 1 else 0)%nat else 0%nat.
Proof.
  revert a. induction len as [|len IH]; intros a.
  - simpl. case_decide; [lia|done].
  - cbn [seq count_true]. rewrite IH.
    destruct (decide (a = k)) as [->|Hne].
    + rewrite bool_decide_eq_true_2 by done. simpl.
      rewrite decide_False by lia. rewrite decide_True by lia.
      destruct b; lia.
    + rewrite bool_decide_eq_false_2 by done. simpl.
      repeat case_decide; try lia; done.
Qed.

(** One step of the inner loop adds to each count what [counts_for] says. *)
Lemma domination_pair_count objectives i j dc ds :
  (i < length objectives)%nat → (j < length objectives)%nat →
  ∃ dc' ds',
    GA.domination_pair objectives i j (dc, ds) = Some (dc', ds') ∧
    length dc' = length dc ∧
    ∀ k c, dc !! k = Some c →
      dc' !! k
      = Some (c + if counts_for objectives k (i, j) then 1 else 0)%nat.
Proof.
  intros Hi Hj.
  destruct (lookup_lt_is_Some_2 objectives i Hi) as [oi Hoi].
  destruct (lookup_lt_is_Some_2 objectives j Hj) as [oj Hoj].
  unfold GA.domination_pair, counts_for. simpl. rewrite Hoi, Hoj. simpl.
  destruct (GA.dominates oi oj); [|destruct (GA.dominates oj oi)].
  - eexists _, _. split; [done|]. split; [apply length_alter|].
    intros k c Hk. case_bool_decide as Hjk.
    + subst k. rewrite list_lookup_alter_eq, Hk. simpl. f_equal. lia.
    + rewrite list_lookup_alter_ne, Hk by done. f_equal. lia.
  - eexists _, _. split; [done|]. split; [apply length_alter|].
    intros k c Hk. case_bool_decide as Hik.
    + subst k. rewrite list_lookup_alter_eq, Hk. simpl. f_equal. lia.
    + rewrite list_lookup_alter_ne, Hk by done. f_equal. lia.
  - eexists _, _. split; [done|]. split; [done|].
    intros k c Hk. rewrite Hk. f_equal. lia.
Qed.

Lemma domination_pairs_count objectives L dc ds :
  (∀ p, p ∈ L → (p.1 < length objectives)%nat ∧ (p.2 < length objectives)%nat) →
  ∃ dc' ds',
    for_opt (λ p st, GA.domination_pair objectives p.1 p.2 st) L (dc, ds)
    = Some (dc', ds') ∧
    length dc' = length dc ∧
    ∀ k c, dc !! k = Some c →
      dc' !! k = Some (c + count_true (counts_for objectives k) L)%nat.
Proof.
  revert dc ds. induction L as [|[i j] L IH]; intros dc ds Hin.
  - exists dc, ds. split; [done|]. split; [done|].
    intros k c Hk. rewrite Hk. simpl. f_equal. lia.
  - destruct (Hin (i, j)) as [Hi Hj]; [left|]. simpl in Hi, Hj.
    destruct (domination_pair_count objectives i j dc ds Hi Hj)
      as (dc1 & ds1 & Hrun1 & Hl1 & Hc1).
    destruct (IH dc1 ds1) as (dc2 & ds2 & Hrun2 & Hl2 & Hc2).
    { intros p Hp. apply Hin. by right. }
    exists dc2, ds2. cbn [for_opt fst snd]. rewrite Hrun1. simpl.
    split; [done|]. split; [lia|].
    intros k c Hk. rewrite (Hc2 k _ (Hc1 k c Hk)). cbn [count_true].
    f_equal. lia.
Qed.

Lemma dominates_irrefl o : GA.dominates o o = false.
Proof.
  unfold GA.dominates. by rewrite dominates_strict_self, andb_false_r.
Qed.

Lemma dominates_asym a b :
  GA.dominates a b = true → GA.dominates b a = false.
Proof.
  intros [Hle _]%andb_true_iff. unfold GA.dominates.
  by rewrite (dominates_weak_swap a b Hle), andb_false_r.
Qed.

Lemma dominated_by_self objectives k : dominated_by objectives k k = false.
Proof.
  unfold dominated_by. destruct (objectives !! k) as [ok|]; [|done].
  apply dominates_irrefl.
Qed.

(** For a pair of two different candidates, the count of [k] is incremented
    exactly when [k] is one of the two and the other one dominates it. *)
Lemma counts_for_alt objectives k i j :
  i ≠ j →
  counts_for objectives k (i, j)
  = (bool_decide (j = k) && dominated_by objectives k i)
    || (bool_decide (i = k) && dominated_by objectives k j).
Proof.
  intros Hne. unfold counts_for, dominated_by. simpl.
  destruct (objectives !! i) as [oi|] eqn:Hoi;
    destruct (objectives !! j) as [oj|] eqn:Hoj.
  - destruct (GA.dominates oi oj) eqn:Hij.
    + pose proof (dominates_asym _ _ Hij) as Hji.
      case_bool_decide as Hjk; case_bool_decide as Hik; simplify_eq; simpl;
        rewrite ?Hoi, ?Hoj, ?Hij, ?Hji; done.
    + destruct (GA.dominates oj oi) eqn:Hji;
        case_bool_decide as Hjk; case_bool_decide as Hik; simplify_eq; simpl;
        rewrite ?Hoi, ?Hoj, ?Hij, ?Hji; try done;
        by destruct (objectives !! k).
  - case_bool_decide as Hjk; case_bool_decide as Hik; simplify_eq; simpl;
      rewrite ?Hoi, ?Hoj; try done; by destruct (objectives !! k).
  - case_bool_decide as Hjk; case_bool_decide as Hik; simplify_eq; simpl;
      rewrite ?Hoi, ?Hoj; try done; by destruct (objectives !! k).
  - case_bool_decide as Hjk; case_bool_decide as Hik; simplify_eq; simpl;
      rewrite ?Hoi, ?Hoj; try done; by destruct (objectives !! k).
Qed.

(** The rows [a .. a + len - 1] of the visited pairs for [n] candidates. *)
Lemma visited_rows_succ (c : nat * nat → bool) n a len :
  (a + len ≤ n)%nat →
  count_true c (i ← seq a len; (λ j, (i, j)) <$> seq (i + 1) (S n - (i + 1)))
  = (count_true c (i ← seq a len; (λ j, (i, j)) <$> seq (i + 1) (n - (i + 1)))
     + count_true (λ i, c (i, n)) (seq a len))%nat.
Proof.
  revert a. induction len as [|len IH]; intros a Hle; [done|].
  cbn [seq mbind list_bind]. rewrite !count_true_app, IH by lia.
  replace (S n - (a + 1))%nat with (S (n - (a + 1))) by lia.
  rewrite seq_S, fmap_app, count_true_app.
  replace (a + 1 + (n - (a + 1)))%nat with n by lia.
  cbn [fmap list_fmap count_true]. destruct (c (a, n)); lia.
Qed.

Lemma visited_pairs_succ (c : nat * nat → bool) n :
  count_true c (visited_pairs (S n))
  = (count_true c (visited_pairs n) + count_true (λ i, c (i, n)) (seq 0 n))%nat.
Proof.
  unfold visited_pairs. rewrite seq_S, bind_app, count_true_app.
  rewrite visited_rows_succ by lia. cbn [mbind list_bind].
  rewrite (proj2 (Nat.sub_0_le (S n) _)) by lia. simpl. lia.
Qed.

Lemma visited_pairs_count objectives n k :
  (k < n)%nat →
  count_true (counts_for objectives k) (visited_pairs n)
  = count_true (dominated_by objectives k) (seq 0 n).
Proof.
  induction n as [|n IH]; intros Hk; [lia|].
  rewrite visited_pairs_succ, seq_S, count_true_app. simpl.
  destruct (decide (k = n)) as [->|Hne].
  - rewrite (count_true_false _ (visited_pairs n)).
    + rewrite dominated_by_self.
      rewrite (count_true_ext _ (dominated_by objectives n)); [lia|].
      intros i Hi%elem_of_seq. rewrite counts_for_alt by lia.
      rewrite bool_decide_eq_true_2 by done.
      rewrite (bool_decide_eq_false_2 (i = n)) by lia. simpl.
      by rewrite orb_false_r.
    + intros [i j] Hij%visited_pairs_elem. rewrite counts_for_alt by lia.
      rewrite !bool_decide_eq_false_2 by lia. done.
  - rewrite IH by lia. f_equal.
    rewrite (count_true_ext _
               (λ i, bool_decide (i = k) && dominated_by objectives k n)).
    + rewrite count_true_index. rewrite decide_True by lia.
      destruct (dominated_by objectives k n); lia.
    + intros i Hi%elem_of_seq. rewrite counts_for_alt by lia.
      by rewrite (bool_decide_eq_false_2 (n = k)) by lia.
Qed.

Lemma domination_counts (objectives : list (list Q)) :
  ∃ domination_count dominated_solutions,
    GA.domination objectives = Some (domination_count, dominated_solutions) ∧
    length domination_count = length objectives ∧
    ∀ k, (k < length objectives)%nat →
      domination_count !! k = Some (dominators objectives k).
Proof.
  rewrite domination_flat.
  destruct (domination_pairs_count objectives (visited_pairs (length objectives))
              (replicate (length objectives) 0%nat)
              (replicate (length objectives) []))
    as (dc & ds & Hrun & Hlen & Hcount).
  { intros [i j] Hij%visited_pairs_elem. simpl. lia. }
  exists dc, ds. split; [done|]. rewrite length_replicate in Hlen.
  split; [done|]. intros k Hk.
  rewrite (Hcount k 0%nat) by (by apply lookup_replicate_2).
  unfold dominators. by rewrite visited_pairs_count.
Qed.

(** X16: the loops of [parents_selection] always return, and the count they
    give candidate [k] is the number of candidates that dominate it. *)
Theorem domination_count_exact (objectives : list (list Q)) :
  ∃ domination_count dominated_solutions,
    GA.domination objectives = Some (domination_count, dominated_solutions) ∧
    length domination_count = length objectives ∧
    ∀ k, (k < length objectives)%nat →
      domination_count !! k = Some (dominators objectives k).
Proof. apply domination_counts. Qed.

(** ** Which parents [parents_selection] returns *)

Lemma filter_seq_head (P : nat → Prop) `{!∀ i, Decision (P i)} a len i :
  filter P (seq a len) !! 0%nat = Some i →
  P i ∧ (a ≤ i < a + len)%nat ∧ ∀ j, (a ≤ j < i)%nat → ¬ P j.
Proof.
  revert a. induction len as [|len IH]; intros a; [done|].
  cbn [seq]. rewrite filter_cons. case_decide as Ha.
  - intros [= <-]. split; [done|]. split; [lia|]. intros j Hj. lia.
  - intros (HP & Hr & Hmin)%IH. split; [done|]. split; [lia|].
    intros j Hj. destruct (decide (j = a)) as [->|]; [done|]. apply Hmin. lia.
Qed.

Lemma np_where_first v (a : list nat) i :
  GA.np_where v a !! 0%nat = Some i →
  a !! i = Some v ∧ ∀ j, (j < i)%nat → a !! j ≠ Some v.
Proof.
  unfold GA.np_where. intros (Hi & _ & Hmin)%filter_seq_head.
  split; [done|]. intros j Hj. apply Hmin. lia.
Qed.

Lemma np_where_nonempty v (a : list nat) k :
  a !! k = Some v → ∃ i, GA.np_where v a !! 0%nat = Some i ∧ (i < length a)%nat.
Proof.
  intros Hk%np_where_elem. destruct (GA.np_where v a) as [|i rest] eqn:Hw.
  { by apply not_elem_of_nil in Hk. }
  exists i. split; [done|].
  assert (Hi : a !! i = Some v) by (apply np_where_elem; rewrite Hw; by left).
  by apply lookup_lt_Some in Hi.
Qed.

Lemma pick_first v domination_count population parent :
  GA.pick v domination_count population = Some parent →
  ∃ i, domination_count !! i = Some v ∧
       (∀ j, (j < i)%nat → domination_count !! j ≠ Some v) ∧
       population !! i = Some parent.
Proof.
  unfold GA.pick.
  destruct (GA.np_where v domination_count !! 0%nat) as [i|] eqn:Hw; [|done].
  simpl. intros Hp. apply np_where_first in Hw as [Hi Hmin]. by exists i.
Qed.

Lemma pick_Some v domination_count (population : list (list Q)) k :
  domination_count !! k = Some v →
  (length domination_count ≤ length population)%nat →
  is_Some (GA.pick v domination_count population).
Proof.
  intros Hk Hlen. destruct (np_where_nonempty v domination_count k Hk)
    as (i & Hw & Hi).
  unfold GA.pick. rewrite Hw. simpl. apply lookup_lt_is_Some_2. lia.
Qed.

(** X17: when [parents_selection] returns, [parent_1] is the candidate of
    least index that no candidate dominates and [parent_2] the candidate of
    least index that exactly one candidate dominates. *)
Theorem parents_selection_first_fit objectives population parent_1 parent_2 :
  GA.parents_selection objectives population = Some (parent_1, parent_2) →
  ∃ i1 i2,
    (i1 < length objectives)%nat ∧ (i2 < length objectives)%nat ∧
    population !! i1 = Some parent_1 ∧ population !! i2 = Some parent_2 ∧
    dominators objectives i1 = 0%nat ∧ dominators objectives i2 = 1%nat ∧
    (∀ j, (j < i1)%nat → dominators objectives j ≠ 0%nat) ∧
    (∀ j, (j < i2)%nat → dominators objectives j ≠ 1%nat).
Proof.
  unfold GA.parents_selection.
  destruct (domination_counts objectives) as (dc & ds & Hrun & Hlen & Hc).
  rewrite Hrun. simpl.
  destruct (GA.pick 0 dc population) as [p1|] eqn:H1; [|done]. simpl.
  destruct (GA.pick 1 dc population) as [p2|] eqn:H2; [|done]. simpl.
  intros [= <- <-].
  apply pick_first in H1 as (i1 & Hi1 & Hmin1 & Hp1).
  apply pick_first in H2 as (i2 & Hi2 & Hmin2 & Hp2).
  pose proof (lookup_lt_Some _ _ _ Hi1) as Hlt1.
  pose proof (lookup_lt_Some _ _ _ Hi2) as Hlt2.
  exists i1, i2. rewrite Hlen in Hlt1, Hlt2.
  rewrite Hc in Hi1, Hi2 by done. simplify_eq.
  repeat split; try done.
  - intros j Hj Hz. apply (Hmin1 j Hj). rewrite Hc by lia. by rewrite Hz.
  - intros j Hj Hz. apply (Hmin2 j Hj). rewrite Hc by lia. by rewrite Hz.
Qed.

Lemma parents_selection_first_fit_witness :
  ∃ i1 i2,
    (i1 < 4)%nat ∧ (i2 < 4)%nat ∧
    draw4 !! i1 = Some (replicate 8 (1 # 2)) ∧
    draw4 !! i2 = Some (replicate 8 0) ∧
    dominators [[1; 2]; [2; 1]; [1; 3]; [3; 3]] i1 = 0%nat ∧
    dominators [[1; 2]; [2; 1]; [1; 3]; [3; 3]] i2 = 1%nat ∧
    (∀ j, (j < i1)%nat → dominators [[1; 2]; [2; 1]; [1; 3]; [3; 3]] j ≠ 0%nat) ∧
    (∀ j, (j < i2)%nat → dominators [[1; 2]; [2; 1]; [1; 3]; [3; 3]] j ≠ 1%nat).
Proof.
  apply (parents_selection_first_fit [[1; 2]; [2; 1]; [1; 3]; [3; 3]] draw4).
  vm_compute. reflexivity.
Defined.

Lemma dominators_zero objectives k ok :
  objectives !! k = Some ok →
  (∀ i oi, objectives !! i = Some oi → GA.dominates oi ok = false) →
  dominators objectives k = 0%nat.
Proof.
  intros Hk Hfree. apply count_true_false. intros i _.
  unfold dominated_by. rewrite Hk.
  destruct (objectives !! i) as [oi|] eqn:Hi; [|done]. by apply (Hfree i).
Qed.

(** X18: for a non-empty array of objective vectors and a population with
    at least as many rows, [parents_selection] returns exactly when some
    candidate is dominated by exactly one candidate; otherwise the lookup of
    [parent_2] raises (IndexError), as it does when no candidate dominates
    another. *)
Theorem parents_selection_returns_iff (objectives population : list (list Q)) m :
  objectives ≠ [] →
  Forall (λ r, length r = m) objectives →
  (length objectives ≤ length population)%nat →
  is_Some (GA.parents_selection objectives population)
  ↔ ∃ k, (k < length objectives)%nat ∧ dominators objectives k = 1%nat.
Proof.
  intros Hne Hm Hpop. unfold GA.parents_selection.
  destruct (domination_counts objectives) as (dc & ds & Hrun & Hlen & Hc).
  rewrite Hrun. simpl. split.
  - intros [[p1 p2] Hsel].
    destruct (GA.pick 0 dc population) as [q1|]; [|done]. simpl in Hsel.
    destruct (GA.pick 1 dc population) as [q2|] eqn:H2; [|done].
    apply pick_first in H2 as (i2 & Hi2 & _ & _).
    pose proof (lookup_lt_Some _ _ _ Hi2) as Hlt. rewrite Hlen in Hlt.
    exists i2. split; [done|]. rewrite Hc in Hi2 by done. by simplify_eq.
  - intros (k & Hk & Hone).
    destruct (exists_non_dominated objectives m Hne Hm) as (k0 & ok & Hk0 & Hfree).
    pose proof (lookup_lt_Some _ _ _ Hk0) as Hlt0.
    destruct (pick_Some 0 dc population k0) as [p1 Hp1]; [|lia|].
    { rewrite Hc by done. by rewrite (dominators_zero objectives k0 ok). }
    destruct (pick_Some 1 dc population k) as [p2 Hp2]; [|lia|].
    { rewrite Hc by done. by rewrite Hone. }
    rewrite Hp1. simpl. rewrite Hp2. simpl. by eexists.
Qed.

Lemma parents_selection_returns_iff_witness :
  is_Some (GA.parents_selection [[1; 2]; [2; 1]; [1; 2]] draw4)
  ↔ ∃ k, (k < 3)%nat ∧ dominators [[1; 2]; [2; 1]; [1; 2]] k = 1%nat.
Proof.
  apply (parents_selection_returns_iff [[1; 2]; [2; 1]; [1; 2]] draw4 2).
  - discriminate.
  - repeat constructor.
  - vm_compute. lia.
Defined.

(** ** The crossover points *)

(** [int(num_genes * k/4)] is the integer quotient of [num_genes * k]
    by 4. *)
Lemma crossover_point_div (n : nat) (k : positive) :
  Z.to_nat (Qfloor (inject_Z (Z.of_nat n) * (Z.pos k # 4)))
  = (n * Pos.to_nat k / 4)%nat.
Proof.
  unfold Qfloor, Qmult, inject_Z. cbn [Qnum Qden].
  rewrite <- (positive_nat_Z k).
  change (Z.pos (1 * 4)) with (Z.of_nat 4).
  by rewrite <- Nat2Z.inj_mul, <- Nat2Z.inj_div, Nat2Z.id.
Qed.

(** X19: [crossover] raises (ValueError of [np.row_stack]) when the parents
    differ in length; otherwise it returns the two parents followed by three
    pairs of children, cut at a quarter, a half and three quarters of the
    genes (rounded down), the second child of a pair being the first with
    the parents exchanged. *)
Theorem crossover_cut_points (parent_1 parent_2 : list Q) :
  GA.crossover parent_1 parent_2
  = let n := length parent_1 in
    let child c a b := take c a ++ drop c b in
    if decide (length parent_1 = length parent_2) then
      Some [ parent_1; parent_2;
             child (n / 4)%nat parent_1 parent_2;
             child (n / 4)%nat parent_2 parent_1;
             child (n / 2)%nat parent_1 parent_2;
             child (n / 2)%nat parent_2 parent_1;
             child (n * 3 / 4)%nat parent_1 parent_2;
             child (n * 3 / 4)%nat parent_2 parent_1 ]
    else None.
Proof.
  unfold GA.crossover. cbv zeta. case_decide; [|done].
  cbn [GA.crossover_ratios foldl app]. rewrite !crossover_point_div.
  replace (length parent_1 * Pos.to_nat 1 / 4)%nat
    with (length parent_1 / 4)%nat by (f_equal; lia).
  replace (length parent_1 * Pos.to_nat 2 / 4)%nat
    with (length parent_1 / 2)%nat.
  - done.
  - change (Pos.to_nat 2) with 2%nat. change 4%nat with (2 * 2)%nat.
    rewrite Nat.mul_comm. by rewrite Nat.Div0.div_mul_cancel_l.
Qed.

(** ** The objectives of a population *)

Lemma for_opt_seq_inv {S} (P : nat → S → Prop) (body : nat → S → option S)
    a len st :
  (∀ k st, (a ≤ k < a + len)%nat → P k st →
           ∃ st', body k st = Some st' ∧ P (Datatypes.S k) st') →
  P a st →
  ∃ st', for_opt body (seq a len) st = Some st' ∧ P (a + len)%nat st'.
Proof.
  revert a st. induction len as [|len IH]; intros a st Hbody HP.
  - exists st. by rewrite Nat.add_0_r.
  - destruct (Hbody a st) as (st1 & Hrun & HP1); [lia|done|].
    destruct (IH (Datatypes.S a) st1) as (st2 & Hrun2 & HP2); [|done|].
    { intros k st' Hk. apply Hbody. lia. }
    exists st2. cbn [seq for_opt]. rewrite Hrun. simpl. split; [done|].
    by replace (a + Datatypes.S len)%nat with (Datatypes.S a + len)%nat by lia.
Qed.

Lemma for_opt_seq_post {S} (P : nat → S → Prop) (body : nat → S → option S)
    a len st st' :
  (∀ k st st', (a ≤ k < a + len)%nat → P k st → body k st = Some st' →
               P (Datatypes.S k) st') →
  P a st → for_opt body (seq a len) st = Some st' → P (a + len)%nat st'.
Proof.
  revert a st. induction len as [|len IH]; intros a st Hbody HP.
  - intros [= <-]. by rewrite Nat.add_0_r.
  - cbn [seq for_opt]. destruct (body a st) as [st1|] eqn:Hrun; [|done].
    simpl. intros Hrest.
    replace (a + Datatypes.S len)%nat with (Datatypes.S a + len)%nat by lia.
    apply (IH (Datatypes.S a) st1); [|by apply (Hbody a st); [lia|..]|done].
    intros k st2 st3 Hk. apply Hbody. lia.
Qed.

Lemma GA_SD_func_Some_nonneg supply demand :
  supply ≠ [] → length supply = length demand →
  ∃ r, GA.SD_func supply demand = Some r ∧ 0 <= r.
Proof.
  intros Hne Hlen. destruct (GA_SD_terms supply demand Hlen) as (H0 & _).
  unfold GA.SD_func, np_binop. rewrite decide_True by done. simpl.
  destruct (np_mean_nonneg
              ((λ x, np_maximum x 0 ^ 2) <$> zip_with Qminus demand supply))
    as (m & Hm & _ & Hpos & _); [|done|].
  { destruct supply, demand; done. }
  by exists m.
Qed.

(** One iteration of [fit_func] on a store that holds the three series. *)
Lemma fit_func_body_run inflow evap demand s_0 s_max s_min env_min
    (population objectives : list (list Q)) i row r (σ : store) (I E D : list Q) :
  σ !! inflow = Some I → σ !! evap = Some E → σ !! demand = Some D →
  I ≠ [] → (length I ≤ length E)%nat → (length I ≤ length D)%nat →
  population !! i = Some row → length row = length D →
  objectives !! i = Some r → length r = 2%nat →
  ∃ objectives' σ' msv sd,
    GA.fit_func_body inflow evap demand s_0 s_max s_min env_min population i
      (objectives, σ) = Some (objectives', σ') ∧
    σ ⊆ σ' ∧ length objectives' = length objectives ∧
    objectives' !! i = Some [msv; sd] ∧
    (∀ j, j ≠ i → objectives' !! j = objectives !! j) ∧
    0 <= msv ∧ 0 <= sd ∧
    scored s_0 s_max s_min env_min I E D row msv sd.
Proof.
  intros HI HE HD Hne HlE HlD Hrow Hlrow Hr Hlr.
  set (U := zip_with Qmult row D).
  set (l := fresh (dom σ)).
  assert (Hl : σ !! l = None) by (apply not_elem_of_dom, is_fresh).
  assert (Hli : l ≠ inflow) by (intros ->; congruence).
  assert (Hle : l ≠ evap) by (intros ->; congruence).
  assert (Hld : l ≠ demand) by (intros ->; congruence).
  assert (HlU : length U = length D).
  { unfold U. rewrite length_zip_with. lia. }
  destruct (res_sim_run inflow evap s_0 s_max env_min l (<[l := U]> σ) I E U)
    with (demand := demand)
    as (o & U' & Hrun & Hout & HlU' & Hls & _ & _ & Hs0 & Htail & Hstep);
    try done; try lia.
  { by rewrite lookup_insert_ne. }
  { by rewrite lookup_insert_ne. }
  { by rewrite lookup_insert_eq. }
  rewrite insert_insert_eq in Hrun.
  destruct (MSV_mean_range (take (length I) (out_s o)) s_min)
    as (msv & Hmsv & Hmsv0 & _).
  { intros Hnil. apply (f_equal length) in Hnil.
    rewrite length_take, Hls in Hnil. destruct I; [done|]. simpl in Hnil. lia. }
  destruct (GA_SD_func_Some_nonneg U' D) as (sd & Hsd & Hsd0); [|lia|].
  { intros ->. destruct I; [done|]. simpl in *. lia. }
  exists (alter (λ r, <[1%nat := sd]> r) i
            (alter (λ r, <[0%nat := msv]> r) i objectives)),
         (<[l := U']> σ), msv, sd.
  split; [|split; [|split; [|split; [|split; [|split; [|split]]]]]].
  - unfold GA.fit_func_body. rewrite Hrow. simpl. rewrite HD. simpl.
    unfold np_binop. rewrite decide_True by done. simpl.
    unfold alloc. cbv zeta. fold l. fold U. rewrite Hrun. simpl.
    rewrite Hls. replace (Datatypes.S (length I) - 1)%nat with (length I) by lia.
    unfold GA.MSV_func. cbv zeta. rewrite Hmsv. simpl.
    rewrite Hout, lookup_insert_eq. simpl.
    rewrite lookup_insert_ne by done. rewrite HD. simpl.
    by rewrite Hsd.
  - by apply insert_subseteq.
  - by rewrite !length_alter.
  - rewrite !list_lookup_alter_eq, Hr. simpl.
    destruct r as [|a [|b [|c r]]]; simplify_eq/=. done.
  - intros j Hj. by rewrite !list_lookup_alter_ne.
  - done.
  - done.
  - exists (out_s o), (out_env o), (out_spill o), U'.
    split; [done|]. split; [done|]. split; [done|]. split; [done|].
    split; [done|]. split; [|done].
    unfold GA.MSV_func. cbv zeta. done.
Qed.

(** Arrays that obey the step equations from the same first storage agree. *)
Lemma step_ok_functional s_0 s_max env_min (I E U : list Q)
    (S1 EN1 SP1 U1 S2 EN2 SP2 U2 : list Q) :
  S1 !! 0%nat = Some s_0 → S2 !! 0%nat = Some s_0 →
  (∀ t, (t < length I)%nat → step_ok s_max env_min I E U S1 EN1 SP1 U1 t) →
  (∀ t, (t < length I)%nat → step_ok s_max env_min I E U S2 EN2 SP2 U2 t) →
  ∀ t, (t ≤ length I)%nat →
    S1 !! t = S2 !! t ∧ (∀ j, (j < t)%nat → U1 !! j = U2 !! j).
Proof.
  intros H1 H2 Hs1 Hs2 t. induction t as [|t IH]; intros Ht.
  - split; [congruence|]. intros j Hj. lia.
  - destruct IH as [IHs IHu]; [lia|].
    destruct (Hs1 t) as (x1 & i1 & e1 & u1 & Hx1 & Hi1 & He1 & Hu1 & _ & Hv1 & _ & Hn1);
      [lia|].
    destruct (Hs2 t) as (x2 & i2 & e2 & u2 & Hx2 & Hi2 & He2 & Hu2 & _ & Hv2 & _ & Hn2);
      [lia|].
    rewrite Nat.add_1_r in Hn1, Hn2.
    assert (x1 = x2) as -> by congruence.
    assert (i1 = i2) as -> by congruence.
    assert (e1 = e2) as -> by congruence.
    assert (u1 = u2) as -> by congruence.
    split; [congruence|].
    intros j Hj. destruct (decide (j = t)) as [->|Hne]; [congruence|].
    apply IHu. lia.
Qed.

Lemma scored_functional s_0 s_max s_min env_min (I E D row : list Q)
    msv sd msv' sd' :
  scored s_0 s_max s_min env_min I E D row msv sd →
  scored s_0 s_max s_min env_min I E D row msv' sd' →
  msv' = msv ∧ sd' = sd.
Proof.
  intros (S1 & EN1 & SP1 & U1 & H01 & Hl1 & Hs1 & HlU1 & Ht1 & Hm1 & Hd1)
         (S2 & EN2 & SP2 & U2 & H02 & Hl2 & Hs2 & HlU2 & Ht2 & Hm2 & Hd2).
  pose proof (step_ok_functional s_0 s_max env_min I E _ _ _ _ _ _ _ _ _
                H01 H02 Hs1 Hs2) as Hfun.
  assert (S1 = S2) as ->.
  { apply list_eq. intros t. destruct (decide (t ≤ length I)%nat) as [Ht|Ht].
    - by apply Hfun.
    - by rewrite !lookup_ge_None_2 by lia. }
  assert (U1 = U2) as ->.
  { apply list_eq. intros j. destruct (decide (j < length I)%nat) as [Hj|Hj].
    - apply (Hfun (length I)); [lia|done].
    - rewrite Ht1, Ht2 by lia. done. }
  split; congruence.
Qed.

(** The loop of [fit_func] returns, and relates every row of the objectives
    to its candidate. *)
Lemma fit_func_run inflow evap demand s_0 s_max s_min env_min pop_size
    (population : list (list Q)) (σ : store) (I E D : list Q) :
  σ !! inflow = Some I → σ !! evap = Some E → σ !! demand = Some D →
  I ≠ [] → (length I ≤ length E)%nat → (length I ≤ length D)%nat →
  (pop_size ≤ length population)%nat →
  (∀ i row, (i < pop_size)%nat → population !! i = Some row →
            length row = length D) →
  ∃ objectives σ',
    GA.fit_func inflow evap demand s_0 s_max s_min env_min pop_size population σ
    = Some (objectives, σ') ∧
    σ ⊆ σ' ∧
    length objectives = pop_size ∧
    ∀ i row, (i < pop_size)%nat → population !! i = Some row →
      ∃ msv sd,
        objectives !! i = Some [msv; sd] ∧ 0 <= msv ∧ 0 <= sd ∧
        scored s_0 s_max s_min env_min I E D row msv sd.
Proof.
  intros HI HE HD Hne HlE HlD Hpop Hrows.
  destruct (for_opt_seq_inv
    (λ k (st : list (list Q) * store),
       σ ⊆ st.2 ∧ length st.1 = pop_size ∧
       (∀ i row, (i < k)%nat → population !! i = Some row →
          ∃ msv sd,
            st.1 !! i = Some [msv; sd] ∧ 0 <= msv ∧ 0 <= sd ∧
            scored s_0 s_max s_min env_min I E D row msv sd) ∧
       (∀ i, (k ≤ i < pop_size)%nat → st.1 !! i = Some [0; 0]))
    (GA.fit_func_body inflow evap demand s_0 s_max s_min env_min population)
    0%nat pop_size (replicate pop_size [0; 0], σ))
    as ([objs σ'] & Hrun & Hsub & Hlen & Hdone & _).
  - intros k [objs σk] Hk (Hsub & Hlen & Hdone & Htodo). simpl in *.
    destruct (lookup_lt_is_Some_2 population k) as [row Hrow]; [lia|].
    destruct (fit_func_body_run inflow evap demand s_0 s_max s_min env_min
                population objs k row [0; 0] σk I E D)
      as (objs' & σ' & msv & sd & Hrun & Hsub' & Hlen' & Hk' & Hother
          & Hmsv & Hsd & Hscored); try done.
    + by apply (lookup_weaken σ).
    + by apply (lookup_weaken σ).
    + by apply (lookup_weaken σ).
    + apply (Hrows k); [lia|done].
    + apply Htodo. lia.
    + exists (objs', σ'). split; [done|]. simpl.
      split; [by trans σk|]. split; [lia|]. split.
      * intros i row' Hi Hrow'. destruct (decide (i = k)) as [->|Hne'].
        -- simplify_eq. by exists msv, sd.
        -- rewrite Hother by done. apply Hdone; [lia|done].
      * intros i Hi. rewrite Hother by lia. apply Htodo. lia.
  - simpl. split; [done|]. split; [by rewrite length_replicate|].
    split; [intros; lia|]. intros i Hi. apply lookup_replicate_2. lia.
  - exists objs, σ'. simpl in *. done.
Qed.



(** ** What a run of [fit_func] and of [gen_opt] that returns has done *)

Lemma alloc_subseteq (a : list Q) (σ : store) : σ ⊆ (alloc a σ).2.
Proof.
  unfold alloc. simpl. apply insert_subseteq, not_elem_of_dom, is_fresh.
Qed.

Lemma fit_func_body_post inflow evap demand s_0 s_max s_min env_min
    (population objectives objectives' : list (list Q)) i (σ σ' : store) :
  GA.fit_func_body inflow evap demand s_0 s_max s_min env_min population i
    (objectives, σ) = Some (objectives', σ') →
  (i < length population)%nat ∧ length objectives' = length objectives ∧
  σ ⊆ σ'.
Proof.
  unfold GA.fit_func_body.
  destruct (population !! i) as [row|] eqn:Hrow; [|done]. cbn [mbind option_bind].
  destruct (σ !! demand) as [d|]; [|done]. cbn [mbind option_bind].
  destruct (np_binop Qmult row d) as [U|]; [|done]. cbn [mbind option_bind].
  pose proof (alloc_subseteq U σ) as Hsub.
  assert (Hfresh : σ !! (alloc U σ).1 = None)
    by (apply not_elem_of_dom, is_fresh).
  destruct (alloc U σ) as [l σ1]. simpl in Hsub, Hfresh.
  destruct (res_sim inflow evap demand s_0 s_max env_min l σ1)
    as [[o σ2]|] eqn:Hrun; [|done]. cbn [mbind option_bind].
  destruct (GA.MSV_func _ s_min) as [msv|]; [|done]. cbn [mbind option_bind].
  destruct (σ2 !! out_supply o) as [u|]; [|done]. cbn [mbind option_bind].
  destruct (σ2 !! demand) as [d'|]; [|done]. cbn [mbind option_bind].
  destruct (GA.SD_func u d') as [sd|]; [|done]. cbn [mbind option_bind].
  intros [= <- <-]. split; [by apply lookup_lt_Some in Hrow|].
  split; [by rewrite !length_alter|].
  apply res_sim_frame in Hrun as [_ Hframe].
  apply map_subseteq_spec. intros l' a Hl'.
  rewrite Hframe by (intros ->; congruence).
  by apply (lookup_weaken σ).
Qed.

Lemma fit_func_post inflow evap demand s_0 s_max s_min env_min pop_size
    (population objectives : list (list Q)) (σ σ' : store) :
  GA.fit_func inflow evap demand s_0 s_max s_min env_min pop_size population σ
  = Some (objectives, σ') →
  (pop_size ≤ length population)%nat ∧ length objectives = pop_size ∧ σ ⊆ σ'.
Proof.
  unfold GA.fit_func. cbv zeta. intros Hrun.
  apply (for_opt_seq_post
           (λ k (st : list (list Q) * store),
              (k ≤ length population)%nat ∧ length st.1 = pop_size ∧ σ ⊆ st.2))
    in Hrun; [done| |].
  - intros k [objs σk] [objs' σk'] Hk (Hle & Hlen & Hsub) Hbody.
    apply fit_func_body_post in Hbody as (Hlt & Hlen' & Hsub').
    simpl in *. split; [lia|]. split; [lia|]. by trans σk.
  - simpl. split; [lia|]. by rewrite length_replicate.
Qed.

(** X21: [fit_func] raises (IndexError) on a population of fewer than
    [pop_size] candidates, whatever the store holds. *)
Theorem fit_func_short_population inflow evap demand s_0 s_max s_min env_min
    pop_size (population : list (list Q)) (σ : store) :
  (length population < pop_size)%nat →
  GA.fit_func inflow evap demand s_0 s_max s_min env_min pop_size population σ
  = None.
Proof.
  intros Hshort.
  destruct (GA.fit_func _ _ _ _ _ _ _ _ _ _) as [[objs σ']|] eqn:Hrun; [|done].
  apply fit_func_post in Hrun as (Hle & _). lia.
Qed.

Lemma fit_func_short_population_witness :
  GA.fit_func 1 2 3 80 150 30 2 5 draw4 notebook_store = None.
Proof.
  apply (fit_func_short_population 1 2 3 80 150 30 2 5 draw4 notebook_store).
  vm_compute. lia.
Defined.

Lemma gen_opt_body_post inflow evap demand s_0 s_max s_min env_min pop_size
    (population population' : list (list Q)) oo oo' (σ σ' : store) :
  GA.gen_opt_body inflow evap demand s_0 s_max s_min env_min pop_size
    (population, oo, σ) = Some (population', oo', σ') →
  ∃ objectives parent_1 parent_2,
    oo' = Some objectives ∧
    GA.fit_func inflow evap demand s_0 s_max s_min env_min pop_size population σ
    = Some (objectives, σ') ∧
    GA.parents_selection objectives population = Some (parent_1, parent_2) ∧
    GA.crossover parent_1 parent_2 = Some population'.
Proof.
  unfold GA.gen_opt_body.
  destruct (GA.fit_func _ _ _ _ _ _ _ _ _ _) as [[objs σ1]|]; [|done].
  cbn [mbind option_bind].
  destruct (GA.parents_selection objs population) as [[p1 p2]|] eqn:Hsel;
    [|done].
  cbn [mbind option_bind].
  destruct (GA.crossover p1 p2) as [pop|] eqn:Hcross; [|done].
  cbn [mbind option_bind]. intros [= <- <- <-]. by exists objs, p1, p2.
Qed.

(** X22: what [gen_opt] returns, when it returns.  At least one generation
    has run ([objectives] is unbound otherwise); the population has eight
    rows, the children of the last crossover, while the objectives have
    [pop_size] rows: they are those of the population before that crossover,
    from which the two parents were selected.  The initial draw has at least
    [pop_size] rows, [pop_size] is at most 8 when a second generation has
    run, and the arrays of the caller are as they were. *)
Theorem gen_opt_result inflow evap demand s_0 s_max s_min env_min pop_size
    max_generations (population0 population objectives : list (list Q))
    (σ σ' : store) :
  GA.gen_opt inflow evap demand s_0 s_max s_min env_min pop_size
    max_generations population0 σ = Some (population, objectives, σ') →
  (1 ≤ max_generations)%nat ∧
  (pop_size ≤ length population0)%nat ∧
  ((2 ≤ max_generations)%nat → (pop_size ≤ 8)%nat) ∧
  σ ⊆ σ' ∧
  length population = 8%nat ∧ length objectives = pop_size ∧
  ∃ previous σp parent_1 parent_2,
    (max_generations = 1%nat → previous = population0 ∧ σp = σ) ∧
    GA.fit_func inflow evap demand s_0 s_max s_min env_min pop_size previous σp
    = Some (objectives, σ') ∧
    GA.parents_selection objectives previous = Some (parent_1, parent_2) ∧
    GA.crossover parent_1 parent_2 = Some population.
Proof.
  unfold GA.gen_opt.
  destruct (for_opt _ _ _) as [[[pop oo] σ1]|] eqn:Hloop; [|done]. simpl.
  destruct oo as [objs|]; [|done]. simpl. intros [= -> -> ->].
  destruct max_generations as [|n]; [done|].
  rewrite seq_S, for_opt_app in Hloop.
  destruct (for_opt _ (seq 0 n) _) as [[[prev oo] σp]|] eqn:Hprev; [|done].
  cbn [mbind option_bind for_opt] in Hloop.
  destruct (GA.gen_opt_body _ _ _ _ _ _ _ _ _) as [[[pop' oo'] σ2]|] eqn:Hbody;
    [|done].
  cbn [mbind option_bind] in Hloop. simplify_eq.
  apply gen_opt_body_post in Hbody as (objs' & p1 & p2 & [= ->] & Hfit & Hsel & Hcross).
  apply (for_opt_seq_post
           (λ k (st : list (list Q) * option (list (list Q)) * store),
              σ ⊆ st.2 ∧
              (k = 0%nat → st.1.1 = population0 ∧ st.2 = σ) ∧
              ((1 ≤ k)%nat →
               length st.1.1 = 8%nat ∧ (pop_size ≤ length population0)%nat) ∧
              ((2 ≤ k)%nat → (pop_size ≤ 8)%nat)))
    in Hprev.
  - simpl in Hprev. destruct Hprev as (Hsub & H0 & H1 & H2).
    pose proof (fit_func_post _ _ _ _ _ _ _ _ _ _ _ _ Hfit) as (Hle & Hlen & Hsub').
    pose proof (crossover_rows _ _ _ Hcross) as (Hl8 & _).
    split; [lia|]. split; [|split; [|split; [by trans σp|]]].
    + destruct n as [|n]; [destruct H0 as [-> _]; done|]. apply H1. lia.
    + intros Hn. destruct (H1 ltac:(lia)) as [Hp8 _]. lia.
    + split; [done|]. split; [done|].
      exists prev, σp, p1, p2. split; [|done].
      intros Hn. apply H0. lia.
  - intros k [[pk ok] σk] [[pk' ok'] σk'] Hk (Hsub & H0 & H1 & H2) Hbody.
    apply gen_opt_body_post in Hbody as (objs2 & q1 & q2 & _ & Hfit' & _ & Hcross').
    simpl in *.
    pose proof (fit_func_post _ _ _ _ _ _ _ _ _ _ _ _ Hfit') as (Hle & _ & Hsub').
    pose proof (crossover_rows _ _ _ Hcross') as (Hl8 & _).
    split; [by trans σk|]. split; [lia|]. split.
    + intros _. split; [done|].
      destruct k as [|k]; [destruct H0 as [-> _]; done|]. apply H1. lia.
    + intros Hk2. destruct (H1 ltac:(lia)) as [Hp8 _]. lia.
  - simpl. split; [done|]. split; [done|]. split; intros; lia.
Qed.

Lemma gen_opt_result_witness :
  ∃ population objectives σ',
    GA.gen_opt 1 2 3 80 150 30 2 4 1 draw4 notebook_store
    = Some (population, objectives, σ') ∧
    (1 ≤ 1)%nat ∧
    (4 ≤ length draw4)%nat ∧
    ((2 ≤ 1)%nat → (4 ≤ 8)%nat) ∧
    notebook_store ⊆ σ' ∧
    length population = 8%nat ∧ length objectives = 4%nat ∧
    ∃ previous σp parent_1 parent_2,
      (1%nat = 1%nat → previous = draw4 ∧ σp = notebook_store) ∧
      GA.fit_func 1 2 3 80 150 30 2 4 previous σp = Some (objectives, σ') ∧
      GA.parents_selection objectives previous = Some (parent_1, parent_2) ∧
      GA.crossover parent_1 parent_2 = Some population.
Proof.
  destruct (GA.gen_opt 1 2 3 80 150 30 2 4 1 draw4 notebook_store)
    as [[[population objectives] σ']|] eqn:Hrun.
  - exists population, objectives, σ'. split; [reflexivity|].
    exact (gen_opt_result 1 2 3 80 150 30 2 4 1 draw4 population objectives
             notebook_store σ' Hrun).
  - vm_compute in Hrun. discriminate Hrun.
Defined.

(** * The first draft of the genetic algorithm *)

(** ** Indexing and sorting *)

Lemma take_idx_total {A} `{!Inhabited A} (a : list A) (idx : list nat) :
  Forall (λ i, i < length a)%nat idx →
  take_idx a idx = Some ((λ i, a !!! i) <$> idx).
Proof.
  unfold take_idx. induction 1 as [|i idx Hi _ IH]; [done|].
  cbn [mapM fmap list_fmap]. rewrite (list_lookup_lookup_total_lt a i Hi).
  simpl. by rewrite IH.
Qed.

Lemma fmap_lookup_total_seq {A} `{!Inhabited A} (a : list A) :
  (λ i, a !!! i) <$> seq 0 (length a) = a.
Proof.
  apply list_eq. intros i. rewrite list_lookup_fmap.
  destruct (decide (i < length a)%nat) as [Hi|Hi].
  - rewrite lookup_seq_lt by done. simpl.
    by rewrite (list_lookup_lookup_total_lt a i Hi).
  - rewrite lookup_seq_ge by lia. simpl. by rewrite lookup_ge_None_2 by lia.
Qed.

(** Indexing with a permutation of the indices permutes the array. *)
Lemma take_idx_perm {A} `{!Inhabited A} (a : list A) (idx : list nat) :
  idx ≡ₚ seq 0 (length a) →
  ∃ r, take_idx a idx = Some r ∧ r ≡ₚ a.
Proof.
  intros Hperm. eexists. split.
  - apply take_idx_total. rewrite Hperm. apply Forall_forall.
    intros i Hi%elem_of_seq. lia.
  - rewrite Hperm. by rewrite fmap_lookup_total_seq.
Qed.

Lemma insert_by_perm {A} (leb : A → A → bool) x l :
  insert_by leb x l ≡ₚ x :: l.
Proof.
  induction l as [|y l IH]; [done|]. simpl.
  destruct (leb y.2 x.2); [|done]. rewrite IH. apply Permutation_swap.
Qed.

Lemma foldl_insert_by_perm {A} (leb : A → A → bool) l acc :
  foldl (λ acc x, insert_by leb x acc) acc l ≡ₚ l ++ acc.
Proof.
  revert acc. induction l as [|x l IH]; intros acc; [done|].
  simpl. rewrite IH, insert_by_perm. by rewrite Permutation_middle.
Qed.

Lemma argsort_perm {A} (leb : A → A → bool) (keys : list A) :
  argsort leb keys ≡ₚ seq 0 (length keys).
Proof.
  unfold argsort. rewrite foldl_insert_by_perm, app_nil_r.
  rewrite fst_zip; [done|]. by rewrite length_seq.
Qed.

Lemma argsort_bounds {A} (leb : A → A → bool) (keys : list A) :
  Forall (λ i, i < length keys)%nat (argsort leb keys).
Proof.
  rewrite argsort_perm. apply Forall_forall. intros i Hi%elem_of_seq. lia.
Qed.

Lemma argsort_length {A} (leb : A → A → bool) (keys : list A) :
  length (argsort leb keys) = length keys.
Proof. by rewrite argsort_perm, length_seq. Qed.

Lemma argmin_bound (a : list Q) :
  a ≠ [] → ∃ i, argmin a = Some i ∧ (i < length a)%nat.
Proof.
  destruct a as [|x a]; [done|]. intros _. unfold argmin.
  eexists. split; [done|].
  assert (Hgen : ∀ (l : list Q) best v i,
    (best < i)%nat →
    let r := foldl (λ '(best, v, i) y,
                      if py_lt y v then (i, y, S i) else (best, v, S i))
                   (best, v, i) l in
    (r.1.1 < i + length l)%nat).
  { induction l as [|y l IH]; intros best v i Hlt; simpl.
    - lia.
    - destruct (py_lt y v).
      + specialize (IH i y (S i)). simpl in IH. lia.
      + specialize (IH best v (S i)). simpl in IH. lia. }
  specialize (Hgen a 0%nat x 1%nat). simpl in *. lia.
Qed.

(** ** The variation operators with probability 0 *)

Section no_variation.
Variable rnd : nat → Q.
Hypothesis rnd_nonneg : ∀ k, 0 <= rnd k.

Lemma rand_not_below_zero k : py_lt (rnd k) 0 = false.
Proof. apply py_lt_false, rnd_nonneg. Qed.

Lemma crossover_zero (population : list (list Q)) k :
  ∃ k', NSGA.crossover rnd population 0 k = Some (population, k').
Proof.
  unfold NSGA.crossover. cbv zeta.
  generalize ((λ h, 2 * h)%nat <$> seq 0 ((length population + 1) / 2)).
  intros L. generalize population at 2 3 as new_population.
  revert k. induction L as [|i L IH]; intros k new_population.
  - by exists k.
  - cbn [for_opt]. rewrite rand_not_below_zero. cbn [mbind option_bind].
    apply IH.
Qed.

Lemma mutation_zero s_max (population : list (list Q)) k :
  ∃ k', NSGA.mutation rnd s_max population 0 k = Some (population, k').
Proof.
  unfold NSGA.mutation. cbv zeta.
  assert (Hin : ∀ i, i ∈ seq 0 (length population) →
                     is_Some (population !! i)).
  { intros i Hi%elem_of_seq. apply lookup_lt_is_Some_2. lia. }
  revert Hin. generalize (seq 0 (length population)). intros L.
  generalize population at 3 4 as new_population.
  revert k. induction L as [|i L IH]; intros k new_population Hin.
  - by exists k.
  - cbn [for_opt]. destruct (Hin i) as [row Hrow]; [left|].
    rewrite Hrow. cbn [mbind option_bind].
    assert (Hrow_loop : ∀ (J : list nat) k0,
      ∃ k1, for_opt (λ j '(new_population, k),
                       if py_lt (rnd k) 0 then
                         r ← new_population !! i;
                         if decide (j < length r)%nat then
                           Some (<[i := <[j := NSGA.np_random_uniform rnd 0 s_max (S k)]> r]>
                                   new_population, S (S k))
                         else None
                       else Some (new_population, S k))
                    J (new_population, k0) = Some (new_population, k1)).
    { induction J as [|j J IHJ]; intros k0; [by exists k0|].
      cbn [for_opt]. rewrite rand_not_below_zero. cbn [mbind option_bind].
      apply IHJ. }
    destruct (Hrow_loop (seq 0 (length row)) k) as [k1 ->].
    cbn [mbind option_bind]. apply IH. intros j Hj. apply Hin. by right.
Qed.
End no_variation.

(** ** Taking whole fronts *)

Lemma select_fronts_all fronts pop_size selected front_index :
  (length selected + length (concat fronts) ≤ pop_size)%nat →
  NSGA.select_fronts fronts pop_size selected front_index
  = (selected ++ concat fronts, (front_index + length fronts)%nat).
Proof.
  revert selected front_index.
  induction fronts as [|f fronts IH]; intros selected front_index Hle.
  - simpl. by rewrite app_nil_r, Nat.add_0_r.
  - simpl in *. rewrite length_app in Hle. rewrite decide_True by lia.
    rewrite IH by (rewrite length_app; lia).
    by rewrite <- app_assoc, Nat.add_succ_r.
Qed.

(** ** [crowding_distance] returns *)

Lemma mapM_total {A B} (f : A → option B) (l : list A) :
  (∀ x, x ∈ l → is_Some (f x)) →
  ∃ k, mapM f l = Some k ∧ length k = length l.
Proof.
  induction l as [|x l IH]; intros Hf.
  - by exists [].
  - destruct (Hf x) as [y Hy]; [left|].
    destruct IH as (k & Hk & Hlen); [intros z Hz; apply Hf; by right|].
    exists (y :: k). cbn [mapM]. rewrite Hy. simpl. rewrite Hk. simpl.
    split; [done|]. by rewrite Hlen.
Qed.

Lemma set_dist_Some (a : list dist) i v :
  (i < length a)%nat → NSGA.set_dist a i v = Some (<[i := v]> a).
Proof. intros Hi. unfold NSGA.set_dist. by rewrite decide_True. Qed.

Section crowding.
Variables (objectives : list (list Q)) (m : nat).
Hypothesis rows : Forall (λ r, length r = m) objectives.

Lemma objective_entry i obj_index :
  (i < length objectives)%nat → (obj_index < m)%nat →
  is_Some (r ← objectives !! i; r !! obj_index).
Proof.
  intros Hi Hm. destruct (lookup_lt_is_Some_2 objectives i Hi) as [r Hr].
  rewrite Hr. simpl. apply lookup_lt_is_Some_2.
  rewrite Forall_lookup in rows. by rewrite (rows i r Hr).
Qed.

Lemma crowding_column_returns obj_index crowding_distances sorted_indices :
  objectives ≠ [] → (obj_index < m)%nat →
  length crowding_distances = length objectives →
  length sorted_indices = length objectives →
  Forall (λ i, i < length objectives)%nat sorted_indices →
  ∃ crowding_distances' sorted_indices',
    NSGA.crowding_column objectives (length objectives) obj_index
      (crowding_distances, sorted_indices)
    = Some (crowding_distances', sorted_indices') ∧
    length crowding_distances' = length objectives ∧
    length sorted_indices' = length objectives ∧
    Forall (λ i, i < length objectives)%nat sorted_indices'.
Proof.
  intros Hne Hobj Hlc Hls Hbound.
  assert (Hn : (0 < length objectives)%nat) by (destruct objectives; simpl; [done|lia]).
  unfold NSGA.crowding_column.
  destruct (mapM_total (λ i, r ← objectives !! i; r !! obj_index) sorted_indices)
    as (keys & Hkeys & Hlk).
  { intros i Hi. apply objective_entry; [|done].
    rewrite Forall_forall in Hbound. by apply Hbound. }
  rewrite Hkeys. cbn [mbind option_bind].
  rewrite take_idx_total
    by (eapply Forall_impl; [apply argsort_bounds|]; simpl; intros; lia).
  cbn [mbind option_bind].
  set (sorted := (λ i, sorted_indices !!! i) <$> argsort py_le keys).
  assert (Hlen : length sorted = length objectives).
  { unfold sorted. rewrite length_fmap, argsort_length. lia. }
  assert (Hsb : Forall (λ i, i < length objectives)%nat sorted).
  { unfold sorted. apply Forall_fmap, Forall_forall. intros i Hi. simpl.
    rewrite Forall_forall in Hbound. apply Hbound.
    apply list_elem_of_lookup_total_2.
    pose proof (argsort_bounds py_le keys) as Hb.
    rewrite Forall_forall in Hb. specialize (Hb i Hi). lia. }
  assert (Hget : ∀ i, (i < length objectives)%nat →
                      ∃ s_i, sorted !! i = Some s_i ∧
                             (s_i < length objectives)%nat).
  { intros i Hi. destruct (lookup_lt_is_Some_2 sorted i) as [s_i Hs]; [lia|].
    exists s_i. split; [done|]. rewrite Forall_lookup in Hsb. by apply (Hsb i). }
  destruct (Hget 0%nat Hn) as (first & Hfirst & Hfb).
  destruct (Hget (length objectives - 1)%nat) as (final & Hfinal & Hlb); [lia|].
  rewrite Hfirst. cbn [mbind option_bind].
  assert (Hpy : py_index sorted (-1) = Some final).
  { unfold py_index. repeat case_decide; try lia.
    rewrite <- Hfinal. f_equal. lia. }
  rewrite Hpy. cbn [mbind option_bind].
  rewrite (set_dist_Some crowding_distances first) by lia.
  cbn [mbind option_bind].
  rewrite (set_dist_Some (<[first := PInf]> crowding_distances) final)
    by (rewrite length_insert; lia).
  cbn [mbind option_bind].
  match goal with
  | |- context [for_opt ?body ?xs ?st] =>
      destruct (for_opt_inv (λ cd : list dist, length cd = length objectives)
                  body xs st) as (cd' & Hrun & Hcd')
  end.
  - intros i cd Hi%elem_of_seq Hcd.
    destruct (Hget i) as (s_i & Hs_i & Hb_i); [lia|].
    destruct (Hget (i + 1)%nat) as (s_n & Hs_n & Hb_n); [lia|].
    destruct (Hget (i - 1)%nat) as (s_p & Hs_p & Hb_p); [lia|].
    destruct (lookup_lt_is_Some_2 cd s_i) as [old Hold]; [lia|].
    destruct (objective_entry s_n obj_index Hb_n Hobj) as [a Ha].
    destruct (objective_entry s_p obj_index Hb_p Hobj) as [b Hb].
    destruct (objective_entry final obj_index Hlb Hobj) as [c Hc].
    destruct (objective_entry first obj_index Hfb Hobj) as [d Hd].
    rewrite Hs_i. cbn [mbind option_bind]. rewrite Hold.
    cbn [mbind option_bind]. rewrite Hs_n. cbn [mbind option_bind].
    rewrite Ha. cbn [mbind option_bind]. rewrite Hs_p.
    cbn [mbind option_bind]. rewrite Hb. cbn [mbind option_bind].
    rewrite Hc. cbn [mbind option_bind]. rewrite Hd. cbn [mbind option_bind].
    rewrite set_dist_Some by lia.
    eexists. split; [done|]. by rewrite length_insert.
  - by rewrite !length_insert.
  - rewrite Hrun. cbn [mbind option_bind]. by exists cd', sorted.
Qed.

Lemma crowding_distance_returns :
  objectives ≠ [] →
  ∃ crowding_distances sorted_indices,
    NSGA.crowding_distance objectives
    = Some (crowding_distances, sorted_indices) ∧
    length crowding_distances = length objectives ∧
    length sorted_indices = length objectives ∧
    Forall (λ i, i < length objectives)%nat sorted_indices.
Proof.
  intros Hne. unfold NSGA.crowding_distance. cbv zeta.
  destruct (lookup_lt_is_Some_2 objectives 0) as [row Hrow].
  { destruct objectives; simpl; [done|lia]. }
  rewrite Hrow. cbn [mbind option_bind].
  assert (Hm : length row = m).
  { rewrite Forall_lookup in rows. by apply (rows 0%nat). }
  rewrite Hm.
  destruct (for_opt_inv
    (λ st : list dist * list nat,
       length st.1 = length objectives ∧ length st.2 = length objectives ∧
       Forall (λ i, i < length objectives)%nat st.2)
    (NSGA.crowding_column objectives (length objectives)) (seq 0 m)
    (replicate (length objectives) (Fin 0), seq 0 (length objectives)))
    as ([cd sorted] & Hrun & Hcd & Hs & Hb).
  - intros obj_index [cd sorted] Hi%elem_of_seq (Hcd & Hs & Hb). simpl in *.
    destruct (crowding_column_returns obj_index cd sorted)
      as (cd' & sorted' & Hrun & ? & ? & ?); try done; [lia|].
    by exists (cd', sorted').
  - simpl. rewrite length_replicate, length_seq. repeat split.
    apply Forall_forall. intros i Hi%elem_of_seq. lia.
  - exists cd, sorted. by rewrite Hrun.
Qed.
End crowding.

(** ** The lists of dominated candidates *)

Lemma domination_pair_targets objectives i j dc ds :
  (i < length objectives)%nat → (j < length objectives)%nat →
  ∃ dc' ds',
    GA.domination_pair objectives i j (dc, ds) = Some (dc', ds') ∧
    length ds' = length ds ∧
    ∀ k l, ds !! k = Some l →
      ds' !! k = Some (l ++ omap (dominated_target objectives k) [(i, j)]).
Proof.
  intros Hi Hj.
  destruct (lookup_lt_is_Some_2 objectives i Hi) as [oi Hoi].
  destruct (lookup_lt_is_Some_2 objectives j Hj) as [oj Hoj].
  unfold GA.domination_pair, dominated_target. cbn [omap list_omap fst snd].
  rewrite Hoi, Hoj. cbn [mbind option_bind].
  destruct (GA.dominates oi oj); [|destruct (GA.dominates oj oi)].
  - eexists _, _. split; [done|]. split; [apply length_alter|].
    intros k l Hk. case_decide as Hik.
    + subst k. by rewrite list_lookup_alter_eq, Hk.
    + rewrite list_lookup_alter_ne, Hk by done. by rewrite app_nil_r.
  - eexists _, _. split; [done|]. split; [apply length_alter|].
    intros k l Hk. case_decide as Hjk.
    + subst k. by rewrite list_lookup_alter_eq, Hk.
    + rewrite list_lookup_alter_ne, Hk by done. by rewrite app_nil_r.
  - eexists _, _. split; [done|]. split; [done|].
    intros k l Hk. by rewrite Hk, app_nil_r.
Qed.

Lemma domination_pairs_targets objectives L dc ds :
  (∀ p, p ∈ L → (p.1 < length objectives)%nat ∧ (p.2 < length objectives)%nat) →
  ∃ dc' ds',
    for_opt (λ p st, GA.domination_pair objectives p.1 p.2 st) L (dc, ds)
    = Some (dc', ds') ∧
    length ds' = length ds ∧
    ∀ k l, ds !! k = Some l →
      ds' !! k = Some (l ++ omap (dominated_target objectives k) L).
Proof.
  revert dc ds. induction L as [|[i j] L IH]; intros dc ds Hin.
  - exists dc, ds. split; [done|]. split; [done|].
    intros k l Hk. by rewrite Hk, app_nil_r.
  - destruct (Hin (i, j)) as [Hi Hj]; [left|]. simpl in Hi, Hj.
    destruct (domination_pair_targets objectives i j dc ds Hi Hj)
      as (dc1 & ds1 & Hrun1 & Hl1 & Hc1).
    destruct (IH dc1 ds1) as (dc2 & ds2 & Hrun2 & Hl2 & Hc2).
    { intros p Hp. apply Hin. by right. }
    exists dc2, ds2. cbn [for_opt fst snd]. rewrite Hrun1. simpl.
    split; [done|]. split; [lia|].
    intros k l Hk. rewrite (Hc2 k _ (Hc1 k l Hk)).
    rewrite <- app_assoc. by rewrite <- omap_app.
Qed.

Lemma visited_pairs_elem_2 n i j :
  (i < j < n)%nat → (i, j) ∈ visited_pairs n.
Proof.
  intros Hij. unfold visited_pairs. apply list_elem_of_bind. exists i.
  split; [|apply elem_of_seq; lia].
  apply list_elem_of_fmap. exists j. split; [done|]. apply elem_of_seq. lia.
Qed.

Lemma NoDup_visited_pairs n : NoDup (visited_pairs n).
Proof.
  unfold visited_pairs. apply NoDup_bind.
  - intros i1 i2 [a b] _ _ H1 H2.
    apply list_elem_of_fmap in H1 as (? & [= -> ->] & _).
    apply list_elem_of_fmap in H2 as (? & [= -> ->] & _). done.
  - intros i _. apply NoDup_fmap_2; [|apply NoDup_seq].
    intros j1 j2 [= ->]. done.
  - apply NoDup_seq.
Qed.

Lemma NoDup_omap_inj {A B} (f : A → option B) (l : list A) :
  (∀ x y z, x ∈ l → y ∈ l → f x = Some z → f y = Some z → x = y) →
  NoDup l → NoDup (omap f l).
Proof.
  intros Hinj. induction 1 as [|x l Hx Hl IH]; [constructor|].
  cbn [omap list_omap]. destruct (f x) as [z|] eqn:Hfx.
  - constructor.
    + intros (y & Hy & Hfy)%list_elem_of_omap.
      assert (x = y) as -> by (apply (Hinj x y z); [left|by right|done..]).
      done.
    + apply IH. intros a b c Ha Hb. apply Hinj; by right.
  - apply IH. intros a b c Ha Hb. apply Hinj; by right.
Qed.

Lemma dominated_target_Some objectives k p j :
  dominated_target objectives k p = Some j →
  dominated_by objectives j k = true ∧
  (p = (k, j) ∨ p = (j, k)).
Proof.
  destruct p as [a b]. unfold dominated_target, dominated_by. simpl.
  destruct (objectives !! a) as [oa|] eqn:Ha; [|done].
  destruct (objectives !! b) as [ob|] eqn:Hb; [|done].
  destruct (GA.dominates oa ob) eqn:Hab.
  - case_decide; [|done]. intros [= <-]. subst a. rewrite Ha, Hb. auto.
  - destruct (GA.dominates ob oa) eqn:Hba; [|done].
    case_decide; [|done]. intros [= <-]. subst b. rewrite Ha, Hb. auto.
Qed.

(** What the loops of [parents_selection] and [non_dominated_sort] leave
    in [dominated_solutions]: for each candidate [k], once each, the
    candidates that [k] dominates. *)
Lemma dominated_solutions_spec (objectives : list (list Q)) dc ds :
  GA.domination objectives = Some (dc, ds) →
  length ds = length objectives ∧
  ∀ k, (k < length objectives)%nat →
    ∃ l, ds !! k = Some l ∧ NoDup l ∧
         ∀ j, j ∈ l ↔ (j < length objectives)%nat ∧
                      dominated_by objectives j k = true.
Proof.
  rewrite domination_flat. intros Hrun.
  destruct (domination_pairs_targets objectives
              (visited_pairs (length objectives))
              (replicate (length objectives) 0%nat)
              (replicate (length objectives) []))
    as (dc' & ds' & Hrun' & Hlen & Hds).
  { intros [i j] Hij%visited_pairs_elem. simpl. lia. }
  rewrite Hrun in Hrun'. injection Hrun' as <- <-.
  rewrite length_replicate in Hlen. split; [done|].
  intros k Hk. eexists. split.
  { apply Hds. by apply lookup_replicate_2. }
  rewrite app_nil_l. split.
  - apply NoDup_omap_inj; [|apply NoDup_visited_pairs].
    intros [a b] [c d] z Hp Hq H1 H2.
    apply visited_pairs_elem in Hp, Hq.
    apply dominated_target_Some in H1 as [_ [H1|H1]];
      apply dominated_target_Some in H2 as [_ [H2|H2]];
      simplify_eq; try done; lia.
  - intros j. rewrite list_elem_of_omap. split.
    + intros ([a b] & Hp%visited_pairs_elem & Ht).
      apply dominated_target_Some in Ht as [Hdom [Hp'|Hp']]; simplify_eq;
        (split; [lia|done]).
    + intros [Hj Hdom].
      assert (Hne : j ≠ k).
      { intros ->. by rewrite dominated_by_self in Hdom. }
      unfold dominated_by in Hdom.
      destruct (objectives !! k) as [ok|] eqn:Hok; [|done].
      destruct (objectives !! j) as [oj|] eqn:Hoj; [|done].
      destruct (decide (k < j)%nat) as [Hlt|Hge].
      * exists (k, j). split; [apply visited_pairs_elem_2; lia|].
        unfold dominated_target. simpl. rewrite Hok, Hoj, Hdom.
        by rewrite decide_True.
      * exists (j, k). split; [apply visited_pairs_elem_2; lia|].
        unfold dominated_target. simpl. rewrite Hok, Hoj.
        rewrite (dominates_asym _ _ Hdom), Hdom. by rewrite decide_True.
Qed.

(** ** Peeling the fronts *)

Lemma count_true_except (f g : nat → bool) i a len :
  (∀ x, x ≠ i → f x = g x) → g i = false →
  count_true f (seq a len)
  = (count_true g (seq a len)
     + (if decide (a ≤ i < a + len)%nat then (if f i then 1 else 0) else 0))%nat.
Proof.
  intros Hext Hg. revert a. induction len as [|len IH]; intros a.
  - simpl. case_decide; lia.
  - cbn [seq count_true]. rewrite IH.
    destruct (decide (a = i)) as [->|Hne].
    + rewrite Hg. repeat case_decide; try lia.
    + rewrite (Hext a Hne). repeat case_decide; lia.
Qed.

Lemma count_true_mono {A} (f g : A → bool) l :
  (∀ x, f x = true → g x = true) → (count_true f l ≤ count_true g l)%nat.
Proof.
  intros Himp. induction l as [|x l IH]; simpl; [lia|].
  destruct (f x) eqn:Hf; [rewrite (Himp x Hf)|destruct (g x)]; lia.
Qed.

Lemma count_true_zero {A} (f : A → bool) l :
  count_true f l = 0%nat ↔ ∀ x, x ∈ l → f x = false.
Proof.
  split; [|apply count_true_false].
  induction l as [|x l IH]; intros Hz y Hy; [by apply not_elem_of_nil in Hy|].
  simpl in Hz. apply elem_of_cons in Hy as [->|Hy].
  - destruct (f x); [lia|done].
  - apply IH; [|done]. destruct (f x); lia.
Qed.

Lemma filter_ext_in {A} (P1 P2 : A → Prop) `{!∀ x, Decision (P1 x)}
    `{!∀ x, Decision (P2 x)} (l : list A) :
  (∀ x, x ∈ l → P1 x ↔ P2 x) → filter P1 l = filter P2 l.
Proof.
  induction l as [|x l IH]; intros Hext; [done|].
  rewrite !filter_cons. rewrite IH by (intros y Hy; apply Hext; by right).
  destruct (decide (P1 x)) as [H1|H1]; destruct (decide (P2 x)) as [H2|H2];
    try done; exfalso; apply (Hext x) in H1 || apply (Hext x) in H2;
    try done; left.
Qed.

Lemma NoDup_bounded_length (l : list nat) n :
  NoDup l → (∀ i, i ∈ l → (i < n)%nat) → (length l ≤ n)%nat.
Proof.
  intros Hnd Hb. trans (length (seq 0 n)); [|by rewrite length_seq].
  apply submseteq_length.
  apply NoDup_submseteq; [done|]. intros i Hi. apply elem_of_seq.
  specialize (Hb i Hi). lia.
Qed.

(** The innermost loop, over a list without repetition. *)
Lemma peel_inner (l : list nat) (count : list Z) (next : list nat) :
  NoDup l → (∀ j, j ∈ l → (j < length count)%nat) →
  ∃ count',
    for_opt NSGA.peel_target l (count, next)
    = Some (count', next ++ filter (λ j, count !! j = Some 1%Z) l) ∧
    length count' = length count ∧
    ∀ j, count' !! j
         = if decide (j ∈ l) then (λ c, (c - 1)%Z) <$> count !! j
           else count !! j.
Proof.
  intros Hnd. revert count next.
  induction Hnd as [|j l Hj Hnd IH]; intros count next Hb.
  - exists count. rewrite filter_nil, app_nil_r. split; [done|].
    split; [done|]. intros j. rewrite decide_False; [done|].
    apply not_elem_of_nil.
  - destruct (lookup_lt_is_Some_2 count j) as [c Hc]; [apply Hb; left|].
    destruct (IH (<[j := (c - 1)%Z]> count)
                 (if decide (c - 1 = 0)%Z then next ++ [j] else next))
      as (count' & Hrun & Hlen & Hget).
    { intros j' Hj'. rewrite length_insert. apply Hb. by right. }
    exists count'. split; [|split].
    + assert (Hstep : NSGA.peel_target j (count, next)
                      = Some (<[j := (c - 1)%Z]> count,
                              if decide (c - 1 = 0)%Z then next ++ [j]
                              else next)).
      { unfold NSGA.peel_target. rewrite Hc. cbn [mbind option_bind].
        by destruct (decide (c - 1 = 0)%Z). }
      cbn [for_opt]. rewrite Hstep. cbn [mbind option_bind].
      replace (next ++ filter (λ j0, count !! j0 = Some 1%Z) (j :: l))
        with ((if decide (c - 1 = 0)%Z then next ++ [j] else next)
              ++ filter (λ j0, <[j := (c - 1)%Z]> count !! j0 = Some 1%Z) l).
      { done. }
      rewrite (filter_ext_in _ (λ j0, count !! j0 = Some 1%Z) l).
      * rewrite filter_cons. rewrite Hc.
        destruct (decide (c - 1 = 0)%Z) as [H0|H0].
        -- rewrite decide_True by (f_equal; lia). by rewrite <- app_assoc.
        -- rewrite decide_False; [done|]. intros [= ->]. lia.
      * intros j' Hj'. rewrite list_lookup_insert_ne; [done|].
        intros ->. done.
    + by rewrite Hlen, length_insert.
    + intros j0. rewrite Hget. destruct (decide (j0 = j)) as [->|Hne].
      * rewrite decide_False by done. rewrite decide_True by left.
        rewrite list_lookup_insert_eq by (by eapply lookup_lt_Some).
        by rewrite Hc.
      * rewrite list_lookup_insert_ne by done.
        destruct (decide (j0 ∈ l)) as [Hin|Hin].
        -- by rewrite decide_True by (by right).
        -- rewrite decide_False; [done|].
           intros [->|?]%elem_of_cons; done.
Qed.

Section peel.
Variables (objectives : list (list Q)) (m : nat).
Hypothesis rows : Forall (λ r, length r = m) objectives.

Lemma remaining_nil j : remaining objectives [] j = dominators objectives j.
Proof.
  unfold remaining, dominators. apply count_true_ext. intros i _.
  rewrite bool_decide_eq_false_2 by apply not_elem_of_nil.
  by rewrite andb_true_r.
Qed.

Lemma remaining_snoc P i j :
  (i < length objectives)%nat → i ∉ P →
  remaining objectives P j
  = (remaining objectives (P ++ [i]) j
     + if dominated_by objectives j i then 1 else 0)%nat.
Proof.
  intros Hi HP. unfold remaining.
  rewrite (count_true_except _
             (λ x, dominated_by objectives j x
                   && negb (bool_decide (x ∈ P ++ [i]))) i).
  - rewrite decide_True by lia.
    rewrite (bool_decide_eq_false_2 (i ∈ P)) by done.
    by rewrite andb_true_r.
  - intros x Hx. f_equal. f_equal. apply bool_decide_ext.
    rewrite elem_of_app, list_elem_of_singleton.
    split; [by left|]. intros [?|?]; done.
  - rewrite bool_decide_eq_true_2; [by rewrite andb_false_r|].
    apply elem_of_app. right. by apply list_elem_of_singleton.
Qed.

Lemma remaining_mono P P' j :
  (∀ i, i ∈ P → i ∈ P') →
  (remaining objectives P' j ≤ remaining objectives P j)%nat.
Proof.
  intros Hsub. apply count_true_mono. intros i [Hd Hn]%andb_true_iff.
  rewrite Hd. simpl. apply negb_true_iff, bool_decide_eq_false.
  apply negb_true_iff, bool_decide_eq_false in Hn. auto.
Qed.

Lemma remaining_zero P j :
  remaining objectives P j = 0%nat
  ↔ ∀ i, (i < length objectives)%nat →
         dominated_by objectives j i = true → i ∈ P.
Proof.
  unfold remaining. rewrite count_true_zero. split.
  - intros Hz i Hi Hd. specialize (Hz i). rewrite Hd in Hz. simpl in Hz.
    destruct (decide (i ∈ P)) as [|Hn]; [done|].
    rewrite bool_decide_eq_false_2 in Hz by done.
    discriminate Hz. apply elem_of_seq. lia.
  - intros Hall i Hi%elem_of_seq.
    destruct (dominated_by objectives j i) eqn:Hd; [|done].
    rewrite bool_decide_eq_true_2; [done|]. apply Hall; [lia|done].
Qed.

(** Among the candidates of a non-empty list, one has the least sum of
    objectives. *)
Lemma exists_min_index (U : list nat) :
  U ≠ [] → (∀ i, i ∈ U → (i < length objectives)%nat) →
  ∃ k ok, k ∈ U ∧ objectives !! k = Some ok ∧
          ∀ i oi, i ∈ U → objectives !! i = Some oi → Qsum ok <= Qsum oi.
Proof.
  induction U as [|k U IH]; [done|]. intros _ Hb.
  destruct (lookup_lt_is_Some_2 objectives k) as [ok Hok]; [apply Hb; left|].
  destruct U as [|k1 U].
  - exists k, ok. split; [left|]. split; [done|].
    intros i oi Hi Hoi. apply list_elem_of_singleton in Hi as ->.
    simplify_eq. lra.
  - destruct IH as (k0 & o0 & Hk0 & Ho0 & Hmin); [done|..].
    { intros i Hi. apply Hb. by right. }
    destruct (Qlt_le_dec (Qsum ok) (Qsum o0)) as [Hlt|Hle].
    + exists k, ok. split; [left|]. split; [done|].
      intros i oi [->|Hi]%elem_of_cons Hoi.
      * simplify_eq. lra.
      * specialize (Hmin i oi Hi Hoi). lra.
    + exists k0, o0. split; [by right|]. split; [done|].
      intros i oi [->|Hi]%elem_of_cons Hoi.
      * simplify_eq. lra.
      * by apply (Hmin i oi).
Qed.

(** When no candidate is left with all its dominators peeled off, every
    candidate has been peeled off. *)
Lemma all_peeled (P : list nat) :
  (∀ j, (j < length objectives)%nat →
        (j ∈ P ↔ remaining objectives P j = 0%nat)) →
  ∀ j, (j < length objectives)%nat → j ∈ P.
Proof.
  intros Hiff.
  set (U := filter (λ j, j ∉ P) (seq 0 (length objectives))).
  destruct U as [|u U'] eqn:HU.
  - intros j Hj. destruct (decide (j ∈ P)) as [|Hn]; [done|].
    assert (Hin : j ∈ filter (λ j, j ∉ P) (seq 0 (length objectives))).
    { apply list_elem_of_filter. split; [done|]. apply elem_of_seq. lia. }
    fold U in Hin. rewrite HU in Hin. by apply not_elem_of_nil in Hin.
  - exfalso.
    assert (HUin : ∀ i, i ∈ u :: U' ↔ (i ∉ P) ∧ (i < length objectives)%nat).
    { intros i. rewrite <- HU. unfold U. rewrite list_elem_of_filter, elem_of_seq.
      split; intros [? ?]; split; try done; lia. }
    destruct (exists_min_index (u :: U')) as (k & ok & Hk & Hok & Hmin);
      [done|intros i Hi; by apply HUin|].
    apply HUin in Hk as [HkP Hkb]. apply HkP, Hiff; [done|].
    apply remaining_zero. intros i Hi Hd.
    destruct (decide (i ∈ P)) as [|Hn]; [done|]. exfalso.
    unfold dominated_by in Hd. rewrite Hok in Hd.
    destruct (objectives !! i) as [oi|] eqn:Hoi; [|done].
    apply dominates_Qsum in Hd.
    + assert (Hle : Qsum ok <= Qsum oi).
      { apply (Hmin i oi); [|done]. by apply HUin. }
      lra.
    + rewrite Forall_lookup in rows.
      by rewrite (rows i oi Hoi), (rows k ok Hok).
Qed.

Section lists.
Variable ds : list (list nat).
Hypothesis Hds : lists_dominated objectives ds.

Lemma peel_member_spec P i count next :
  (i < length objectives)%nat → i ∉ P →
  counts_track objectives P count →
  ∃ count' next',
    NSGA.peel_member ds i (count, next) = Some (count', next') ∧
    counts_track objectives (P ++ [i]) count' ∧
    (∀ j, j ∈ next' ↔
          j ∈ next ∨ ((j < length objectives)%nat ∧
                      dominated_by objectives j i = true ∧
                      remaining objectives P j = 1%nat)) ∧
    (NoDup next → (∀ j, j ∈ next → remaining objectives P j ≠ 1%nat) →
     NoDup next').
Proof.
  intros Hi HP [Hlen Hcount].
  destruct (Hds i Hi) as (l & Hl & Hnd & Hmem).
  destruct (peel_inner l count next Hnd) as (count' & Hrun & Hlen' & Hget).
  { intros j Hj. apply Hmem in Hj as [Hj _]. lia. }
  exists count', (next ++ filter (λ j, count !! j = Some 1%Z) l).
  split; [|split; [|split]].
  - unfold NSGA.peel_member. rewrite Hl. exact Hrun.
  - split; [lia|]. intros j Hj. rewrite Hget, (Hcount j Hj).
    pose proof (remaining_snoc P i j Hi HP) as Hsn.
    destruct (decide (j ∈ l)) as [Hin|Hin].
    + apply Hmem in Hin as [_ Hd]. rewrite Hd in Hsn. simpl. f_equal. lia.
    + destruct (dominated_by objectives j i) eqn:Hd.
      * exfalso. apply Hin, Hmem. done.
      * f_equal. lia.
  - intros j. rewrite elem_of_app, list_elem_of_filter. split.
    + intros [?|[Hc Hin]]; [by left|]. right.
      apply Hmem in Hin as [Hj Hd]. rewrite (Hcount j Hj) in Hc.
      split; [done|]. split; [done|]. injection Hc. lia.
    + intros [?|(Hj & Hd & Hr)]; [by left|]. right. split.
      * rewrite (Hcount j Hj), Hr. done.
      * by apply Hmem.
  - intros Hn Hne. apply NoDup_app. split; [done|]. split.
    + intros j Hj [Hc Hin]%list_elem_of_filter.
      apply Hmem in Hin as [Hjb _]. rewrite (Hcount j Hjb) in Hc.
      apply (Hne j Hj). injection Hc. lia.
    + by apply NoDup_filter.
Qed.

Lemma peel_front_spec P0 C P count next :
  NoDup C →
  (∀ i, i ∈ C → (i < length objectives)%nat ∧ i ∉ P) →
  counts_track objectives P count →
  (∀ i, i ∈ P0 → i ∈ P) →
  NoDup next →
  (∀ j, j ∈ next ↔ (j < length objectives)%nat ∧
                    remaining objectives P j = 0%nat ∧
                    (0 < remaining objectives P0 j)%nat) →
  ∃ count' next',
    for_opt (NSGA.peel_member ds) C (count, next) = Some (count', next') ∧
    counts_track objectives (P ++ C) count' ∧ NoDup next' ∧
    (∀ j, j ∈ next' ↔ (j < length objectives)%nat ∧
                      remaining objectives (P ++ C) j = 0%nat ∧
                      (0 < remaining objectives P0 j)%nat).
Proof.
  intros HndC. revert P count next.
  induction HndC as [|i C HiC HndC IH]; intros P count next HC Htrack Hsub Hnd Hnext.
  - exists count, next. rewrite app_nil_r. done.
  - destruct (HC i) as [Hi HiP]; [left|].
    destruct (peel_member_spec P i count next Hi HiP Htrack)
      as (count1 & next1 & Hrun1 & Htrack1 & Hnext1 & Hnd1).
    destruct (IH (P ++ [i]) count1 next1) as (count2 & next2 & Hrun2 & Htrack2 & Hnd2 & Hnext2).
    + intros i' Hi'. destruct (HC i') as [Hb HnP]; [by right|].
      split; [done|]. rewrite elem_of_app, list_elem_of_singleton.
      intros [?| ->]; done.
    + done.
    + intros i' Hi'. apply elem_of_app. left. by apply Hsub.
    + apply Hnd1; [done|]. intros j Hj%Hnext. lia.
    + intros j. rewrite Hnext1, Hnext.
      pose proof (remaining_snoc P i j Hi HiP) as Hsn.
      pose proof (remaining_mono P0 P j Hsub) as Hmono.
      destruct (dominated_by objectives j i); split.
      * intros [(? & ? & ?)|(? & _ & ?)]; split; try done; split; lia.
      * intros (? & ? & ?). right. split; [done|]. split; [done|]. lia.
      * intros [(? & ? & ?)|(? & ? & ?)]; [|done]. split; [done|]. split; lia.
      * intros (? & ? & ?). left. split; [done|]. split; lia.
    + exists count2, next2. cbn [for_opt]. rewrite Hrun1.
      cbn [mbind option_bind]. rewrite Hrun2. split; [done|].
      replace (P ++ i :: C) with ((P ++ [i]) ++ C) by (by rewrite <- app_assoc).
      done.
Qed.

Lemma peel_spec fuel fronts C count :
  NoDup (concat fronts ++ C) →
  (∀ i, i ∈ concat fronts ++ C → (i < length objectives)%nat) →
  counts_track objectives (concat fronts) count →
  (∀ j, (j < length objectives)%nat →
        (j ∈ concat fronts ++ C
         ↔ remaining objectives (concat fronts) j = 0%nat)) →
  Forall (λ f, f ≠ []) fronts →
  (length objectives < fuel + length (concat fronts))%nat →
  ∃ fronts',
    NSGA.peel fuel ds count C fronts = Some fronts' ∧
    concat fronts' ≡ₚ seq 0 (length objectives) ∧
    Forall (λ f, f ≠ []) fronts'.
Proof.
  revert fronts C count.
  induction fuel as [|fuel IH]; intros fronts C count Hnd Hb Htrack Hiff Hne Hfuel.
  - exfalso. apply NoDup_app in Hnd as (HndP & _ & _).
    pose proof (NoDup_bounded_length (concat fronts) (length objectives) HndP)
      as Hle.
    assert (length (concat fronts) ≤ length objectives)%nat; [|lia].
    apply Hle. intros i Hi. apply Hb, elem_of_app. by left.
  - cbn [NSGA.peel]. destruct C as [|c C].
    + rewrite decide_False by (simpl; lia). exists fronts.
      rewrite app_nil_r in *. split; [done|]. split; [|done].
      apply NoDup_Permutation; [done|apply NoDup_seq|].
      intros j. rewrite elem_of_seq. split.
      * intros Hj%Hb. lia.
      * intros Hj. apply all_peeled; [done|lia].
    + rewrite decide_True by (simpl; lia). cbv zeta.
      apply NoDup_app in Hnd as (HndP & Hdisj & HndC).
      destruct (peel_front_spec (concat fronts) (c :: C) (concat fronts)
                  count [])
        as (count' & next' & Hrun & Htrack' & Hnd' & Hnext'); try done.
      { intros i Hi. split; [apply Hb, elem_of_app; by right|].
        intros HiP. by apply (Hdisj i HiP). }
      { constructor. }
      { intros j. split; [by intros ?%not_elem_of_nil|]. intros (_ & ? & ?). lia. }
      rewrite Hrun. cbn [mbind option_bind].
      assert (Hcat : concat (fronts ++ [c :: C]) = concat fronts ++ c :: C).
      { rewrite concat_app. simpl. by rewrite app_nil_r. }
      apply IH; rewrite ?Hcat.
      * apply NoDup_app. split; [|split; [|done]].
        { apply NoDup_app. done. }
        intros j Hj Hj'. apply Hnext' in Hj' as (Hjb & _ & Hpos).
        apply elem_of_app in Hj.
        assert (remaining objectives (concat fronts) j = 0%nat); [|lia].
        apply Hiff; [done|]. apply elem_of_app. done.
      * intros i [Hi|Hi]%elem_of_app; [by apply Hb|]. by apply Hnext'.
      * done.
      * intros j Hj. rewrite elem_of_app, Hnext'.
        pose proof (remaining_mono (concat fronts) (concat fronts ++ c :: C) j)
          as Hmono.
        split.
        -- intros [Hin|(_ & ? & _)]; [|done].
           apply Hiff in Hin; [|done].
           assert (remaining objectives (concat fronts ++ c :: C) j
                   ≤ remaining objectives (concat fronts) j)%nat; [|lia].
           apply Hmono. intros i Hi. apply elem_of_app. by left.
        -- intros Hz.
           destruct (decide (remaining objectives (concat fronts) j = 0%nat))
             as [H0|H0].
           ++ left. by apply Hiff.
           ++ right. split; [done|]. split; [done|]. lia.
      * apply Forall_app. split; [done|]. by repeat constructor.
      * rewrite length_app. simpl. lia.
Qed.
End lists.

(** The fronts of [non_dominated_sort] are a partition of the candidates:
    the function returns (the loop ends before the fuel does), no front is
    empty, and every candidate is in exactly one front. *)
Lemma non_dominated_sort_fronts :
  ∃ fronts,
    NSGA.non_dominated_sort objectives = Some fronts ∧
    concat fronts ≡ₚ seq 0 (length objectives) ∧
    Forall (λ f, f ≠ []) fronts.
Proof.
  unfold NSGA.non_dominated_sort.
  destruct (domination_counts objectives) as (dc & ds & Hrun & Hlen & Hc).
  rewrite Hrun. cbn [mbind option_bind]. cbv zeta.
  destruct (dominated_solutions_spec objectives dc ds Hrun) as [_ Hds].
  apply peel_spec; try done; simpl.
  - unfold GA.np_where. apply NoDup_filter, NoDup_seq.
  - intros i Hi%np_where_elem. apply lookup_lt_Some in Hi. lia.
  - split; [by rewrite length_fmap|]. intros j Hj.
    rewrite list_lookup_fmap, (Hc j Hj). simpl. by rewrite remaining_nil.
  - intros j Hj. rewrite np_where_elem, (Hc j Hj), remaining_nil.
    split; [by intros [= ->]|by intros ->].
  - lia.
Qed.
End peel.

(** ** A generation without variation *)

Lemma initial_population_shape rnd pop_size num_weeks :
  length (NSGA.initial_population rnd pop_size num_weeks) = pop_size ∧
  Forall (λ row, length row = num_weeks)
         (NSGA.initial_population rnd pop_size num_weeks).
Proof.
  unfold NSGA.initial_population. split.
  - by rewrite length_fmap, length_seq.
  - apply Forall_fmap, Forall_forall. intros i _. simpl.
    by rewrite length_fmap, length_seq.
Qed.

Lemma py_index_last {A} (a : list A) x :
  last a = Some x → py_index a (Z.of_nat (length a) - 1) = Some x.
Proof.
  intros Hlast. unfold py_index.
  destruct a as [|y a]; [done|]. rewrite decide_True by (simpl; lia).
  rewrite <- Hlast, last_lookup. f_equal. simpl. lia.
Qed.

Section generation.
Variable rnd : nat → Q.
Hypothesis rnd_nonneg : ∀ k, 0 <= rnd k.
Variables (inflow evap demand : loc) (s_0 s_max s_min env_min : Q).
Variable pop_size : nat.
Variables (σ : store) (I E D : list Q).
Hypothesis (HI : σ !! inflow = Some I) (HE : σ !! evap = Some E).
Hypothesis (HD : σ !! demand = Some D).
Hypothesis (Hne : I ≠ []).
Hypothesis (HlE : (length I ≤ length E)%nat) (HlD : length D = length I).
Hypothesis (Hpop : (1 ≤ pop_size)%nat).

(** One generation with both probabilities 0, from any population of
    [pop_size] candidates of [len(demand)] genes. *)
Lemma generation_zero population best_solutions best_objectives k σk :
  σ ⊆ σk → length population = pop_size →
  Forall (λ row, length row = length D) population →
  ∃ population' best best_objective k' σ',
    NSGA.generation rnd inflow evap demand s_0 s_max s_min env_min pop_size
      0 0 (population, best_solutions, best_objectives, k, σk)
    = Some (population', best_solutions ++ [best],
            best_objectives ++ [best_objective], k', σ') ∧
    population' ≡ₚ population ∧ best ∈ population ∧ σ ⊆ σ'.
Proof.
  intros Hsub Hlen Hrows.
  destruct (fit_func_run inflow evap demand s_0 s_max s_min env_min pop_size
              population σk I E D)
    as (objs & σ' & Hfit & Hsub' & Hlo & Hobjs); try done;
    try (by apply (lookup_weaken σ)); try lia.
  { intros i row _ Hrow. rewrite Forall_lookup in Hrows. by apply (Hrows i). }
  assert (Hpairs : ∀ i r, objs !! i = Some r → ∃ msv sd, r = [msv; sd]).
  { intros i r Hr.
    assert (Hi : (i < pop_size)%nat) by (apply lookup_lt_Some in Hr; lia).
    destruct (lookup_lt_is_Some_2 population i) as [row Hrow]; [lia|].
    destruct (Hobjs i row Hi Hrow) as (msv & sd & Hr' & _).
    exists msv, sd. congruence. }
  assert (Hrows2 : Forall (λ r, length r = 2%nat) objs).
  { apply Forall_lookup. intros i r Hr.
    by destruct (Hpairs i r Hr) as (msv & sd & ->). }
  destruct (non_dominated_sort_fronts objs 2 Hrows2)
    as (fronts & Hsort & Hperm & Hnonempty).
  rewrite Hlo in Hperm.
  assert (Hcl : length (concat fronts) = pop_size).
  { by rewrite Hperm, length_seq. }
  destruct (last fronts) as [front|] eqn:Hlast.
  2:{ apply last_None in Hlast. subst fronts. simpl in Hcl. lia. }
  assert (Hfront_in : front ∈ fronts).
  { rewrite last_lookup in Hlast. by eapply list_elem_of_lookup_2. }
  assert (Hfront_ne : front ≠ []).
  { rewrite Forall_forall in Hnonempty. by apply Hnonempty. }
  assert (Hfront_b : Forall (λ i, i < length objs)%nat front).
  { apply Forall_forall. intros i Hi.
    assert (Hic : i ∈ concat fronts).
    { apply list_elem_of_In, in_concat. exists front.
      split; by apply list_elem_of_In. }
    rewrite Hperm in Hic. apply elem_of_seq in Hic. lia. }
  assert (Hfo_ne : (λ i, objs !!! i) <$> front ≠ []) by (by destruct front).
  assert (Hfo_rows : Forall (λ r, length r = 2%nat) ((λ i, objs !!! i) <$> front)).
  { apply Forall_fmap, Forall_forall. intros i Hi. simpl.
    rewrite Forall_forall in Hrows2. apply Hrows2.
    apply list_elem_of_lookup_total_2.
    rewrite Forall_forall in Hfront_b. by apply Hfront_b. }
  destruct (crowding_distance_returns _ 2 Hfo_rows Hfo_ne)
    as (cd & sorted & Hcrowd & Hlcd & Hlsorted & _).
  destruct (take_idx_perm population (concat fronts ++ []))
    as (newpop & Hnew & Hnewperm).
  { by rewrite app_nil_r, Hlen. }
  destruct (crossover_zero rnd rnd_nonneg newpop k) as [k1 Hcross].
  destruct (mutation_zero rnd rnd_nonneg s_max newpop k1) as [k2 Hmut].
  destruct (mapM_total (λ r : list Q, a ← r !! 0%nat; b ← r !! 1%nat; Some (a + b))
              objs) as (sums & Hsums & Hlsums).
  { intros r Hr. apply list_elem_of_lookup in Hr as [i Hr].
    destruct (Hpairs i r Hr) as (msv & sd & ->). by eexists. }
  destruct (argmin_bound sums) as (best_index & Hargmin & Hbest_b).
  { intros ->. simpl in Hlsums. lia. }
  destruct (lookup_lt_is_Some_2 newpop best_index) as [best Hbest].
  { rewrite Hnewperm. lia. }
  destruct (lookup_lt_is_Some_2 objs best_index) as [bobj Hbobj]; [lia|].
  exists newpop, best, bobj, k2, σ'. split; [|split; [done|split]].
  - unfold NSGA.generation. rewrite Hfit. cbn [mbind option_bind].
    rewrite Hsort. cbn [mbind option_bind].
    rewrite select_fronts_all by (simpl; lia). simpl app. simpl Nat.add.
    rewrite (py_index_last fronts front Hlast). cbn [mbind option_bind].
    rewrite (take_idx_total objs front Hfront_b). cbn [mbind option_bind].
    rewrite Hcrowd. cbn [mbind option_bind].
    rewrite take_idx_total.
    2:{ eapply Forall_impl; [apply argsort_bounds|]. simpl. intros i Hi.
        rewrite length_fmap in Hi. lia. }
    cbn [mbind option_bind].
    replace (Z.of_nat pop_size - Z.of_nat (length (concat fronts)))%Z
      with 0%Z by lia.
    unfold py_slice_to. rewrite decide_True by lia.
    change (Z.to_nat 0) with 0%nat. rewrite take_0.
    cbn [mapM mbind option_bind mret option_ret].
    rewrite Hnew. cbn [mbind option_bind].
    rewrite Hcross. cbn [mbind option_bind].
    rewrite Hmut. cbn [mbind option_bind].
    rewrite Hsums. cbn [mbind option_bind].
    rewrite Hargmin. cbn [mbind option_bind].
    rewrite Hbest. cbn [mbind option_bind].
    rewrite Hbobj. cbn [mbind option_bind]. done.
  - rewrite <- Hnewperm. by eapply list_elem_of_lookup_2.
  - by trans σk.
Qed.
End generation.



(** X23: [non_dominated_sort] returns on every objectives array (its
    [while] loop ends), and its fronts are a partition of the candidates:
    no front is empty and every index appears in exactly one front, once. *)
Theorem non_dominated_sort_partition (objectives : list (list Q)) m :
  Forall (λ r, length r = m) objectives →
  ∃ fronts,
    NSGA.non_dominated_sort objectives = Some fronts ∧
    concat fronts ≡ₚ seq 0 (length objectives) ∧
    Forall (λ f, f ≠ []) fronts.
Proof. apply non_dominated_sort_fronts. Qed.

Lemma non_dominated_sort_partition_witness :
  ∃ fronts,
    NSGA.non_dominated_sort [[1; 2]; [2; 1]; [2; 2]; [3; 3]; [0; 5]]
    = Some fronts ∧
    concat fronts ≡ₚ seq 0 5 ∧
    Forall (λ f, f ≠ []) fronts.
Proof.
  apply (non_dominated_sort_partition
           [[1; 2]; [2; 1]; [2; 2]; [3; 3]; [0; 5]] 2).
  repeat constructor.
Defined.
